(** * Adversarial training orchestrator: a shallow embedding

    The development follows the trainers under [src/trainer]:
    - [train_stylegan.py]                       (module [TrainStylegan]),
    - [train_stylegan_real_feature_light.py]    (module [TrainLight]),
    - [train_stylegan_real_car_sdfgrid_sparse.py] (module [TrainSdfGrid]),
    - [train_stylegan_real_feature_patch.py]    (module [TrainPatch]),
    - [__init__.py]                             (module [Experiment]).

    Networks, renderer and autograd are external: whatever they compute
    is supplied by an environment record, and the control flow of the
    trainers is what is modelled. *)

From Stdlib Require Import ZArith QArith Lia List.
From Stdlib Require Import Floats.SpecFloat.
From stdpp Require Import base option list gmap strings.

Local Open Scope Z_scope.

(** ** Python exceptions and the result monad *)

(** The calls of [validation_epoch_end] into export and metric code. *)
Inductive eval_op : Type :=
| CreateDirectories
| ExportRaw         (* export_grid("", ...) / export_textures("", ...) *)
| ExportEma         (* export_grid("ema_", ...) / export_textures("ema_", ...) *)
| ExportMesh
| ExportSamples     (* the loop over val_dataloader() *)
| ComputeMetrics.   (* fid.compute_fid / compute_kid, logging, rmtree *)

#[global] Instance eval_op_eq_dec : EqDecision eval_op.
Proof. solve_decision. Defined.

Inductive exn : Type :=
| ZeroDivisionError        (* integer modulo by zero *)
| ValueError_sample        (* random.sample: sample larger than population *)
| RuntimeError_min_empty   (* Tensor.min() on a tensor with no elements *)
| RuntimeError_cat_empty   (* torch.cat on an empty list of tensors *)
| RuntimeError_cat_shape   (* torch.cat: sizes of tensors must match *)
| RuntimeError_reshape     (* reshape: shape is invalid for the input size *)
| IndexError               (* index out of range *)
| EvalError (op : eval_op). (* a failure raised by export / evaluation code *)

Inductive result (A : Type) : Type :=
| Ok (a : A)
| Raise (e : exn).
Arguments Ok {A} a.
Arguments Raise {A} e.

#[global] Instance result_ret : MRet result := fun _ a => Ok a.
#[global] Instance result_bind : MBind result := fun _ _ f m =>
  match m with
  | Ok a => f a
  | Raise e => Raise e
  end.

Definition is_ok {A} (r : result A) : bool :=
  match r with Ok _ => true | Raise _ => false end.

(** Python's [a % b] on integers: floor modulo, sign of the divisor,
    [ZeroDivisionError] for [b = 0]. *)
Definition py_mod (a b : Z) : result Z :=
  if b =? 0 then Raise ZeroDivisionError else Ok (a mod b).

(** ** Gradient entries and [torch.nan_to_num] *)

(** A gradient entry is an IEEE-754 value; [spec_float] keeps the four
    classes apart (zero, infinity, NaN, finite). *)
Definition fval : Type := spec_float.

(** The literal [1e5] as a binary32 value: 12800000 * 2^-7. *)
Definition f_1e5 : fval := S754_finite false 12800000 (-7).
Definition f_neg_1e5 : fval := S754_finite true 12800000 (-7).
Definition f_zero : fval := S754_zero false.

Definition is_nan (x : fval) : bool :=
  match x with S754_nan => true | _ => false end.

Definition is_inf (x : fval) : bool :=
  match x with S754_infinity _ => true | _ => false end.

(** [torch.nan_to_num(x, nan=0, posinf=1e5, neginf=-1e5)] on one entry. *)
Definition nan_to_num1 (x : fval) : fval :=
  match x with
  | S754_nan => f_zero
  | S754_infinity false => f_1e5
  | S754_infinity true => f_neg_1e5
  | _ => x
  end.

(** A gradient tensor, flattened. *)
Definition grad : Type := list fval.

Definition nan_to_num (g : grad) : grad := map nan_to_num1 g.

(** ** Modules, parameters, optimizers *)

Inductive module_id : Type :=
| G            (* generator *)
| D            (* critic *)
| patch_D      (* patch critic *)
| E            (* graph encoder *)
| light_mean   (* trainer-level parameter of the light trainer *)
| global_shininess.

#[global] Instance module_id_eq_dec : EqDecision module_id.
Proof. solve_decision. Defined.

(** [param.grad] of each parameter of each module; [None] is Python's
    [None] (no gradient). *)
Definition grads : Type := module_id → list (option grad).

Definition set_grads (m : module_id) (l : list (option grad)) (gs : grads) : grads :=
  fun m' => if decide (m' = m) then l else gs m'.

(** An optimizer is known by the modules whose parameters its parameter
    groups hold (see [configure_optimizers]). *)
Definition optimizer : Type := list module_id.

Inductive substep : Type :=
| s_g_step | s_g_regularizer | s_ema_update
| s_d_step | s_patch_d_step
| s_d_regularizer | s_patch_d_regularizer
| s_heuristic_update.

#[global] Instance substep_eq_dec : EqDecision substep.
Proof. solve_decision. Defined.

(** What one training iteration does, in order. [Sanitize] records that
    the [nan_to_num] loop ran over a module and the gradients it found;
    [OptStep] records the gradients the optimizer's update reads, one
    entry per module held by the optimizer; [LogPenalty] is the logging
    of a regularizer value ("rPLP", "rGP", "patch_rGP"). *)
Inductive event : Type :=
| Enter (s : substep)
| ZeroGrad (o : optimizer)
| Backward
| Sanitize (m : module_id) (before : list (option grad))
| OptStep (o : optimizer) (seen : list (module_id * list (option grad)))
| LogScalar
| LogPenalty (v : fval).

Record tstate : Type := mk_tstate {
  st_grads : grads;
  st_trace : list event
}.

Definition emit (e : event) (st : tstate) : tstate :=
  mk_tstate (st_grads st) (st_trace st ++ [e]).

(** [opt.zero_grad(set_to_none=True)] *)
Definition zero_grad (o : optimizer) (st : tstate) : tstate :=
  let gs := fold_right (fun m acc => set_grads m (map (fun _ => None) (acc m)) acc)
                       (st_grads st) o in
  emit (ZeroGrad o) (mk_tstate gs (st_trace st)).

(** [loss.backward()] / [self.manual_backward(loss)]: autograd is
    external, its effect on the [.grad] fields is given by [bw]. *)
Definition backward (bw : grads → grads) (st : tstate) : tstate :=
  emit Backward (mk_tstate (bw (st_grads st)) (st_trace st)).

(** [opt.step()]: the update of every parameter group reads the
    gradients as they are at this point. *)
Definition opt_step (o : optimizer) (st : tstate) : tstate :=
  emit (OptStep o (map (fun m => (m, st_grads st m)) o)) st.

(** The loop of the helper [step]:
<<
    for param in module.parameters():
        if param.grad is not None:
            torch.nan_to_num(param.grad, nan=0, posinf=1e5, neginf=-1e5, out=param.grad)
>> *)
Definition sanitize (m : module_id) (st : tstate) : tstate :=
  emit (Sanitize m (st_grads st m))
       (mk_tstate (set_grads m (map (option_map nan_to_num) (st_grads st m)) (st_grads st))
                  (st_trace st)).

(** The helper [step(opt, module)] of the patch, light and sdfgrid
    trainers. *)
Definition step (o : optimizer) (m : module_id) (st : tstate) : tstate :=
  opt_step o (sanitize m st).

Definition log (st : tstate) : tstate := emit LogScalar st.

(** Python's short-circuit [a > w and (a + 1) % n == 0]. *)
Definition after_and_every (gs w n : Z) : result bool :=
  if gs >? w then r ← py_mod (gs + 1) n; mret (r =? 0) else mret false.

Definition every (gs n : Z) : result bool :=
  r ← py_mod (gs + 1) n; mret (r =? 0).

(** The configuration fields the training step reads. *)
Record config : Type := mk_config {
  lazy_path_penalty_after : Z;
  lazy_path_penalty_interval : Z;
  lazy_gradient_penalty_interval : Z;
  ada_interval : Z
}.

(** What the external computations of one iteration yield: the effect of
    each backward pass on the gradients and the penalty values. *)
Record env : Type := mk_env {
  bw_g_step : grads → grads;
  plp : fval;
  bw_g_regularizer : grads → grads;
  bw_d_fake : grads → grads;
  bw_d_real : grads → grads;
  bw_patch_d_fake : grads → grads;
  bw_patch_d_real : grads → grads;
  gp : fval;
  bw_d_regularizer : grads → grads;
  patch_gp : fval;
  bw_patch_d_regularizer : grads → grads
}.

Definition when (b : bool) (f : tstate → tstate) (st : tstate) : tstate :=
  if b then f st else st.

(** ** train_stylegan.py *)
Module TrainStylegan.

Definition g_opt : optimizer := [G].
Definition d_opt : optimizer := [D].

Definition g_step (ev : env) (st : tstate) : tstate :=
    let st := emit (Enter s_g_step) st in
    let st := zero_grad g_opt st in
    let st := backward (bw_g_step ev) st in
    let st := opt_step g_opt st in
    log st.

Definition g_regularizer (ev : env) (st : tstate) : tstate :=
    let st := emit (Enter s_g_regularizer) st in
    let st := zero_grad g_opt st in
    if negb (is_nan (plp ev)) then
      let st := emit (LogPenalty (plp ev)) st in
      let st := backward (bw_g_regularizer ev) st in
      opt_step g_opt st
    else st.

Definition d_step (ev : env) (st : tstate) : tstate :=
    let st := emit (Enter s_d_step) st in
    let st := zero_grad d_opt st in
    let st := backward (bw_d_fake ev) st in
    let st := backward (bw_d_real ev) st in
    let st := opt_step d_opt st in
    log (log (log st)).

Definition d_regularizer (ev : env) (st : tstate) : tstate :=
    let st := emit (Enter s_d_regularizer) st in
    let st := zero_grad d_opt st in
    let st := backward (bw_d_regularizer ev) st in
    let st := opt_step d_opt st in
    emit (LogPenalty (gp ev)) st.

Definition execute_ada_heuristics (c : config) (global_step : Z) (st : tstate)
    : result tstate :=
    b ← every global_step (ada_interval c);
    mret (log (when b (emit (Enter s_heuristic_update)) st)).

Definition training_step (c : config) (ev : env) (global_step : Z) (st : tstate)
    : result tstate :=
    let st := g_step ev st in
    b ← after_and_every global_step (lazy_path_penalty_after c)
                        (lazy_path_penalty_interval c);
    let st := when b (g_regularizer ev) st in
    let st := emit (Enter s_ema_update) st in
    let st := d_step ev st in
    b ← every global_step (lazy_gradient_penalty_interval c);
    let st := when b (d_regularizer ev) st in
    execute_ada_heuristics c global_step st.

End TrainStylegan.

(** ** train_stylegan_real_feature_light.py *)
Module TrainLight.

Section WithConfig.
    (* config.optimize_lights, config.optimize_shininess *)
Variables optimize_lights optimize_shininess : bool.

Definition g_opt : optimizer :=
      [G; E] ++ (if optimize_lights then [light_mean] else [])
             ++ (if optimize_shininess then [global_shininess] else []).
Definition d_opt : optimizer := [D].

Definition g_step (ev : env) (st : tstate) : tstate :=
      let st := emit (Enter s_g_step) st in
      let st := zero_grad g_opt st in
      let st := backward (bw_g_step ev) st in
      let st := step g_opt G st in
      log st.

Definition g_regularizer (ev : env) (st : tstate) : tstate :=
      let st := emit (Enter s_g_regularizer) st in
      let st := zero_grad g_opt st in
      if negb (is_nan (plp ev)) then
        let st := emit (LogPenalty (plp ev)) st in
        let st := backward (bw_g_regularizer ev) st in
        step g_opt G st
      else st.

Definition d_step (ev : env) (st : tstate) : tstate :=
      let st := emit (Enter s_d_step) st in
      let st := zero_grad d_opt st in
      let st := backward (bw_d_fake ev) st in
      let st := backward (bw_d_real ev) st in
      let st := step d_opt D st in
      log (log (log st)).

Definition d_regularizer (ev : env) (st : tstate) : tstate :=
      let st := emit (Enter s_d_regularizer) st in
      let st := zero_grad d_opt st in
      let st := backward (bw_d_regularizer ev) st in
      let st := step d_opt D st in
      emit (LogPenalty (gp ev)) st.

Definition execute_ada_heuristics (c : config) (global_step : Z) (st : tstate)
      : result tstate :=
      b ← every global_step (ada_interval c);
      mret (log (when b (emit (Enter s_heuristic_update)) st)).

Definition training_step (c : config) (ev : env) (global_step : Z) (st : tstate)
      : result tstate :=
      let st := g_step ev st in
      b ← after_and_every global_step (lazy_path_penalty_after c)
                          (lazy_path_penalty_interval c);
      let st := when b (g_regularizer ev) st in
      let st := emit (Enter s_ema_update) st in
      let st := d_step ev st in
      b ← every global_step (lazy_gradient_penalty_interval c);
      let st := when b (d_regularizer ev) st in
      st ← execute_ada_heuristics c global_step st;
      mret (log st).
End WithConfig.

End TrainLight.

(** ** train_stylegan_real_car_sdfgrid_sparse.py *)
Module TrainSdfGrid.

Definition g_opt : optimizer := [G; E].
Definition d_opt : optimizer := [D].

Definition g_step (ev : env) (st : tstate) : tstate :=
    let st := emit (Enter s_g_step) st in
    let st := zero_grad g_opt st in
    let st := backward (bw_g_step ev) st in
    let st := step g_opt G st in
    log st.

Definition g_regularizer (ev : env) (st : tstate) : tstate :=
    let st := emit (Enter s_g_regularizer) st in
    let st := zero_grad g_opt st in
    if negb (is_nan (plp ev)) then
      let st := emit (LogPenalty (plp ev)) st in
      let st := backward (bw_g_regularizer ev) st in
      step g_opt G st
    else st.

Definition d_step (ev : env) (st : tstate) : tstate :=
    let st := emit (Enter s_d_step) st in
    let st := zero_grad d_opt st in
    let st := backward (bw_d_fake ev) st in
    let st := backward (bw_d_real ev) st in
    let st := step d_opt D st in
    log (log (log st)).

Definition d_regularizer (ev : env) (st : tstate) : tstate :=
    let st := emit (Enter s_d_regularizer) st in
    let st := zero_grad d_opt st in
    let st := backward (bw_d_regularizer ev) st in
    let st := step d_opt D st in
    emit (LogPenalty (gp ev)) st.

Definition execute_ada_heuristics (c : config) (global_step : Z) (st : tstate)
    : result tstate :=
    b ← every global_step (ada_interval c);
    mret (log (when b (emit (Enter s_heuristic_update)) st)).

  (* the call of [g_regularizer] is commented out in this trainer *)
Definition training_step (c : config) (ev : env) (global_step : Z) (st : tstate)
    : result tstate :=
    let st := g_step ev st in
    let st := emit (Enter s_ema_update) st in
    let st := d_step ev st in
    b ← every global_step (lazy_gradient_penalty_interval c);
    let st := when b (d_regularizer ev) st in
    execute_ada_heuristics c global_step st.

End TrainSdfGrid.

(** ** The shadow parameter tracker and [validation_epoch_end] *)
Module Ema.
Section WithTensor.

(* the type of a parameter's data *)
Variable tensor : Type.

(** A parameter of the generator: its data and its [requires_grad] flag. *)
Record param : Type := mk_param {
  p_data : tensor;
  requires_grad : bool
}.

Definition set_data (v : tensor) (p : param) : param :=
  mk_param v (requires_grad p).

(** [self.G.parameters()]: the identifiers of all parameters. *)
Definition parameters (live : gmap nat param) : list nat :=
  map fst (map_to_list live).

(** [[p for p in self.G.parameters() if p.requires_grad]] *)
Definition trainable (live : gmap nat param) : list nat :=
  map fst (filter (fun kp => requires_grad (snd kp) = true) (map_to_list live)).

(** Modelled from the spec: the class [ExponentialMovingAverage] (package
    [torch_ema]) is not among the sources; its state is the shadow set,
    a mapping from parameter id to tensor, and the values put aside by
    [store]. *)
Record ema : Type := mk_ema {
  shadow_params : gmap nat tensor;
  collected_params : gmap nat tensor
}.

(** Modelled from the spec: [ExponentialMovingAverage.store], absent from
    the sources: saves the current live parameter values aside. *)
Definition store (ps : list nat) (live : gmap nat param) (e : ema) : ema :=
  mk_ema (shadow_params e)
         (foldr (fun k c => match live !! k with
                            | Some p => <[k := p_data p]> c
                            | None => c
                            end) ∅ ps).

(** Overwrite the data of the targets that [src] knows. *)
Definition overwrite (src : gmap nat tensor) (targets : list nat)
  (live : gmap nat param) : gmap nat param :=
  foldr (fun k m => match src !! k with
                    | Some v => alter (set_data v) k m
                    | None => m
                    end) live targets.

(** Modelled from the spec: [ExponentialMovingAverage.copy_to], absent
    from the sources: overwrites live parameters with shadow values. *)
Definition copy_to (targets : list nat) (e : ema) (live : gmap nat param)
  : gmap nat param :=
  overwrite (shadow_params e) targets live.

(** Modelled from the spec: [ExponentialMovingAverage.restore], absent
    from the sources: reinstates the values saved by [store]. *)
Definition restore (targets : list nat) (e : ema) (live : gmap nat param)
  : gmap nat param :=
  overwrite (collected_params e) targets live.

(** The state [validation_epoch_end] works on: the generator's live
    parameters and [self.ema]. *)
Record vstate : Type := mk_vstate {
  live : gmap nat param;
  the_ema : ema
}.

(** Statements that change the state and may raise. *)
Definition vM (A : Type) : Type := vstate → vstate * result A.

Definition vret {A} (a : A) : vM A := fun st => (st, Ok a).

Definition vbind {A B} (m : vM A) (f : A → vM B) : vM B :=
  fun st => match m st with
            | (st', Ok a) => f a st'
            | (st', Raise e) => (st', Raise e)
            end.

Definition vseq (m1 m2 : vM unit) : vM unit := vbind m1 (fun _ => m2).

(** Python's [with ctx: body]. [suppress] is the truth value
    [ctx.__exit__] returns: when it is true an exception of the body is
    swallowed and execution goes on after the block. *)
Definition with_ctx (suppress : bool) (body : vM unit) : vM unit :=
  fun st => match body st with
            | (st', Raise e) => if suppress then (st', Ok tt) else (st', Raise e)
            | r => r
            end.

Section Epoch.

(* [Timer.__exit__] of util/timer.py, which is not among the sources:
   whether it returns a true value. *)
Variable timer_exit : bool.

(* which of the export / metric calls raises *)
Variable raises : eval_op → bool.

Definition eval (op : eval_op) : vM unit :=
  fun st => if raises op then (st, Raise (EvalError op)) else (st, Ok tt).

Definition ema_store : vM unit :=
  fun st => (mk_vstate (live st) (store (parameters (live st)) (live st) (the_ema st)), Ok tt).

Definition ema_copy_to : vM unit :=
  fun st => (mk_vstate (copy_to (trainable (live st)) (the_ema st) (live st)) (the_ema st), Ok tt).

Definition ema_restore : vM unit :=
  fun st => (mk_vstate (restore (trainable (live st)) (the_ema st) (live st)) (the_ema st), Ok tt).

Definition Timer : vM unit → vM unit := with_ctx timer_exit.

(** [validation_epoch_end] of train_stylegan_real_feature_patch.py (the
    light and sdfgrid trainers have the same shape). *)
Definition validation_epoch_end_patch : vM unit :=
  vseq (Timer (vseq (eval CreateDirectories)
              (vseq (eval ExportRaw)
              (vseq ema_store
              (vseq ema_copy_to
              (vseq (eval ExportEma)
                    (eval ExportMesh)))))))
 (vseq (Timer (eval ExportSamples))
 (vseq ema_restore
       (eval ComputeMetrics))).

(** [validation_epoch_end] of train_stylegan.py. *)
Definition validation_epoch_end_base : vM unit :=
  vseq (Timer (vseq (eval CreateDirectories)
              (vseq (eval ExportRaw)
              (vseq ema_store
              (vseq ema_copy_to
              (vseq (eval ExportEma)
                    ema_restore))))))
 (vseq (Timer (eval ExportSamples))
       (eval ComputeMetrics)).

End Epoch.
End WithTensor.

Arguments mk_param {tensor} p_data requires_grad.
Arguments p_data {tensor} p.
Arguments requires_grad {tensor} p.
Arguments set_data {tensor} v p.
Arguments parameters {tensor} live.
Arguments trainable {tensor} live.
Arguments mk_ema {tensor} shadow_params collected_params.
Arguments shadow_params {tensor} e.
Arguments collected_params {tensor} e.
Arguments store {tensor} ps live e.
Arguments overwrite {tensor} src targets live.
Arguments copy_to {tensor} targets e live.
Arguments restore {tensor} targets e live.
Arguments mk_vstate {tensor} live the_ema.
Arguments live {tensor} v.
Arguments the_ema {tensor} v.
Arguments vret {tensor A} a.
Arguments vbind {tensor A B} m f.
Arguments vseq {tensor} m1 m2.
Arguments with_ctx {tensor} suppress body.
Arguments eval {tensor} raises op.
Arguments ema_store {tensor}.
Arguments ema_copy_to {tensor}.
Arguments ema_restore {tensor}.
Arguments Timer {tensor} timer_exit.
Arguments validation_epoch_end_patch {tensor} timer_exit raises.
Arguments validation_epoch_end_base {tensor} timer_exit raises.

End Ema.

(** ** The augmentation controller *)
Module Ada.
Section WithAccumulator.

(* The sign accumulator: a bounded-memory running statistic whose decay
   policy the spec leaves to the implementation. *)
Variable acc : Type.
Variable accumulate : acc → list Z → acc.
Variable estimate : acc → Q.

(** Modelled from the spec: the class [AugmentPipe] of model/augment.py is
    not among the sources. Its state: the augmentation probability [p],
    the target [ada_target], the cadence length [pipe_interval], the mode
    flag [ada_fixed], the speed constant and the sign accumulator. *)
Record augment_pipe : Type := mk_pipe {
  p : Q;
  ada_target : Q;
  pipe_interval : Z;
  ada_fixed : bool;
  ada_speed : Q;
  sign_acc : acc
}.

Definition set_p (q : Q) (a : augment_pipe) : augment_pipe :=
  mk_pipe q (ada_target a) (pipe_interval a) (ada_fixed a) (ada_speed a) (sign_acc a).

(** Modelled from the spec: [AugmentPipe.accumulate_real_sign], absent
    from the sources: records the signs of the critic's outputs on real
    samples into the accumulator. *)
Definition accumulate_real_sign (signs : list Z) (a : augment_pipe) : augment_pipe :=
  mk_pipe (p a) (ada_target a) (pipe_interval a) (ada_fixed a) (ada_speed a)
          (accumulate (sign_acc a) signs).

Definition clamp01 (x : Q) : Q :=
  if Qle_bool x 0 then 0%Q else if Qle_bool 1 x then 1%Q else x.

(** Modelled from the spec: [AugmentPipe.heuristic_update], absent from
    the sources. In fixed mode the controller is inert. In adaptive mode
    the estimate [r] is compared to the target: farther from 0 than
    desired raises the probability, closer lowers it; the step is the
    cadence length times the speed constant; the result is clamped to
    [0, 1]. *)
Definition heuristic_update (a : augment_pipe) : augment_pipe :=
  if ada_fixed a then a
  else
    let r := estimate (sign_acc a) in
    let size := (inject_Z (pipe_interval a) * ada_speed a)%Q in
    let adjust := match (r ?= ada_target a)%Q with
                  | Gt => size
                  | Lt => (- size)%Q
                  | Eq => 0%Q
                  end in
    set_p (clamp01 (p a + adjust)%Q) a.

(** [execute_ada_heuristics] of the trainers, on the controller's state. *)
Definition execute_ada_heuristics (c : config) (global_step : Z) (a : augment_pipe)
  : result augment_pipe :=
  b ← every global_step (ada_interval c);
  mret (if (b : bool) then heuristic_update a else a).

(** The controller over one training iteration: the critic step records
    the signs of its outputs on real samples, then the cadence check. *)
Definition iteration (c : config) (signs : list Z) (global_step : Z) (a : augment_pipe)
  : result augment_pipe :=
  execute_ada_heuristics c global_step (accumulate_real_sign signs a).

(** A run: [global_step] goes up by one per iteration. *)
Fixpoint run (c : config) (batches : list (list Z)) (global_step : Z) (a : augment_pipe)
  : result augment_pipe :=
  match batches with
  | [] => mret a
  | signs :: rest =>
      a' ← iteration c signs global_step a;
      run c rest (global_step + 1) a'
  end.

End WithAccumulator.

Arguments mk_pipe {acc} p ada_target pipe_interval ada_fixed ada_speed sign_acc.
Arguments p {acc} a.
Arguments ada_target {acc} a.
Arguments pipe_interval {acc} a.
Arguments ada_fixed {acc} a.
Arguments ada_speed {acc} a.
Arguments sign_acc {acc} a.
Arguments set_p {acc} q a.
Arguments accumulate_real_sign {acc} accumulate signs a.
Arguments heuristic_update {acc} estimate a.
Arguments execute_ada_heuristics {acc} estimate c global_step a.
Arguments iteration {acc} accumulate estimate c signs global_step a.
Arguments run {acc} accumulate estimate c batches global_step a.

End Ada.

(** ** The patch sampler: [extract_patches_from_tensor] *)
Module Patch.
Section WithElem.

(* the element type of images and masks, and the test [x > 0] on it *)
Variable R : Type.
Variable gt0 : R → bool.

(** A mask [H x W] and an image [C x H x W]: the shape and the entry at
    each index. *)
Record tensor2 : Type := mk_t2 {
  t2_h : nat;
  t2_w : nat;
  t2_at : nat → nat → R
}.

Record tensor3 : Type := mk_t3 {
  t3_c : nat;
  t3_h : nat;
  t3_w : nat;
  t3_at : nat → nat → nat → R
}.

(** A contiguous tensor of any rank: its shape and its entries in
    row-major order. *)
Record tensor : Type := mk_tensor {
  shape : list Z;
  data : list R
}.

(** A bound [i] of a Python slice on a dimension of size [n]: a negative
    bound counts from the end, and the result is clamped to [0, n]. *)
Definition slice_bound (n : nat) (i : Z) : nat :=
  Z.to_nat (if i <? 0 then Z.max 0 (i + Z.of_nat n) else Z.min i (Z.of_nat n)).

(** [m[y_low: y_high, x_low: x_high]] *)
Definition slice2 (m : tensor2) (y_low y_high x_low x_high : Z) : tensor2 :=
  let a := slice_bound (t2_h m) y_low in
  let b := slice_bound (t2_h m) y_high in
  let c := slice_bound (t2_w m) x_low in
  let d := slice_bound (t2_w m) x_high in
  mk_t2 (b - a) (d - c) (fun i j => t2_at m (a + i) (c + j))%nat.

(** [t[:, y_low: y_high, x_low: x_high]] *)
Definition slice3 (t : tensor3) (y_low y_high x_low x_high : Z) : tensor3 :=
  let a := slice_bound (t3_h t) y_low in
  let b := slice_bound (t3_h t) y_high in
  let c := slice_bound (t3_w t) x_low in
  let d := slice_bound (t3_w t) x_high in
  mk_t3 (t3_c t) (b - a) (d - c) (fun ch i j => t3_at t ch (a + i) (c + j))%nat.

(** [torch.nonzero(m > 0, as_tuple=True)]: the coordinates [(y, x)] of
    the positive entries in row-major order; the two index tensors of the
    source are kept as one list of pairs. *)
Definition nonzero (m : tensor2) : list (Z * Z) :=
  map (fun yx => (Z.of_nat (fst yx), Z.of_nat (snd yx)))
      (List.filter (fun yx => gt0 (t2_at m (fst yx) (snd yx)))
                   (list_prod (seq 0 (t2_h m)) (seq 0 (t2_w m)))).

(** [Tensor.min()] and [Tensor.max()] of a 1-D integer tensor. *)
Definition tensor_min (l : list Z) : result Z :=
  match l with
  | [] => Raise RuntimeError_min_empty
  | a :: l' => Ok (foldr Z.min a l')
  end.

Definition tensor_max (l : list Z) : result Z :=
  match l with
  | [] => Raise RuntimeError_min_empty
  | a :: l' => Ok (foldr Z.max a l')
  end.

(** The boolean mask [nz_mask] at one coordinate pair. *)
Definition nz_mask (patch_size y_min y_max x_min x_max : Z) (yx : Z * Z) : bool :=
  ((fst yx >? y_min + patch_size / 2 + 1) && (fst yx <? y_max - patch_size / 2 - 1))
  && ((snd yx >? x_min + patch_size / 2 + 1) && (snd yx <? x_max - patch_size / 2 - 1)).

(** The centers that remain after masking. *)
Definition valid_centers (m : tensor2) (patch_size : Z) : result (list (Z * Z)) :=
  let nz := nonzero m in
  y_min ← tensor_min (map fst nz);
  y_max ← tensor_max (map fst nz);
  x_min ← tensor_min (map snd nz);
  x_max ← tensor_max (map snd nz);
  mret (List.filter (nz_mask patch_size y_min y_max x_min x_max) nz).

(** Drawing [k] elements without replacement: each draw takes the next
    number of the random source, picks the element at that position
    (modulo the number of elements left) and removes it. *)
Fixpoint draw {A} (pop : list A) (k : nat) (rnd : list nat) : list A :=
  match k with
  | O => []
  | S k' =>
      let j := (hd O rnd mod length pop)%nat in
      match pop !! j with
      | Some a => a :: draw (delete j pop) k' (tl rnd)
      | None => []
      end
  end.

(** [random.sample(population, k)]: [ValueError] when the sample is
    larger than the population; the random source is threaded through. *)
Definition random_sample {A} (population : list A) (k : nat) (rnd : list nat)
  : result (list A * list nat) :=
  if (length population <? k)%nat then Raise ValueError_sample
  else Ok (draw population k rnd, drop k rnd).

(** [l[idx]] for a list of indices. *)
Fixpoint index_all {A} (l : list A) (idx : list nat) : result (list A) :=
  match idx with
  | [] => mret []
  | i :: idx' =>
      match l !! i with
      | Some a => rest ← index_all l idx'; mret (a :: rest)
      | None => Raise IndexError
      end
  end.

(** The sampled centers of one image. *)
Definition sample_centers (m : tensor2) (patches_per_view : nat) (patch_size : Z)
  (rnd : list nat) : result (list (Z * Z) * list nat) :=
  kept ← valid_centers m patch_size;
  sr ← random_sample (seq 0 (length kept)) patches_per_view rnd;
  centers ← index_all kept (fst sr);
  mret (centers, snd sr).

Definition crop_image (img : tensor3) (patch_size : Z) (yx : Z * Z) : tensor3 :=
  slice3 img (fst yx - patch_size / 2) (fst yx + patch_size / 2)
             (snd yx - patch_size / 2) (snd yx + patch_size / 2).

Definition crop_mask (m : tensor2) (patch_size : Z) (yx : Z * Z) : tensor2 :=
  slice2 m (fst yx - patch_size / 2) (fst yx + patch_size / 2)
           (snd yx - patch_size / 2) (snd yx + patch_size / 2).

Definition flat2 (t : tensor2) : list R :=
  flat_map (fun i => map (t2_at t i) (seq 0 (t2_w t))) (seq 0 (t2_h t)).

Definition flat3 (t : tensor3) : list R :=
  flat_map (fun ch => flat_map (fun i => map (t3_at t ch i) (seq 0 (t3_w t)))
                               (seq 0 (t3_h t)))
           (seq 0 (t3_c t)).

(** [patch.unsqueeze(0)] *)
Definition patch_unsqueeze (t : tensor3) : tensor :=
  mk_tensor [1; Z.of_nat (t3_c t); Z.of_nat (t3_h t); Z.of_nat (t3_w t)] (flat3 t).

(** [msk.unsqueeze(0).unsqueeze(0)] *)
Definition msk_unsqueeze (t : tensor2) : tensor :=
  mk_tensor [1; 1; Z.of_nat (t2_h t); Z.of_nat (t2_w t)] (flat2 t).

(** [torch.cat(ts, dim=0)] *)
Definition torch_cat (ts : list tensor) : result tensor :=
  match ts with
  | [] => Raise RuntimeError_cat_empty
  | t :: _ =>
      if forallb (fun u => bool_decide (tail (shape u) = tail (shape t))) ts
      then Ok (mk_tensor (foldr Z.add 0 (map (fun u => hd 0 (shape u)) ts) :: tail (shape t))
                         (flat_map data ts))
      else Raise RuntimeError_cat_shape
  end.

Definition numel (sh : list Z) : Z := foldr Z.mul 1 sh.

(** [t.reshape(new)] for a shape without [-1] entries of its own. *)
Definition reshape (new : list Z) (t : tensor) : result tensor :=
  if forallb (fun d => 0 <=? d) new && (numel new =? numel (shape t))
  then Ok (mk_tensor new (data t))
  else Raise RuntimeError_reshape.

Definition lookup_or_raise {A} (l : list A) (i : nat) : result A :=
  match l !! i with
  | Some a => Ok a
  | None => Raise IndexError
  end.

(** The loop over the images of the batch, from index [idx] on; it
    yields the crops in the order they are appended. *)
Fixpoint patch_loop (images : list tensor3) (idx : nat) (mask : list tensor2)
  (patches_per_view : nat) (patch_size : Z) (rnd : list nat)
  : result (list (tensor3 * tensor2)) :=
  match images with
  | [] => mret []
  | img :: images' =>
      m ← lookup_or_raise mask idx;
      cr ← sample_centers m patches_per_view patch_size rnd;
      rest ← patch_loop images' (S idx) mask patches_per_view patch_size (snd cr);
      mret (map (fun yx => (crop_image img patch_size yx, crop_mask m patch_size yx)) (fst cr)
            ++ rest)
  end.

Definition extract_patches_from_tensor (t_image : list tensor3) (mask : list tensor2)
  (patches_per_view : nat) (patch_size : Z) (rnd : list nat) : result (tensor * tensor) :=
  crops ← patch_loop t_image 0 mask patches_per_view patch_size rnd;
  patches ← torch_cat (map (fun c => patch_unsqueeze (fst c)) crops);
  patches ← reshape [Z.of_nat (length t_image); Z.of_nat patches_per_view; 3;
                     patch_size; patch_size] patches;
  patch_masks ← torch_cat (map (fun c => msk_unsqueeze (snd c)) crops);
  patch_masks ← reshape [Z.of_nat (length t_image); Z.of_nat patches_per_view; 1;
                         patch_size; patch_size] patch_masks;
  mret (patches, patch_masks).

(** *** Reading the sampler's results *)

(** The number of centers left for an image after masking; none when the
    mask has no positive entry. *)
Definition num_valid_centers (m : tensor2) (patch_size : Z) : nat :=
  match valid_centers m patch_size with
  | Ok kept => length kept
  | Raise _ => O
  end.

(** [y_min, y_max, x_min, x_max] is the bounding box of the positive
    entries of [m]: it contains all of them and each side is attained. *)
Definition is_bbox (m : tensor2) (y_min y_max x_min x_max : Z) : Prop :=
  (∀ yx, In yx (nonzero m) → (y_min ≤ fst yx ≤ y_max) ∧ (x_min ≤ snd yx ≤ x_max))
  ∧ In y_min (map fst (nonzero m)) ∧ In y_max (map fst (nonzero m))
  ∧ In x_min (map snd (nonzero m)) ∧ In x_max (map snd (nonzero m)).

(** The [n x n] window of a mask or image whose first row is [y0] and
    whose first column is [x0]. *)
Definition window2 (m : tensor2) (y0 x0 n : nat) : tensor2 :=
  mk_t2 n n (fun i j => t2_at m (y0 + i) (x0 + j))%nat.

Definition window3 (t : tensor3) (y0 x0 n : nat) : tensor3 :=
  mk_t3 (t3_c t) n n (fun ch i j => t3_at t ch (y0 + i) (x0 + j))%nat.

(** The crops around the center [yx] lie inside the bounding box: the
    center is a positive entry at more than [patch_size / 2 + 1] from
    each side of the box, the mask crop is the window of side
    [2 * (patch_size / 2)] whose rows and columns are rows and columns of
    the box, and so is the image crop when the image has the height and
    width of the mask. *)
Definition crop_inside (img : tensor3) (m : tensor2) (patch_size : Z) (yx : Z * Z) : Prop :=
  ∃ y_min y_max x_min x_max,
    let y0 := Z.to_nat (fst yx - patch_size / 2) in
    let x0 := Z.to_nat (snd yx - patch_size / 2) in
    let n := Z.to_nat (2 * (patch_size / 2)) in
    is_bbox m y_min y_max x_min x_max
    ∧ In yx (nonzero m)
    ∧ (y_min + patch_size / 2 + 1 < fst yx < y_max - patch_size / 2 - 1)
    ∧ (x_min + patch_size / 2 + 1 < snd yx < x_max - patch_size / 2 - 1)
    ∧ (y_min ≤ Z.of_nat y0 ∧ Z.of_nat (y0 + n) ≤ y_max)
    ∧ (x_min ≤ Z.of_nat x0 ∧ Z.of_nat (x0 + n) ≤ x_max)
    ∧ crop_mask m patch_size yx = window2 m y0 x0 n
    ∧ (t3_h img = t2_h m → t3_w img = t2_w m →
       crop_image img patch_size yx = window3 img y0 x0 n).

(** The centers sampled for one image: as many as asked for, taken at
    pairwise distinct positions of the list of valid centers, each with
    its crops inside the bounding box. *)
Definition sampled_inside (img : tensor3) (m : tensor2) (patches_per_view : nat)
  (patch_size : Z) (cs : list (Z * Z)) : Prop :=
  length cs = patches_per_view
  ∧ (∃ kept idxs, valid_centers m patch_size = Ok kept ∧ NoDup idxs
                  ∧ Forall2 (fun i c => kept !! i = Some c) idxs cs)
  ∧ Forall (crop_inside img m patch_size) cs.

(** An image and its mask the sampler can work on: three channels, the
    height and width of the mask, and at least [patches_per_view] valid
    centers. *)
Definition samplable (patches_per_view : nat) (patch_size : Z)
  (img : tensor3) (m : tensor2) : Prop :=
  t3_c img = 3%nat ∧ t3_h img = t2_h m ∧ t3_w img = t2_w m
  ∧ (patches_per_view ≤ num_valid_centers m patch_size)%nat.

(** The crops of a batch at the given centers, image after image. *)
Definition crops_of (t_image : list tensor3) (mask : list tensor2) (patch_size : Z)
  (css : list (list (Z * Z))) : list (tensor3 * tensor2) :=
  concat (zip_with (fun im cs =>
                      map (fun yx => (crop_image (fst im) patch_size yx,
                                      crop_mask (snd im) patch_size yx)) cs)
                   (zip t_image mask) css).

End WithElem.

Arguments mk_t2 {R} t2_h t2_w t2_at.
Arguments t2_h {R} t.
Arguments t2_w {R} t.
Arguments t2_at {R} t _ _.
Arguments mk_t3 {R} t3_c t3_h t3_w t3_at.
Arguments t3_c {R} t.
Arguments t3_h {R} t.
Arguments t3_w {R} t.
Arguments t3_at {R} t _ _ _.
Arguments mk_tensor {R} shape data.
Arguments shape {R} t.
Arguments data {R} t.
Arguments slice2 {R} m y_low y_high x_low x_high.
Arguments slice3 {R} t y_low y_high x_low x_high.
Arguments nonzero {R} gt0 m.
Arguments valid_centers {R} gt0 m patch_size.
Arguments sample_centers {R} gt0 m patches_per_view patch_size rnd.
Arguments crop_image {R} img patch_size yx.
Arguments crop_mask {R} m patch_size yx.
Arguments flat2 {R} t.
Arguments flat3 {R} t.
Arguments patch_unsqueeze {R} t.
Arguments msk_unsqueeze {R} t.
Arguments torch_cat {R} ts.
Arguments reshape {R} new t.
Arguments patch_loop {R} gt0 images idx mask patches_per_view patch_size rnd.
Arguments extract_patches_from_tensor {R} gt0 t_image mask patches_per_view patch_size rnd.
Arguments num_valid_centers {R} gt0 m patch_size.
Arguments is_bbox {R} gt0 m y_min y_max x_min x_max.
Arguments window2 {R} m y0 x0 n.
Arguments window3 {R} t y0 x0 n.
Arguments crop_inside {R} gt0 img m patch_size yx.
Arguments sampled_inside {R} gt0 img m patches_per_view patch_size cs.
Arguments crops_of {R} t_image mask patch_size css.
Arguments samplable {R} gt0 patches_per_view patch_size img m.

End Patch.

(** ** train_stylegan_real_feature_patch.py *)

(** A sub-step that may raise: the state it leaves (the one reached when
    the exception is raised, if it raises) and how it ended. *)
Definition run : Type := tstate * result unit.

Definition returned (st : tstate) : run := (st, Ok tt).

(** Go on with [k] when the run so far returned. *)
Definition andthen (r : run) (k : tstate → run) : run :=
  match r with
  | (st, Ok _) => k st
  | (st, Raise e) => (st, Raise e)
  end.

(** The value of an expression that may raise, evaluated in state [st]. *)
Definition evaluate {A} (st : tstate) (e : result A) (k : A → run) : run :=
  match e with
  | Ok a => k a
  | Raise x => (st, Raise x)
  end.

Module TrainPatch.

Definition g_opt : optimizer := [G; E].
Definition d_opt : optimizer := [D].
Definition patch_d_opt : optimizer := [patch_D].

Section WithPixels.
Context {R : Type} (gt0 : R → bool).

(** The tensors one call of [extract_patches_from_tensor] is made with
    (renderer and data set are external) and the draws of its
    [random.sample] calls. *)
Record patch_call : Type := mk_patch_call {
  pc_image : list (Patch.tensor3 R);
  pc_mask : list (Patch.tensor2 R);
  pc_rnd : list nat
}.

(** The configuration fields of the patch extraction and the four calls
    of one iteration. [views_per_sample] is at least 1: it is the step
    of [range(0, real.shape[0], views_per_sample)] and a divisor of the
    batch size, which both raise for 0. The calls:
    - [g_fake]: [fake_render[:, :3, :, :]] and [1 - fake_render[:, 3, :, :]]
      in [g_step];
    - [d_fake]: the same tensors of the render in [patch_d_step];
    - [d_real]: [real[first_views]] and [batch['mask_hres'][first_views, 0, :, :]]
      in [patch_d_step];
    - [reg_real]: [image[first_views]] and the same masks in
      [patch_d_regularizer]. *)
Record patches : Type := mk_patches {
  num_patch_per_view : nat;
  views_per_sample : positive;
  patch_size : Z;
  g_fake : patch_call;
  d_fake : patch_call;
  d_real : patch_call;
  reg_real : patch_call
}.

(** [self.extract_patches_from_tensor(t_image, mask, count, self.config.patch_size)] *)
Definition extract_patches (pe : patches) (call : patch_call) (count : nat)
  : result (Patch.tensor R * Patch.tensor R) :=
  Patch.extract_patches_from_tensor gt0 (pc_image call) (pc_mask call) count
    (patch_size pe) (pc_rnd call).

Definition g_step (ev : env) (pe : patches) (st : tstate) : run :=
    let st := emit (Enter s_g_step) st in
    let st := zero_grad g_opt st in
    evaluate st (extract_patches pe (g_fake pe) (num_patch_per_view pe)) (fun _ =>
    let st := backward (bw_g_step ev) st in
    let st := step g_opt G st in
    returned (log (log st))).

Definition g_regularizer (ev : env) (st : tstate) : tstate :=
    let st := emit (Enter s_g_regularizer) st in
    let st := zero_grad g_opt st in
    if negb (is_nan (plp ev)) then
      let st := emit (LogPenalty (plp ev)) st in
      let st := backward (bw_g_regularizer ev) st in
      step g_opt G st
    else st.

Definition d_step (ev : env) (st : tstate) : tstate :=
    let st := emit (Enter s_d_step) st in
    let st := zero_grad d_opt st in
    let st := backward (bw_d_fake ev) st in
    let st := backward (bw_d_real ev) st in
    let st := step d_opt D st in
    log (log (log st)).

Definition patch_d_step (ev : env) (pe : patches) (st : tstate) : run :=
    let st := emit (Enter s_patch_d_step) st in
    let st := zero_grad patch_d_opt st in
    evaluate st (extract_patches pe (d_fake pe) (num_patch_per_view pe)) (fun _ =>
    let st := backward (bw_patch_d_fake ev) st in
    evaluate st (extract_patches pe (d_real pe)
               (num_patch_per_view pe * Pos.to_nat (views_per_sample pe))) (fun _ =>
    let st := backward (bw_patch_d_real ev) st in
    let st := step patch_d_opt patch_D st in
    returned (log (log (log st))))).

Definition d_regularizer (ev : env) (st : tstate) : tstate :=
    let st := emit (Enter s_d_regularizer) st in
    let st := zero_grad d_opt st in
    let st := backward (bw_d_regularizer ev) st in
    let st := step d_opt D st in
    emit (LogPenalty (gp ev)) st.

Definition patch_d_regularizer (ev : env) (pe : patches) (st : tstate) : run :=
    let st := emit (Enter s_patch_d_regularizer) st in
    let st := zero_grad patch_d_opt st in
    evaluate st (extract_patches pe (reg_real pe)
               (num_patch_per_view pe * Pos.to_nat (views_per_sample pe))) (fun _ =>
    let st := backward (bw_patch_d_regularizer ev) st in
    let st := step patch_d_opt patch_D st in
    returned (emit (LogPenalty (patch_gp ev)) st)).

Definition execute_ada_heuristics (c : config) (global_step : Z) (st : tstate)
    : result tstate :=
    b ← every global_step (ada_interval c);
    mret (log (when b (emit (Enter s_heuristic_update)) st)).

Definition training_step (c : config) (ev : env) (pe : patches) (global_step : Z)
    (st : tstate) : run :=
    andthen (g_step ev pe st) (fun st =>
    evaluate st (after_and_every global_step (lazy_path_penalty_after c)
                             (lazy_path_penalty_interval c)) (fun b =>
    let st := when b (g_regularizer ev) st in
    let st := emit (Enter s_ema_update) st in
    let st := d_step ev st in
    andthen (patch_d_step ev pe st) (fun st =>
    evaluate st (every global_step (lazy_gradient_penalty_interval c)) (fun b =>
    andthen (if b then patch_d_regularizer ev pe (d_regularizer ev st)
             else returned st) (fun st =>
    evaluate st (execute_ada_heuristics c global_step st) returned))))).

(** *** Reading an iteration of the patch trainer *)

(** The call returns patches. *)
Definition extracts (pe : patches) (call : patch_call) (count : nat) : Prop :=
  is_ok (extract_patches pe call count) = true.

(** Every patch extraction the iteration at [global_step] comes to
    returns: the one of [g_step], the two of [patch_d_step] and, when
    the gradient penalty is due, the one of [patch_d_regularizer]. *)
Definition patches_extracted (c : config) (pe : patches) (global_step : Z) : Prop :=
  extracts pe (g_fake pe) (num_patch_per_view pe)
  ∧ extracts pe (d_fake pe) (num_patch_per_view pe)
  ∧ extracts pe (d_real pe) (num_patch_per_view pe * Pos.to_nat (views_per_sample pe))
  ∧ ((global_step + 1) mod lazy_gradient_penalty_interval c = 0 →
     extracts pe (reg_real pe) (num_patch_per_view pe * Pos.to_nat (views_per_sample pe))).

End WithPixels.

Arguments patch_call R : clear implicits.
Arguments patches R : clear implicits.
Arguments mk_patch_call {R} pc_image pc_mask pc_rnd.
Arguments mk_patches {R} num_patch_per_view views_per_sample patch_size
  g_fake d_fake d_real reg_real.

End TrainPatch.

(** ** The exports of [validation_epoch_end] *)
Module Validation.

(** Python's [a // b] on integers: floor division,
    [ZeroDivisionError] for [b = 0]. *)
Definition floordiv (a b : Z) : result Z :=
  if b =? 0 then Raise ZeroDivisionError else Ok (a / b).

(** [l[lo: hi]] on a sequence, with Python's treatment of the bounds. *)
Definition py_slice {A} (l : list A) (lo hi : Z) : list A :=
  let a := Patch.slice_bound (length l) lo in
  let b := Patch.slice_bound (length l) hi in
  take (b - a) (drop a l).

(** The export loops draw batches with [next(grid_loader)], which ends
    in [StopIteration] on an exhausted loader. *)
Inductive error : Type :=
| StopIteration
| Error (e : exn).

Inductive outcome (A : Type) : Type :=
| Return (a : A)
| Abort (e : error).
Arguments Return {A} a.
Arguments Abort {A} e.

#[global] Instance outcome_ret : MRet outcome := fun _ a => Return a.
#[global] Instance outcome_bind : MBind outcome := fun _ _ f m =>
  match m with
  | Return a => f a
  | Abort e => Abort e
  end.

Definition lift {A} (r : result A) : outcome A :=
  match r with
  | Ok a => Return a
  | Raise e => Abort (Error e)
  end.

(** [next(grid_loader)]: the batch and the rest of the iterator. *)
Definition next {B} (grid_loader : list B) : outcome (B * list B) :=
  match grid_loader with
  | [] => Abort StopIteration
  | b :: rest => Return (b, rest)
  end.

(** *** [export_grid] *)
Section Grid.
(** [L]: a chunk of [grid_z]; [B]: a batch of the loader; [I]: an image.
    [fake_of] stands for encoder, generator, renderer, interpolation and
    colour conversion: the images rendered for a batch and a chunk. *)
Context {L B I : Type}.
Variable fake_of : B → L → list I.
Variables num_vis_images batch_size : Z.

(** The loop of [export_grid] from iteration [iter_idx] on. [vis] is
    [vis_generated_images]; [fid] lists the files
    [{iter_idx}_{batch_idx}.jpg] written to [output_dir_fid], none when
    [output_dir_fid] is [None]. *)
Fixpoint grid_loop (output_dir_fid : bool) (iter_idx : nat) (chunks : list L)
  (grid_loader : list B) (vis : list (list I)) (fid : list (nat * nat))
  : outcome (list (list I) * list (nat * nat)) :=
  match chunks with
  | [] => mret (vis, fid)
  | z :: chunks' =>
      nb ← next grid_loader;
      let fake := fake_of (fst nb) z in
      let fid' := if output_dir_fid
                  then fid ++ map (pair iter_idx) (seq 0 (length fake))
                  else fid in
      q ← lift (floordiv num_vis_images batch_size);
      let vis' := if Z.of_nat iter_idx <? q then vis ++ [fake] else vis in
      grid_loop output_dir_fid (S iter_idx) chunks' (snd nb) vis' fid'
  end.

(** [torch.cat(vis_generated_images, dim=0)]; every entry was resized to
    the same image size, so only the empty list is refused. *)
Definition cat_images (vis : list (list I)) : result (list I) :=
  match vis with
  | [] => Raise RuntimeError_cat_empty
  | _ => Ok (concat vis)
  end.

(** [export_grid]: the images of the saved grid and the files written
    for the FID. [chunks] is [self.grid_z.split(self.config.batch_size)]
    and [grid_loader] the iterator over the batches of the training set. *)
Definition export_grid (output_dir_fid : bool) (chunks : list L) (grid_loader : list B)
  : outcome (list I * list (nat * nat)) :=
  r ← grid_loop output_dir_fid 0 chunks grid_loader [] [];
  images ← lift (cat_images (fst r));
  mret (images, snd r).

(** The files [{iter_idx}_{batch_idx}.jpg] of a list of rendered chunks,
    the first of which has index [iter_idx]. *)
Fixpoint fid_files (iter_idx : nat) (fakes : list (list I)) : list (nat * nat) :=
  match fakes with
  | [] => []
  | fake :: rest => map (pair iter_idx) (seq 0 (length fake)) ++ fid_files (S iter_idx) rest
  end.

End Grid.

(** *** [export_mesh] *)
Section Mesh.
(** [C]: the colour of a face; [N]: the name of a shape. [colors_of]
    stands for encoder, generator, clamp and colour conversion: one row
    per face of the batch. [names_of] is [eval_batch['name']]. *)
Context {L B C N : Type}.
Variable colors_of : B → L → list C.
Variable names_of : B → list N.
Variables num_vis_meshes batch_size num_faces : Z.

(** The calls [self.train_set.export_mesh(name[bidx], colors[nf * bidx: nf * (bidx + 1)], ...)]
    for the indices [bidxs], in order. *)
Fixpoint mesh_rows (generated_colors : list C) (names : list N) (bidxs : list nat)
  : result (list (N * list C)) :=
  match bidxs with
  | [] => mret []
  | bidx :: rest =>
      name ← Patch.lookup_or_raise names bidx;
      let faces := py_slice generated_colors (num_faces * Z.of_nat bidx)
                            (num_faces * (Z.of_nat bidx + 1)) in
      out ← mesh_rows generated_colors names rest;
      mret ((name, faces) :: out)
  end.

(** [for bidx in range(generated_colors.shape[0] // self.config.num_faces[0])] *)
Definition batch_meshes (generated_colors : list C) (names : list N)
  : result (list (N * list C)) :=
  q ← floordiv (Z.of_nat (length generated_colors)) num_faces;
  mesh_rows generated_colors names (seq 0 (Z.to_nat q)).

Fixpoint mesh_loop (iter_idx : nat) (chunks : list L) (grid_loader : list B)
  : outcome (list (N * list C)) :=
  match chunks with
  | [] => mret []
  | z :: chunks' =>
      q ← lift (floordiv num_vis_meshes batch_size);
      if Z.of_nat iter_idx <? q then
        nb ← next grid_loader;
        out ← lift (batch_meshes (colors_of (fst nb) z) (names_of (fst nb)));
        rest ← mesh_loop (S iter_idx) chunks' (snd nb);
        mret (out ++ rest)
      else mesh_loop (S iter_idx) chunks' grid_loader
  end.

(** [export_mesh]: the meshes written, as pairs of a name and the
    colours of its faces. *)
Definition export_mesh (chunks : list L) (grid_loader : list B)
  : outcome (list (N * list C)) :=
  mesh_loop 0 chunks grid_loader.

End Mesh.

(** *** The loop over [val_dataloader()] *)
Section Samples.
Context {L B : Type}.

(** The patch, light and sdfgrid trainers read
    [latents[iter_idx % len(latents)]]. The loop yields, per batch, its
    index, the batch and the latent chunk it is rendered with. *)
Fixpoint samples_loop_patch (latents : list L) (iter_idx : nat) (batches : list B)
  : result (list (nat * B * L)) :=
  match batches with
  | [] => mret []
  | batch :: rest =>
      r ← py_mod (Z.of_nat iter_idx) (Z.of_nat (length latents));
      z ← Patch.lookup_or_raise latents (Z.to_nat r);
      out ← samples_loop_patch latents (S iter_idx) rest;
      mret ((iter_idx, batch, z) :: out)
  end.

(** The base trainer reads [latents[iter_idx]]. *)
Fixpoint samples_loop_base (latents : list L) (iter_idx : nat) (batches : list B)
  : result (list (nat * B * L)) :=
  match batches with
  | [] => mret []
  | batch :: rest =>
      z ← Patch.lookup_or_raise latents iter_idx;
      out ← samples_loop_base latents (S iter_idx) rest;
      mret ((iter_idx, batch, z) :: out)
  end.

Definition export_samples_patch (latents : list L) (batches : list B) :=
  samples_loop_patch latents 0 batches.

Definition export_samples_base (latents : list L) (batches : list B) :=
  samples_loop_base latents 0 batches.

End Samples.

End Validation.

(** ** trainer/__init__.py: the name of the experiment *)
Module Experiment.

(** [generate_experiment_name(name, config)]. [environ] is the value of
    [os.environ['experiment']] when the variable is set; the function
    returns the name and the variable as it leaves it.
    [resume_dir path] is [Path(path).parents[1].name], which raises for
    a path with fewer than two parents; [now] is
    [datetime.datetime.now().strftime('%d%m%H%M')].
    [not os.environ.get('experiment')] holds for an unset and for an
    empty variable. *)
Definition generate_experiment_name (resume_dir : string → result string)
  (now name : string) (resume : option string) (config_experiment : string)
  (environ : option string) : result (string * option string) :=
  let generated := now +:+ "_" +:+ name +:+ "_" +:+ config_experiment in
  match resume with
  | Some path =>
      experiment ← resume_dir path;
      mret (experiment, Some experiment)
  | None =>
      match environ with
      | Some experiment =>
          if bool_decide (experiment = "")
          then mret (generated, Some generated)
          else mret (experiment, environ)
      | None => mret (generated, Some generated)
      end
  end.

End Experiment.

(** ** Reading the trace of an iteration *)

(** The sub-steps entered, in order. *)
Definition entered (tr : list event) : list substep :=
  omap (fun e => match e with Enter s => Some s | _ => None end) tr.

Definition ran (s : substep) (st : tstate) : Prop := s ∈ entered (st_trace st).

(** An iteration starts from some gradients and an empty trace. *)
Definition fresh (g0 : grads) : tstate := mk_tstate g0 [].

(** Every optimizer step of the trace comes right after a [nan_to_num]
    loop over one of the optimizer's modules, and reads, for that module,
    the sanitized form of the gradients the loop found. [prev] is the
    event before the trace. *)
Fixpoint steps_sanitized (prev : option event) (tr : list event) : Prop :=
  match tr with
  | [] => True
  | e :: tr' =>
      match e with
      | OptStep o seen =>
          match prev with
          | Some (Sanitize m before) =>
              (m, map (option_map nan_to_num) before) ∈ seen
          | _ => False
          end
      | _ => True
      end ∧ steps_sanitized (Some e) tr'
  end.

(** No entry of the gradient is NaN or infinite. *)
Definition clean (g : grad) : Prop :=
  Forall (fun x => is_nan x = false ∧ is_inf x = false) g.

Definition is_opt_step (e : event) : bool :=
  match e with OptStep _ _ => true | _ => false end.

(** The events of sub-step [s]: those after [Enter s] up to the next
    [Enter]. [inside] tells whether the trace starts within [s]. *)
Fixpoint events_of (s : substep) (inside : bool) (tr : list event) : list event :=
  match tr with
  | [] => []
  | Enter s' :: tr' => events_of s (bool_decide (s' = s)) tr'
  | e :: tr' => (if inside then [e] else []) ++ events_of s inside tr'
  end.

(** ** Reading a run and the optimizer discipline *)

(** Whether the cadence [(global_step + 1) % n == 0] holds at a step, and
    the same behind the warm-up test; a zero interval counts as not
    holding (the trainer fails there). *)
Definition cadence_holds (n gs : Z) : bool :=
  match every gs n with
  | Ok b => b
  | Raise _ => false
  end.

Definition cadence_holds_after (w n gs : Z) : bool :=
  match after_and_every gs w n with
  | Ok b => b
  | Raise _ => false
  end.

(** The values [global_step] takes over the first [n] iterations. *)
Definition steps_upto (n : nat) : list Z := map Z.of_nat (seq 0 n).

(** How often a cadence holds over the first [n] iterations. *)
Definition firings (holds : Z → bool) (n : nat) : nat :=
  length (List.filter holds (steps_upto n)).

(** Every optimizer step of the trace is taken on the optimizer whose
    gradients were set to [None] earlier in the same sub-step, after at
    least one backward pass of that sub-step. [zeroed] and [backed] are
    what the trace before has established. *)
Fixpoint steps_prepared (zeroed : option optimizer) (backed : bool) (tr : list event)
  : Prop :=
  match tr with
  | [] => True
  | Enter _ :: tr' => steps_prepared None false tr'
  | ZeroGrad o :: tr' => steps_prepared (Some o) false tr'
  | Backward :: tr' => steps_prepared zeroed true tr'
  | OptStep o _ :: tr' =>
      zeroed = Some o ∧ backed = true ∧ steps_prepared zeroed backed tr'
  | _ :: tr' => steps_prepared zeroed backed tr'
  end.

(** The gradients an optimizer step of the trace reads for module [m]. *)
Definition reads (tr : list event) (o : optimizer) (m : module_id)
  (gl : list (option grad)) : Prop :=
  ∃ seen, OptStep o seen ∈ tr ∧ (m, gl) ∈ seen.

(** ** Concrete inputs *)

(** Every module has one parameter, without a gradient yet. *)
Definition g_one : grads := fun _ => [None].

(** An iteration in which every backward pass leaves a NaN (and, for the
    generator step, an infinite encoder gradient) and both penalties are
    NaN. *)
Definition ev_nan : env :=
  {| bw_g_step := fun gs => set_grads G [Some [S754_nan; S754_infinity false]]
                              (set_grads E [Some [S754_infinity true; S754_nan]] gs);
     plp := S754_nan;
     bw_g_regularizer := set_grads G [Some [S754_nan]];
     bw_d_fake := set_grads D [Some [S754_nan]];
     bw_d_real := set_grads D [Some [S754_nan]];
     bw_patch_d_fake := set_grads patch_D [Some [S754_nan]];
     bw_patch_d_real := set_grads patch_D [Some [S754_nan]];
     gp := S754_nan;
     bw_d_regularizer := set_grads D [Some [S754_nan]];
     patch_gp := S754_nan;
     bw_patch_d_regularizer := set_grads patch_D [Some [S754_nan]] |}.

(** Path-length penalty every 4 steps from the start, gradient penalty
    every 16 steps, augmentation update every 4 steps. *)
Definition config_4 : config :=
  {| lazy_path_penalty_after := 0;
     lazy_path_penalty_interval := 4;
     lazy_gradient_penalty_interval := 16;
     ada_interval := 4 |}.

(** Two generator parameters, one trainable, and a shadow value for the
    trainable one. *)
Definition live_ex : gmap nat (Ema.param Z) :=
  {[ 0%nat := Ema.mk_param 10 true; 1%nat := Ema.mk_param 20 false ]}.

Definition ema_ex : Ema.ema Z := Ema.mk_ema {[ 0%nat := 7 ]} ∅.

(** The export with the shadow weights fails; nothing else does. *)
Definition raises_ema (op : eval_op) : bool := bool_decide (op = ExportEma).

Definition raises_none (op : eval_op) : bool := false.

(** A sign accumulator that keeps every sign it was given and estimates
    by their sum (not even a fraction: an extreme statistic), and a
    controller in adaptive mode with a large speed constant. *)
Definition accumulate_ex (a : list Z) (signs : list Z) : list Z := signs ++ a.

Definition estimate_ex (a : list Z) : Q := inject_Z (foldr Z.add 0 a).

Definition pipe_ex : Ada.augment_pipe (list Z) :=
  Ada.mk_pipe (1 # 2) (6 # 10) 4 false (1000 # 1) [].

(** A 12 x 12 mask that is positive on the rows and columns 1 to 10, an
    image with three channels whose entries encode their own position,
    and a mask without any positive entry. *)
Definition gtz (x : Z) : bool := 0 <? x.

Definition mask_ex : Patch.tensor2 Z :=
  Patch.mk_t2 12 12
    (fun y x => if ((1 <=? y) && (y <=? 10) && (1 <=? x) && (x <=? 10))%nat then 1 else 0).

Definition img_ex : Patch.tensor3 Z :=
  Patch.mk_t3 3 12 12 (fun c y x => Z.of_nat (c * 1000 + y * 12 + x)).

Definition mask_zero : Patch.tensor2 Z := Patch.mk_t2 12 12 (fun _ _ => 0).

(** A patch extraction that returns: one image, two patches of size 4
    around two of the four valid centers of [mask_ex]. *)
Definition call_ex : TrainPatch.patch_call Z :=
  TrainPatch.mk_patch_call [img_ex] [mask_ex] [5; 7]%nat.

(** A patch extraction on a mask without positive entries. *)
Definition call_zero : TrainPatch.patch_call Z :=
  TrainPatch.mk_patch_call [img_ex] [mask_zero] [5; 7]%nat.

(** An iteration whose patch extractions all return, and one whose
    render in [g_step] has an empty mask. *)
Definition patches_ex : TrainPatch.patches Z :=
  TrainPatch.mk_patches 2 1%positive 4 call_ex call_ex call_ex call_ex.

Definition patches_fail : TrainPatch.patches Z :=
  TrainPatch.mk_patches 2 1%positive 4 call_zero call_ex call_ex call_ex.

(** * Properties *)

Lemma every_ok (gs n : Z) :
  n ≠ 0 → every gs n = Ok ((gs + 1) mod n =? 0).
Proof.
  intros Hn. unfold every, py_mod.
  destruct (Z.eqb_spec n 0) as [->|_]; [done|reflexivity].
Qed.

Lemma after_and_every_ok (gs w n : Z) :
  n ≠ 0 → after_and_every gs w n = Ok ((gs >? w) && ((gs + 1) mod n =? 0)).
Proof.
  intros Hn. unfold after_and_every, py_mod.
  destruct (gs >? w); [|reflexivity].
  destruct (Z.eqb_spec n 0) as [->|_]; [done|reflexivity].
Qed.

Lemma fires_iff (gs w n : Z) :
  (gs >? w) && ((gs + 1) mod n =? 0) = true ↔ gs > w ∧ (gs + 1) mod n = 0.
Proof. rewrite andb_true_iff, Z.gtb_gt, Z.eqb_eq. tauto. Qed.

Lemma every_fourth (gs : Z) :
  gs > 0 ∧ (gs + 1) mod 4 = 0 ↔ ∃ k, 0 ≤ k ∧ gs = 4 * k + 3.
Proof.
  split.
  - intros [Hpos Hmod]. exists ((gs + 1) / 4 - 1).
    pose proof (Z.div_mod (gs + 1) 4 ltac:(lia)) as Hdm. lia.
  - intros (k & Hk & ->). split; [lia|].
    replace (4 * k + 3 + 1) with ((k + 1) * 4) by lia.
    apply Z.mod_mul. lia.
Qed.

Ltac run_training_step :=
  repeat match goal with
         | |- context [after_and_every ?g ?w ?n] =>
             rewrite (after_and_every_ok g w n) by assumption
         | |- context [every ?g ?n] => rewrite (every_ok g n) by assumption
         end;
  cbn [mbind mret result_bind result_ret].

(** The trace of each primitive. *)
Lemma trace_emit (e : event) (st : tstate) :
  st_trace (emit e st) = st_trace st ++ [e].
Proof. reflexivity. Qed.

Lemma trace_log (st : tstate) : st_trace (log st) = st_trace st ++ [LogScalar].
Proof. reflexivity. Qed.

Lemma trace_zero_grad (o : optimizer) (st : tstate) :
  st_trace (zero_grad o st) = st_trace st ++ [ZeroGrad o].
Proof. reflexivity. Qed.

Lemma trace_backward (bw : grads → grads) (st : tstate) :
  st_trace (backward bw st) = st_trace st ++ [Backward].
Proof. reflexivity. Qed.

Lemma trace_opt_step (o : optimizer) (st : tstate) :
  st_trace (opt_step o st)
  = st_trace st ++ [OptStep o (map (fun m => (m, st_grads st m)) o)].
Proof. reflexivity. Qed.

Lemma grads_sanitize (m m' : module_id) (st : tstate) :
  st_grads (sanitize m st) m'
  = if decide (m' = m) then map (option_map nan_to_num) (st_grads st m)
    else st_grads st m'.
Proof. reflexivity. Qed.

Lemma trace_step (o : optimizer) (m : module_id) (st : tstate) :
  st_trace (step o m st)
  = st_trace st ++
    [Sanitize m (st_grads st m);
     OptStep o (map (fun m' => (m', if decide (m' = m)
                                    then map (option_map nan_to_num) (st_grads st m)
                                    else st_grads st m')) o)].
Proof. unfold step. rewrite trace_opt_step. cbn. by rewrite <- app_assoc. Qed.

Ltac unfold_substeps :=
  unfold TrainPatch.g_regularizer, TrainPatch.d_step, TrainPatch.d_regularizer,
    TrainStylegan.g_step, TrainStylegan.g_regularizer, TrainStylegan.d_step,
    TrainStylegan.d_regularizer,
    TrainLight.g_step, TrainLight.g_regularizer, TrainLight.d_step,
    TrainLight.d_regularizer,
    TrainSdfGrid.g_step, TrainSdfGrid.g_regularizer, TrainSdfGrid.d_step,
    TrainSdfGrid.d_regularizer, when;
  cbv zeta.

Ltac split_ifs :=
  repeat match goal with
         | |- context [if ?b then _ else _] =>
             lazymatch b with
             | decide _ => fail
             | _ => destruct b eqn:?
             end
         end.

Ltac trace_norm :=
  rewrite ?trace_emit, ?trace_log, ?trace_zero_grad, ?trace_backward,
    ?trace_step, ?trace_opt_step;
  cbn [app fresh st_trace].

Ltac decide_ran :=
  unfold ran; unfold_substeps; split_ifs; trace_norm;
  cbn [entered omap]; rewrite ?list_elem_of_In; cbn; intuition congruence.

(** The runs of the patch trainer's iteration: unfold the sub-steps that
    may raise and split on what each patch extraction yields. *)
Ltac run_patch_step :=
  unfold TrainPatch.patches_extracted, TrainPatch.extracts,
    TrainPatch.training_step, TrainPatch.g_step, TrainPatch.patch_d_step,
    TrainPatch.patch_d_regularizer, TrainPatch.execute_ada_heuristics;
  run_training_step;
  repeat match goal with
         | |- context [TrainPatch.extract_patches ?g ?pe ?call ?n] =>
             destruct (TrainPatch.extract_patches g pe call n)
         end;
  cbv beta iota zeta delta [andthen evaluate returned is_ok
                              mret mbind result_ret result_bind].

(** Every path of an iteration of the patch trainer. *)
Ltac patch_paths := run_patch_step; split_ifs; cbn [fst snd].

(** ** The cadence of the scheduled actions *)

(** C1. In the patch trainer and in the base trainer, for every non-zero
    interval and every warm-up threshold, the generator regularization
    runs on iteration [global_step] exactly when
    [global_step > lazy_path_penalty_after] and
    [(global_step + 1) mod lazy_path_penalty_interval = 0], the critic
    regularization(s) exactly when
    [(global_step + 1) mod lazy_gradient_penalty_interval = 0] and the
    augmentation update exactly when
    [(global_step + 1) mod ada_interval = 0]. With interval 4 and warm-up
    0 the generator regularization runs exactly on the steps 3, 7, 11,
    ... (the steps [4 * k + 3]). An iteration of the patch trainer
    returns exactly when the patch extractions it comes to return; one
    that raises there ends at that point, and whatever it ran before was
    due. *)
Theorem cadence_fires_exactly {R : Type} (gt0 : R → bool)
  (c : config) (ev : env) (pe : TrainPatch.patches R) (gs : Z) (g0 : grads) :
  lazy_path_penalty_interval c ≠ 0 →
  lazy_gradient_penalty_interval c ≠ 0 →
  ada_interval c ≠ 0 →
  (∀ st res, TrainPatch.training_step gt0 c ev pe gs (fresh g0) = (st, res) →
     (res = Ok tt ↔ TrainPatch.patches_extracted gt0 c pe gs)
     ∧ (res = Ok tt →
        (ran s_g_regularizer st ↔
           gs > lazy_path_penalty_after c ∧ (gs + 1) mod lazy_path_penalty_interval c = 0)
        ∧ (ran s_d_regularizer st ↔ (gs + 1) mod lazy_gradient_penalty_interval c = 0)
        ∧ (ran s_patch_d_regularizer st ↔
             (gs + 1) mod lazy_gradient_penalty_interval c = 0)
        ∧ (ran s_heuristic_update st ↔ (gs + 1) mod ada_interval c = 0)
        ∧ (lazy_path_penalty_interval c = 4 → lazy_path_penalty_after c = 0 →
           (ran s_g_regularizer st ↔ ∃ k, 0 ≤ k ∧ gs = 4 * k + 3)))
     ∧ (ran s_g_regularizer st →
        gs > lazy_path_penalty_after c ∧ (gs + 1) mod lazy_path_penalty_interval c = 0)
     ∧ (ran s_d_regularizer st → (gs + 1) mod lazy_gradient_penalty_interval c = 0)
     ∧ (ran s_patch_d_regularizer st → (gs + 1) mod lazy_gradient_penalty_interval c = 0)
     ∧ (ran s_heuristic_update st → (gs + 1) mod ada_interval c = 0))
  ∧
  (∃ st, TrainStylegan.training_step c ev gs (fresh g0) = Ok st ∧
     (ran s_g_regularizer st ↔
        gs > lazy_path_penalty_after c ∧ (gs + 1) mod lazy_path_penalty_interval c = 0) ∧
     (ran s_d_regularizer st ↔ (gs + 1) mod lazy_gradient_penalty_interval c = 0) ∧
     (ran s_heuristic_update st ↔ (gs + 1) mod ada_interval c = 0) ∧
     (lazy_path_penalty_interval c = 4 → lazy_path_penalty_after c = 0 →
      (ran s_g_regularizer st ↔ ∃ k, 0 ≤ k ∧ gs = 4 * k + 3))).
Proof.
  intros Hp Hg Ha. split.
  - intros st res Hrun.
    assert (Hiff : res = Ok tt ↔ TrainPatch.patches_extracted gt0 c pe gs).
    { revert Hrun. run_patch_step.
      all: rewrite <- (Z.eqb_eq ((gs + 1) mod lazy_gradient_penalty_interval c)).
      all: split_ifs; intros [= <- <-]; intuition congruence. }
    assert (Hreg : ran s_g_regularizer st →
              gs > lazy_path_penalty_after c
              ∧ (gs + 1) mod lazy_path_penalty_interval c = 0).
    { rewrite <- fires_iff. revert Hrun. run_patch_step.
      all: split_ifs; intros [= <- <-]; decide_ran. }
    assert (Hd : ran s_d_regularizer st →
              (gs + 1) mod lazy_gradient_penalty_interval c = 0).
    { rewrite <- Z.eqb_eq. revert Hrun. run_patch_step.
      all: split_ifs; intros [= <- <-]; decide_ran. }
    assert (Hpd : ran s_patch_d_regularizer st →
              (gs + 1) mod lazy_gradient_penalty_interval c = 0).
    { rewrite <- Z.eqb_eq. revert Hrun. run_patch_step.
      all: split_ifs; intros [= <- <-]; decide_ran. }
    assert (Hada : ran s_heuristic_update st → (gs + 1) mod ada_interval c = 0).
    { rewrite <- Z.eqb_eq. revert Hrun. run_patch_step.
      all: split_ifs; intros [= <- <-]; decide_ran. }
    refine (conj Hiff (conj _ (conj Hreg (conj Hd (conj Hpd Hada))))).
    intros ->.
    assert (Hreg' : gs > lazy_path_penalty_after c
                    ∧ (gs + 1) mod lazy_path_penalty_interval c = 0
                    → ran s_g_regularizer st).
    { rewrite <- fires_iff. revert Hrun. run_patch_step.
      all: split_ifs; intros [= <-]; decide_ran. }
    refine (conj (conj Hreg Hreg') (conj _ (conj _ (conj _ _)))).
    1-3: split; [assumption|]; rewrite <- Z.eqb_eq; revert Hrun; run_patch_step;
      split_ifs; intros [= <-]; decide_ran.
    intros H4 H0. rewrite <- every_fourth. rewrite H4, H0 in Hreg, Hreg'.
    split; assumption.
  - unfold TrainStylegan.training_step, TrainStylegan.execute_ada_heuristics.
    run_training_step. eexists; split; [reflexivity|].
    match goal with |- (ran _ ?st ↔ _) ∧ _ =>
      assert (Hreg : ran s_g_regularizer st ↔
                gs > lazy_path_penalty_after c
                ∧ (gs + 1) mod lazy_path_penalty_interval c = 0)
        by (rewrite <- fires_iff; decide_ran)
    end.
    refine (conj Hreg (conj _ (conj _ _))).
    1-2: rewrite <- Z.eqb_eq; decide_ran.
    intros H4 H0. rewrite <- every_fourth, Hreg, H4, H0. reflexivity.
Qed.

Lemma cadence_fires_exactly_witness :
  ∃ st, TrainPatch.training_step gtz config_4 ev_nan patches_ex 3 (fresh g_one) = (st, Ok tt)
        ∧ ran s_g_regularizer st.
Proof.
  destruct (TrainPatch.training_step gtz config_4 ev_nan patches_ex 3 (fresh g_one))
    as [st res] eqn:Hrun.
  destruct (cadence_fires_exactly gtz config_4 ev_nan patches_ex 3 g_one)
    as [Hpatch _]; [discriminate ..|].
  destruct (Hpatch st res Hrun) as (Hret & Hran & _).
  assert (Hres : res = Ok tt).
  { apply Hret. repeat split; reflexivity. }
  subst res. exists st. split; [reflexivity|].
  destruct (Hran eq_refl) as (Hreg & _). apply Hreg. split; reflexivity.
Defined.

(** An iteration whose render in [g_step] has an empty mask: at step 3
    the generator regularization and the augmentation update are due,
    but the patch extraction raises and the iteration ends in [g_step],
    after [zero_grad]. *)
Lemma patch_iteration_raises_in_extraction :
  TrainPatch.training_step gtz config_4 ev_nan patches_fail 3 (fresh g_one)
  = (zero_grad TrainPatch.g_opt (emit (Enter s_g_step) (fresh g_one)),
     Raise RuntimeError_min_empty)
  ∧ cadence_holds_after (lazy_path_penalty_after config_4)
      (lazy_path_penalty_interval config_4) 3 = true.
Proof. split; reflexivity. Qed.

(** ** Gradient sanitization *)

Lemma nan_to_num1_clean (x : fval) :
  is_nan (nan_to_num1 x) = false ∧ is_inf (nan_to_num1 x) = false.
Proof. destruct x as [s|s| |s m e]; try destruct s; split; reflexivity. Qed.

Lemma nan_to_num_clean (g : grad) : clean (nan_to_num g).
Proof.
  unfold clean, nan_to_num. apply Forall_forall. intros y Hy.
  apply list_elem_of_In, in_map_iff in Hy. destruct Hy as (x & <- & _).
  apply nan_to_num1_clean.
Qed.

Lemma steps_sanitized_snoc (prev : option event) (tr : list event) (e : event) :
  is_opt_step e = false →
  steps_sanitized prev tr → steps_sanitized prev (tr ++ [e]).
Proof.
  intros He. revert prev. induction tr as [|e' tr IH]; intros prev H; cbn in *.
  - destruct e; try discriminate; auto.
  - destruct H as [H1 H2]. split; [exact H1|]. apply IH, H2.
Qed.

Lemma steps_sanitized_snoc2 (prev : option event) (tr : list event)
  (m : module_id) (before : list (option grad)) (o : optimizer)
  (seen : list (module_id * list (option grad))) :
  (m, map (option_map nan_to_num) before) ∈ seen →
  steps_sanitized prev tr →
  steps_sanitized prev (tr ++ [Sanitize m before; OptStep o seen]).
Proof.
  intros Hin. revert prev. induction tr as [|e' tr IH]; intros prev H; cbn in *.
  - auto.
  - destruct H as [H1 H2]. split; [exact H1|]. apply IH, H2.
Qed.

Lemma ss_emit (e : event) (st : tstate) :
  is_opt_step e = false →
  steps_sanitized None (st_trace st) → steps_sanitized None (st_trace (emit e st)).
Proof. intros He H. rewrite trace_emit. by apply steps_sanitized_snoc. Qed.

Lemma ss_log (st : tstate) :
  steps_sanitized None (st_trace st) → steps_sanitized None (st_trace (log st)).
Proof. by apply ss_emit. Qed.

Lemma ss_zero_grad (o : optimizer) (st : tstate) :
  steps_sanitized None (st_trace st) → steps_sanitized None (st_trace (zero_grad o st)).
Proof. intros H. rewrite trace_zero_grad. by apply steps_sanitized_snoc. Qed.

Lemma ss_backward (bw : grads → grads) (st : tstate) :
  steps_sanitized None (st_trace st) → steps_sanitized None (st_trace (backward bw st)).
Proof. intros H. rewrite trace_backward. by apply steps_sanitized_snoc. Qed.

Lemma ss_step (o : optimizer) (m : module_id) (st : tstate) :
  m ∈ o →
  steps_sanitized None (st_trace st) → steps_sanitized None (st_trace (step o m st)).
Proof.
  intros Hm H. rewrite trace_step. apply steps_sanitized_snoc2; [|exact H].
  apply list_elem_of_In, in_map_iff. exists m. split; [|by apply list_elem_of_In].
  by rewrite decide_True.
Qed.

Lemma ss_when (b : bool) (f : tstate → tstate) (st : tstate) :
  (∀ st', steps_sanitized None (st_trace st') → steps_sanitized None (st_trace (f st'))) →
  steps_sanitized None (st_trace st) → steps_sanitized None (st_trace (when b f st)).
Proof. intros Hf H. destruct b; cbn; auto. Qed.

Ltac head_of t :=
  lazymatch t with
  | ?f _ => head_of f
  | _ => t
  end.

(** Peel the outermost operation of the state whose trace is checked. *)
Ltac check_steps :=
  repeat (cbv zeta;
          lazymatch goal with
          | H : steps_sanitized None (st_trace ?st)
            |- steps_sanitized None (st_trace ?st) => exact H
          | |- steps_sanitized None (st_trace (fresh _)) => exact I
          | |- steps_sanitized None (st_trace (when _ _ _)) =>
              apply ss_when; [intros ? ?|]
          | |- steps_sanitized None (st_trace (if ?b then _ else _)) => destruct b
          | |- steps_sanitized None (st_trace (log _)) => apply ss_log
          | |- steps_sanitized None (st_trace (zero_grad _ _)) => apply ss_zero_grad
          | |- steps_sanitized None (st_trace (backward _ _)) => apply ss_backward
          | |- steps_sanitized None (st_trace (step _ _ _)) =>
              apply ss_step; [unfold TrainLight.g_opt; apply list_elem_of_here|]
          | |- steps_sanitized None (st_trace (emit _ _)) =>
              apply ss_emit; [reflexivity|]
          | |- steps_sanitized None (st_trace ?x) =>
              let h := head_of x in unfold h
          end).

(** C2 (as the code has it). [nan_to_num] turns NaN into 0, +Inf into
    1e5, -Inf into -1e5 and leaves every other entry unchanged. In the
    patch, light and sdfgrid trainers every optimizer step of a training
    iteration is issued by the helper [step]: it comes right after the
    [nan_to_num] loop over the module passed to the helper and reads the
    sanitized gradients of that module; in the patch trainer this holds
    of the iterations that raise in a patch extraction as well. (The
    base trainer calls the optimizer's step directly.) *)
Theorem sanitization_before_helper_steps {R : Type} (gt0 : R → bool)
  (c : config) (ev : env) (pe : TrainPatch.patches R) (gs : Z) (g0 : grads)
  (lights shininess : bool) :
  lazy_path_penalty_interval c ≠ 0 →
  lazy_gradient_penalty_interval c ≠ 0 →
  ada_interval c ≠ 0 →
  (nan_to_num1 S754_nan = f_zero
   ∧ nan_to_num1 (S754_infinity false) = f_1e5
   ∧ nan_to_num1 (S754_infinity true) = f_neg_1e5
   ∧ (∀ x, is_nan x = false → is_inf x = false → nan_to_num1 x = x)
   ∧ (∀ g, length (nan_to_num g) = length g ∧ clean (nan_to_num g)))
  ∧ (steps_sanitized None
       (st_trace (fst (TrainPatch.training_step gt0 c ev pe gs (fresh g0))))
     ∧ (TrainPatch.patches_extracted gt0 c pe gs →
        snd (TrainPatch.training_step gt0 c ev pe gs (fresh g0)) = Ok tt))
  ∧ (∃ st, TrainLight.training_step lights shininess c ev gs (fresh g0) = Ok st
           ∧ steps_sanitized None (st_trace st))
  ∧ (∃ st, TrainSdfGrid.training_step c ev gs (fresh g0) = Ok st
           ∧ steps_sanitized None (st_trace st)).
Proof.
  intros Hp Hg Ha. split; [|split; [|split]].
  - repeat split; try reflexivity.
    + intros [s|s| |s m e] Hn Hi; try discriminate; reflexivity.
    + unfold nan_to_num. apply length_map.
    + apply nan_to_num_clean.
  - split.
    + patch_paths; check_steps.
    + unfold TrainPatch.patches_extracted.
      rewrite <- (Z.eqb_eq ((gs + 1) mod lazy_gradient_penalty_interval c)).
      patch_paths; intuition congruence.
  - unfold TrainLight.training_step, TrainLight.execute_ada_heuristics.
    run_training_step. eexists; split; [reflexivity|]. check_steps.
  - unfold TrainSdfGrid.training_step, TrainSdfGrid.execute_ada_heuristics.
    run_training_step. eexists; split; [reflexivity|]. check_steps.
Qed.

Lemma sanitization_before_helper_steps_witness :
  steps_sanitized None
    (st_trace (fst (TrainPatch.training_step gtz config_4 ev_nan patches_ex 3 (fresh g_one))))
  ∧ snd (TrainPatch.training_step gtz config_4 ev_nan patches_ex 3 (fresh g_one)) = Ok tt.
Proof.
  destruct (sanitization_before_helper_steps gtz config_4 ev_nan patches_ex 3 g_one
              false false)
    as (_ & (Hsan & Hret) & _); [discriminate ..|].
  split; [exact Hsan|]. apply Hret. repeat split; reflexivity.
Defined.

(** The base trainer's generator step on a NaN gradient: the optimizer
    step is not preceded by sanitization and reads the NaN. *)
Lemma base_trainer_step_unsanitized :
  ¬ steps_sanitized None (st_trace (TrainStylegan.g_step ev_nan (fresh g_one)))
  ∧ OptStep TrainStylegan.g_opt [(G, [Some [S754_nan; S754_infinity false]])]
      ∈ st_trace (TrainStylegan.g_step ev_nan (fresh g_one)).
Proof.
  split.
  - cbn. tauto.
  - cbn. do 3 apply list_elem_of_further. apply list_elem_of_here.
Qed.

(** C9. The helper [step(opt, module)] sanitizes the gradients of the
    module passed to it and of no other module, while the optimizer step
    it issues reads the gradients of every module the optimizer holds.
    The generator optimizer of the patch trainer holds the encoder's
    parameters, so when [step(g_opt, self.G)] is called with a NaN or
    infinite entry in an encoder gradient, the optimizer step reads that
    gradient unchanged. *)
Theorem step_leaves_encoder_gradients
  (st : tstate) (i : nat) (g : grad) (x : fval) :
  st_grads st E !! i = Some (Some g) →
  x ∈ g →
  is_nan x = true ∨ is_inf x = true →
  E ∈ TrainPatch.g_opt
  ∧ st_trace (step TrainPatch.g_opt G st)
    = st_trace st ++
      [Sanitize G (st_grads st G);
       OptStep TrainPatch.g_opt
         [(G, map (option_map nan_to_num) (st_grads st G)); (E, st_grads st E)]]
  ∧ st_grads (step TrainPatch.g_opt G st) E !! i = Some (Some g)
  ∧ ¬ clean g
  ∧ (∀ j h, st_grads (step TrainPatch.g_opt G st) G !! j = Some (Some h) → clean h)
  ∧ (∀ (R : Type) (gt0 : R → bool) ev (pe : TrainPatch.patches R) st0,
       (TrainPatch.extracts gt0 pe (TrainPatch.g_fake pe) (TrainPatch.num_patch_per_view pe) →
        snd (TrainPatch.g_step gt0 ev pe st0) = Ok tt
        ∧ st_trace (fst (TrainPatch.g_step gt0 ev pe st0))
          = st_trace (backward (bw_g_step ev)
                        (zero_grad TrainPatch.g_opt (emit (Enter s_g_step) st0)))
            ++ [Sanitize G (bw_g_step ev (st_grads (zero_grad TrainPatch.g_opt st0)) G);
                OptStep TrainPatch.g_opt
                  [(G, map (option_map nan_to_num)
                           (bw_g_step ev (st_grads (zero_grad TrainPatch.g_opt st0)) G));
                   (E, bw_g_step ev (st_grads (zero_grad TrainPatch.g_opt st0)) E)];
                LogScalar; LogScalar])
       ∧ (¬ TrainPatch.extracts gt0 pe (TrainPatch.g_fake pe)
              (TrainPatch.num_patch_per_view pe) →
          snd (TrainPatch.g_step gt0 ev pe st0) ≠ Ok tt
          ∧ fst (TrainPatch.g_step gt0 ev pe st0)
            = zero_grad TrainPatch.g_opt (emit (Enter s_g_step) st0))).
Proof.
  intros Hi Hx Hbad. split; [|split; [|split; [|split; [|split]]]].
  - unfold TrainPatch.g_opt. apply list_elem_of_further, list_elem_of_here.
  - rewrite trace_step. reflexivity.
  - exact Hi.
  - intros Hclean. unfold clean in Hclean. rewrite Forall_forall in Hclean.
    destruct (Hclean x Hx) as [Hn Hf]. destruct Hbad; congruence.
  - intros j h Hj. cbn in Hj.
    apply list_lookup_fmap_Some in Hj. destruct Hj as (og & Hog & _).
    destruct og as [h0|]; [|discriminate]. cbn in Hog. injection Hog as ->.
    apply nan_to_num_clean.
  - intros R gt0 ev pe st0. unfold TrainPatch.extracts, TrainPatch.g_step.
    cbv zeta. unfold evaluate, returned.
    destruct (TrainPatch.extract_patches gt0 pe _ _) as [p|e]; cbn [is_ok fst snd].
    + split; [intros _|intros []; reflexivity].
      split; [reflexivity|].
      rewrite !trace_log, trace_step. rewrite <- !app_assoc. reflexivity.
    + split; [discriminate|intros _]. split; [discriminate|reflexivity].
Qed.

Lemma step_leaves_encoder_gradients_witness :
  OptStep TrainPatch.g_opt
    [(G, [Some [f_zero; f_1e5]]); (E, [Some [S754_infinity true; S754_nan]])]
  ∈ st_trace (fst (TrainPatch.g_step gtz ev_nan patches_ex (fresh g_one))).
Proof.
  pose proof (step_leaves_encoder_gradients
                (backward (bw_g_step ev_nan)
                   (zero_grad TrainPatch.g_opt (emit (Enter s_g_step) (fresh g_one))))
                0%nat [S754_infinity true; S754_nan] S754_nan
                eq_refl
                (list_elem_of_further _ _ _ (list_elem_of_here _ _))
                (or_introl eq_refl)) as (_ & _ & _ & _ & _ & Hstep).
  destruct (Hstep Z gtz ev_nan patches_ex (fresh g_one)) as [Hret _].
  destruct (Hret eq_refl) as [_ Htrace]. rewrite Htrace. cbn.
  do 4 apply list_elem_of_further. apply list_elem_of_here.
Defined.

(** ** NaN in a regularization loss *)

(** The critic regularizer of the patch trainer on a NaN penalty: the
    backward pass and the optimizer step run all the same. *)
Lemma critic_regularizer_not_skipped :
  is_nan (gp ev_nan) = true
  ∧ st_trace (TrainPatch.d_regularizer ev_nan (fresh g_one))
    = [Enter s_d_regularizer; ZeroGrad [D]; Backward;
       Sanitize D [Some [S754_nan]]; OptStep [D] [(D, [Some [f_zero]])];
       LogPenalty S754_nan].
Proof. split; reflexivity. Qed.

(** C4 (as the code has it). When the path-length penalty is NaN the
    generator regularization sub-step is aborted after zeroing the
    gradients: no backward pass, no optimizer step; the iteration is not
    failed by it and goes on with the EMA update and the critic steps.
    The critic regularizers do not look at their penalty: whatever its
    value, NaN included, they run the backward pass and the sanitizing
    optimizer step (the one of the patch critic once its patch
    extraction has returned). Whether an iteration of the patch trainer
    returns or raises does not depend on any penalty or loss: it returns
    whenever its patch extractions do. *)
Theorem nan_penalty_skips_generator_regularizer {R : Type} (gt0 : R → bool)
  (c : config) (ev : env) (pe : TrainPatch.patches R) (gs : Z) (g0 : grads)
  (lights shininess : bool) :
  is_nan (plp ev) = true →
  lazy_path_penalty_interval c ≠ 0 →
  lazy_gradient_penalty_interval c ≠ 0 →
  ada_interval c ≠ 0 →
  (∀ st, TrainPatch.g_regularizer ev st
         = zero_grad TrainPatch.g_opt (emit (Enter s_g_regularizer) st))
  ∧ (∀ st, TrainStylegan.g_regularizer ev st
           = zero_grad TrainStylegan.g_opt (emit (Enter s_g_regularizer) st))
  ∧ (∀ st, TrainLight.g_regularizer lights shininess ev st
           = zero_grad (TrainLight.g_opt lights shininess)
                       (emit (Enter s_g_regularizer) st))
  ∧ (∀ st, TrainSdfGrid.g_regularizer ev st
           = zero_grad TrainSdfGrid.g_opt (emit (Enter s_g_regularizer) st))
  ∧ (∀ st, st = fst (TrainPatch.training_step gt0 c ev pe gs (fresh g0)) →
       (ran s_g_regularizer st →
        events_of s_g_regularizer false (st_trace st) = [ZeroGrad TrainPatch.g_opt])
       ∧ (TrainPatch.extracts gt0 pe (TrainPatch.g_fake pe)
            (TrainPatch.num_patch_per_view pe) →
          ran s_ema_update st ∧ ran s_d_step st ∧ ran s_patch_d_step st))
  ∧ (TrainPatch.patches_extracted gt0 c pe gs →
     snd (TrainPatch.training_step gt0 c ev pe gs (fresh g0)) = Ok tt)
  ∧ (∀ ev', snd (TrainPatch.training_step gt0 c ev' pe gs (fresh g0))
            = snd (TrainPatch.training_step gt0 c ev pe gs (fresh g0)))
  ∧ (∀ st, ∃ before seen,
       st_trace (TrainPatch.d_regularizer ev st)
       = st_trace st ++ [Enter s_d_regularizer; ZeroGrad TrainPatch.d_opt; Backward;
                         Sanitize D before; OptStep TrainPatch.d_opt seen;
                         LogPenalty (gp ev)])
  ∧ (∀ st,
       TrainPatch.extracts gt0 pe (TrainPatch.reg_real pe)
         (TrainPatch.num_patch_per_view pe * Pos.to_nat (TrainPatch.views_per_sample pe)) →
       snd (TrainPatch.patch_d_regularizer gt0 ev pe st) = Ok tt
       ∧ ∃ before seen,
           st_trace (fst (TrainPatch.patch_d_regularizer gt0 ev pe st))
           = st_trace st ++ [Enter s_patch_d_regularizer;
                             ZeroGrad TrainPatch.patch_d_opt;
                             Backward; Sanitize patch_D before;
                             OptStep TrainPatch.patch_d_opt seen;
                             LogPenalty (patch_gp ev)]).
Proof.
  intros Hnan Hp Hg Ha.
  refine (conj _ (conj _ (conj _ (conj _ (conj _ (conj _ (conj _ (conj _ _)))))))).
  - intros st. unfold TrainPatch.g_regularizer. by rewrite Hnan.
  - intros st. unfold TrainStylegan.g_regularizer. by rewrite Hnan.
  - intros st. unfold TrainLight.g_regularizer. by rewrite Hnan.
  - intros st. unfold TrainSdfGrid.g_regularizer. by rewrite Hnan.
  - intros st ->. split.
    + patch_paths.
      all: unfold ran; unfold_substeps; rewrite ?Hnan; cbn [negb];
        split_ifs; cbn; intros Hran; try reflexivity;
        apply list_elem_of_In in Hran; cbn in Hran; intuition congruence.
    + patch_paths; try discriminate; intros _;
        (refine (conj _ (conj _ _)); decide_ran).
  - unfold TrainPatch.patches_extracted.
    rewrite <- (Z.eqb_eq ((gs + 1) mod lazy_gradient_penalty_interval c)).
    patch_paths; intuition congruence.
  - intros ev'. patch_paths; reflexivity.
  - intros st. unfold TrainPatch.d_regularizer. cbv zeta.
    rewrite trace_emit, trace_step, trace_backward, trace_zero_grad, trace_emit.
    do 2 eexists. rewrite <- !app_assoc. reflexivity.
  - intros st. unfold TrainPatch.extracts, TrainPatch.patch_d_regularizer.
    cbv zeta. unfold evaluate, returned.
    destruct (TrainPatch.extract_patches gt0 pe _ _) as [p|e]; cbn [is_ok fst snd];
      [intros _|discriminate].
    split; [reflexivity|].
    rewrite trace_emit, trace_step, trace_backward, trace_zero_grad, trace_emit.
    do 2 eexists. rewrite <- !app_assoc. reflexivity.
Qed.

Lemma nan_penalty_skips_generator_regularizer_witness :
  ∃ st, TrainPatch.training_step gtz config_4 ev_nan patches_ex 3 (fresh g_one) = (st, Ok tt)
        ∧ events_of s_g_regularizer false (st_trace st) = [ZeroGrad TrainPatch.g_opt].
Proof.
  destruct (nan_penalty_skips_generator_regularizer gtz config_4 ev_nan patches_ex 3 g_one
              false false)
    as (_ & _ & _ & _ & Hrun & Hret & _);
    [reflexivity | discriminate ..|].
  exists (fst (TrainPatch.training_step gtz config_4 ev_nan patches_ex 3 (fresh g_one))).
  split.
  - rewrite <- Hret by (repeat split; reflexivity). apply surjective_pairing.
  - apply (Hrun _ eq_refl). apply list_elem_of_In. vm_compute. tauto.
Defined.

(** ** The shadow parameter tracker *)

Section EmaFacts.
Context {tensor : Type}.
Implicit Types (live : gmap nat (Ema.param tensor)) (ema : Ema.ema tensor).
Implicit Types (targets ps : list nat) (k : nat).

Lemma overwrite_cons (src : gmap nat tensor) (k0 : nat) targets live :
  Ema.overwrite src (k0 :: targets) live
  = match src !! k0 with
    | Some v => alter (Ema.set_data v) k0 (Ema.overwrite src targets live)
    | None => Ema.overwrite src targets live
    end.
Proof. reflexivity. Qed.

(** Overwriting changes the data of the targets the source knows and
    nothing else. *)
Lemma lookup_overwrite (src : gmap nat tensor) targets live k :
  Ema.overwrite src targets live !! k
  = match live !! k with
    | Some p =>
        if decide (k ∈ targets) then
          match src !! k with
          | Some v => Some (Ema.set_data v p)
          | None => Some p
          end
        else Some p
    | None => None
    end.
Proof.
  induction targets as [|k0 targets IH].
  - cbn. destruct (live !! k); [|done]. by rewrite decide_False by apply not_elem_of_nil.
  - rewrite overwrite_cons.
    assert (Hhere : k0 = k → k ∈ k0 :: targets)
      by (intros ->; apply list_elem_of_here).
    assert (Hcons : k0 ≠ k → (k ∈ k0 :: targets ↔ k ∈ targets))
      by (intros Hne; rewrite elem_of_cons; naive_solver).
    destruct (src !! k0) as [v|] eqn:Hsrc.
    + rewrite lookup_alter. destruct (decide (k0 = k)) as [Heq|Hne].
      * specialize (Hhere Heq). subst k0. rewrite IH, Hsrc.
        destruct (live !! k) as [p|]; [|reflexivity].
        destruct (decide (k ∈ k :: targets)); [|tauto].
        destruct (decide (k ∈ targets)); reflexivity.
      * rewrite IH. destruct (live !! k) as [p|]; [|reflexivity].
        destruct (decide (k ∈ targets)), (decide (k ∈ k0 :: targets));
          try reflexivity; exfalso; naive_solver.
    + rewrite IH. destruct (live !! k) as [p|]; [|reflexivity].
      destruct (decide (k0 = k)) as [Heq|Hne].
      * specialize (Hhere Heq). subst k0. rewrite Hsrc.
        destruct (decide (k ∈ k :: targets)); [|tauto].
        destruct (decide (k ∈ targets)); reflexivity.
      * destruct (decide (k ∈ targets)), (decide (k ∈ k0 :: targets));
          try reflexivity; exfalso; naive_solver.
Qed.

Lemma lookup_collected ps live ema k :
  Ema.collected_params (Ema.store ps live ema) !! k
  = if decide (k ∈ ps) then Ema.p_data <$> live !! k else None.
Proof.
  unfold Ema.store. cbn. induction ps as [|k0 ps IH]; cbn.
  - by rewrite lookup_empty, decide_False by apply not_elem_of_nil.
  - destruct (decide (k0 = k)) as [->|Hne].
    + rewrite (decide_True (P := k ∈ k :: ps)) by apply list_elem_of_here.
      destruct (live !! k) as [p|] eqn:Hk; cbn.
      * by rewrite lookup_insert_eq.
      * rewrite IH. by destruct (decide (k ∈ ps)).
    + assert (Hiff : k ∈ k0 :: ps ↔ k ∈ ps) by (rewrite elem_of_cons; naive_solver).
      destruct (live !! k0) as [p0|]; [rewrite lookup_insert_ne by done|];
        rewrite IH; destruct (decide (k ∈ ps)), (decide (k ∈ k0 :: ps)); tauto || done.
Qed.

Lemma elem_of_parameters live k : k ∈ Ema.parameters live ↔ is_Some (live !! k).
Proof.
  unfold Ema.parameters. rewrite list_elem_of_fmap. split.
  - intros ([k' p] & -> & Hin). apply elem_of_map_to_list in Hin. by exists p.
  - intros [p Hp]. exists (k, p). split; [done|]. by apply elem_of_map_to_list.
Qed.

(** Saving all parameters and then overwriting any targets from the
    saved values gives back the saved parameters, whatever was written to
    the targets in between. *)
Lemma restore_after_overwrite (src : gmap nat tensor) targets live ema :
  Ema.restore targets (Ema.store (Ema.parameters live) live ema)
              (Ema.overwrite src targets live)
  = live.
Proof.
  apply map_eq. intros k. unfold Ema.restore.
  rewrite lookup_overwrite, lookup_overwrite, lookup_collected.
  destruct (live !! k) as [p|] eqn:Hk; [|done].
  rewrite (decide_True (P := k ∈ Ema.parameters live))
    by (apply elem_of_parameters; eauto).
  rewrite ?Hk. cbn.
  destruct (decide (k ∈ targets)); [|reflexivity].
  destruct (src !! k) as [v|]; destruct p; reflexivity.
Qed.

Lemma elem_of_trainable live k :
  k ∈ Ema.trainable live ↔ ∃ p, live !! k = Some p ∧ Ema.requires_grad p = true.
Proof.
  unfold Ema.trainable. rewrite list_elem_of_fmap. split.
  - intros ([k' p] & -> & Hin). apply list_elem_of_filter in Hin as [Hrg Hin].
    apply elem_of_map_to_list in Hin. by exists p.
  - intros (p & Hp & Hrg). exists (k, p). split; [done|].
    apply list_elem_of_filter. split; [done|]. by apply elem_of_map_to_list.
Qed.

(** Overwriting with respect to two target lists with the same elements. *)
Lemma overwrite_ext (src : gmap nat tensor) targets targets' live :
  (∀ k, k ∈ targets ↔ k ∈ targets') →
  Ema.overwrite src targets live = Ema.overwrite src targets' live.
Proof.
  intros Hiff. apply map_eq. intros k. rewrite !lookup_overwrite.
  destruct (live !! k); [|done].
  destruct (decide (k ∈ targets)), (decide (k ∈ targets')); naive_solver.
Qed.

Lemma trainable_overwrite (src : gmap nat tensor) targets live k :
  k ∈ Ema.trainable (Ema.overwrite src targets live) ↔ k ∈ Ema.trainable live.
Proof.
  rewrite !elem_of_trainable. setoid_rewrite lookup_overwrite.
  destruct (live !! k) as [p|]; [|naive_solver].
  destruct (decide (k ∈ targets)); [|done].
  destruct (src !! k) as [v|]; [|done].
  split; intros (q & Hq & Hrg); simplify_eq; eauto.
Qed.

End EmaFacts.

Section EmaSequence.
Context {tensor : Type}.

(** The three calls in a row, as the trainers issue them. *)
Lemma store_copy_restore_live (st : Ema.vstate tensor) :
  Ema.live (fst (Ema.vseq Ema.ema_store (Ema.vseq Ema.ema_copy_to Ema.ema_restore) st))
  = Ema.live st.
Proof.
  destruct st as [live0 e0]. cbn.
  unfold Ema.restore, Ema.copy_to.
  rewrite (overwrite_ext _ _ (Ema.trainable live0)) by apply trainable_overwrite.
  apply (restore_after_overwrite (Ema.shadow_params e0) (Ema.trainable live0) live0 e0).
Qed.

(** C5. With the shadow tracker as the spec describes it, the sequence
    [store(); copy_to(x); restore(x)] leaves every live parameter equal
    to its value before [store()], for any parameter tensors, any shadow
    values and any targets [x]; in particular for the calls of
    [validation_epoch_end], where [x] is the list of the trainable
    parameters. *)
Theorem store_copy_to_restore_roundtrip
  (live0 : gmap nat (Ema.param tensor)) (e0 : Ema.ema tensor) (x : list nat) :
  (let e1 := Ema.store (Ema.parameters live0) live0 e0 in
   Ema.restore x e1 (Ema.copy_to x e1 live0) = live0)
  ∧ Ema.live (fst (Ema.vseq Ema.ema_store (Ema.vseq Ema.ema_copy_to Ema.ema_restore)
                     (Ema.mk_vstate live0 e0)))
    = live0.
Proof.
  split.
  - cbv zeta. apply (restore_after_overwrite (Ema.shadow_params e0) x live0 e0).
  - apply (store_copy_restore_live (Ema.mk_vstate live0 e0)).
Qed.

(** C6 (as the code has it). [restore] is an ordinary statement after the
    evaluation code. Take a run of [validation_epoch_end] that reaches
    [store] (the calls before it do not raise). When none of the calls
    between [copy_to] and [restore] raises, the live parameters are left
    as they were before [store], in the patch trainer and in the base
    trainer, whatever [Timer.__exit__] returns. When one of those calls
    raises, then (with a [Timer] that does not swallow exceptions, for
    the patch trainer; with any [Timer], for the base trainer) the
    exception leaves [validation_epoch_end], [restore] is not run and the
    live parameters are the ones [copy_to] wrote. *)
Theorem restore_only_after_normal_evaluation
  (raises : eval_op → bool) (timer_exit : bool) (st : Ema.vstate tensor) :
  raises CreateDirectories = false →
  raises ExportRaw = false →
  let e1 := Ema.store (Ema.parameters (Ema.live st)) (Ema.live st) (Ema.the_ema st) in
  let swapped := Ema.copy_to (Ema.trainable (Ema.live st)) e1 (Ema.live st) in
  (raises ExportEma = false → raises ExportMesh = false → raises ExportSamples = false →
   Ema.live (fst (Ema.validation_epoch_end_patch timer_exit raises st)) = Ema.live st)
  ∧ (raises ExportEma = false →
     Ema.live (fst (Ema.validation_epoch_end_base timer_exit raises st)) = Ema.live st)
  ∧ (raises ExportEma = true ∨ raises ExportMesh = true ∨ raises ExportSamples = true →
     ∃ op, Ema.validation_epoch_end_patch false raises st
           = (Ema.mk_vstate swapped e1, Raise (EvalError op)))
  ∧ (raises ExportEma = true →
     Ema.live (fst (Ema.validation_epoch_end_base timer_exit raises st)) = swapped).
Proof.
  intros Hc Hr. cbv zeta. pose proof (store_copy_restore_live st) as Hround.
  destruct st as [live0 e0]. cbn in Hround.
  unfold Ema.validation_epoch_end_patch, Ema.validation_epoch_end_base,
    Ema.Timer, Ema.with_ctx, Ema.vseq, Ema.vbind, Ema.eval.
  rewrite Hc, Hr.
  refine (conj _ (conj _ (conj _ _))).
  - intros He Hm Hs. rewrite He, Hm, Hs.
    destruct (raises ComputeMetrics), timer_exit; exact Hround.
  - intros He. rewrite He.
    destruct (raises ExportSamples), (raises ComputeMetrics), timer_exit; exact Hround.
  - intros Hbad.
    destruct (raises ExportEma) eqn:He; [by eexists|].
    destruct (raises ExportMesh) eqn:Hm; [by eexists|].
    destruct (raises ExportSamples) eqn:Hs; [by eexists|].
    exfalso. destruct Hbad as [?|[?|?]]; discriminate.
  - intros He. rewrite He.
    destruct (raises ExportSamples), (raises ComputeMetrics), timer_exit; reflexivity.
Qed.

End EmaSequence.

Lemma restore_only_after_normal_evaluation_witness :
  Ema.live (fst (Ema.validation_epoch_end_patch false raises_none
                   (Ema.mk_vstate live_ex ema_ex))) = live_ex
  ∧ ∃ op, Ema.validation_epoch_end_patch false raises_ema (Ema.mk_vstate live_ex ema_ex)
          = (Ema.mk_vstate
               (Ema.copy_to (Ema.trainable live_ex)
                  (Ema.store (Ema.parameters live_ex) live_ex ema_ex) live_ex)
               (Ema.store (Ema.parameters live_ex) live_ex ema_ex),
             Raise (EvalError op)).
Proof.
  split.
  - apply (restore_only_after_normal_evaluation raises_none false
             (Ema.mk_vstate live_ex ema_ex) eq_refl eq_refl); reflexivity.
  - apply (restore_only_after_normal_evaluation raises_ema false
             (Ema.mk_vstate live_ex ema_ex) eq_refl eq_refl).
    left. reflexivity.
Defined.

(** The base trainer when the export with the shadow weights raises: the
    live parameter 0 keeps the shadow value 7, whatever [Timer.__exit__]
    returns; it was 10 before [store]. *)
Lemma validation_epoch_end_not_exception_safe :
  live_ex !! 0%nat = Some (Ema.mk_param 10 true)
  ∧ (∀ timer_exit,
       Ema.live (fst (Ema.validation_epoch_end_base timer_exit raises_ema
                        (Ema.mk_vstate live_ex ema_ex))) !! 0%nat
       = Some (Ema.mk_param 7 true))
  ∧ (∀ timer_exit,
       Ema.live (fst (Ema.validation_epoch_end_base timer_exit raises_ema
                        (Ema.mk_vstate live_ex ema_ex))) ≠ live_ex)
  ∧ Ema.live (fst (Ema.validation_epoch_end_patch false raises_ema
                     (Ema.mk_vstate live_ex ema_ex))) ≠ live_ex.
Proof.
  assert (Hbase : ∀ timer_exit,
            Ema.live (fst (Ema.validation_epoch_end_base timer_exit raises_ema
                             (Ema.mk_vstate live_ex ema_ex))) !! 0%nat
            = Some (Ema.mk_param 7 true))
    by (intros []; vm_compute; reflexivity).
  refine (conj _ (conj Hbase (conj _ _))).
  - vm_compute. reflexivity.
  - intros timer_exit Heq. specialize (Hbase timer_exit). rewrite Heq in Hbase.
    vm_compute in Hbase. discriminate.
  - intros Heq. apply (f_equal (fun m => m !! 0%nat)) in Heq.
    vm_compute in Heq. discriminate.
Qed.

(** ** The augmentation controller *)

Section AdaFacts.
Context {acc : Type} (accumulate : acc → list Z → acc) (estimate : acc → Q).

Lemma clamp01_bounds (x : Q) : (0 <= Ada.clamp01 x)%Q ∧ (Ada.clamp01 x <= 1)%Q.
Proof.
  unfold Ada.clamp01.
  destruct (Qle_bool x 0) eqn:H0; [split; discriminate|].
  destruct (Qle_bool 1 x) eqn:H1; [split; discriminate|].
  split.
  - apply Qlt_le_weak, Qnot_le_lt. intros Hle.
    apply Qle_bool_iff in Hle. congruence.
  - apply Qlt_le_weak, Qnot_le_lt. intros Hle.
    apply Qle_bool_iff in Hle. congruence.
Qed.

Lemma heuristic_update_bounds (a : Ada.augment_pipe acc) :
  (0 <= Ada.p a)%Q ∧ (Ada.p a <= 1)%Q ∨ Ada.ada_fixed a = false →
  (0 <= Ada.p (Ada.heuristic_update estimate a))%Q
  ∧ (Ada.p (Ada.heuristic_update estimate a) <= 1)%Q.
Proof.
  intros H. unfold Ada.heuristic_update.
  destruct (Ada.ada_fixed a) eqn:Hfixed.
  - destruct H as [H|H]; [exact H|discriminate].
  - cbn. apply clamp01_bounds.
Qed.

Lemma iteration_bounds (c : config) (signs : list Z) (gs : Z) (a : Ada.augment_pipe acc) :
  ada_interval c ≠ 0 →
  (0 <= Ada.p a)%Q ∧ (Ada.p a <= 1)%Q →
  ∃ a', Ada.iteration accumulate estimate c signs gs a = Ok a'
        ∧ (0 <= Ada.p a')%Q ∧ (Ada.p a' <= 1)%Q.
Proof.
  intros Hn Hp. unfold Ada.iteration, Ada.execute_ada_heuristics.
  rewrite every_ok by exact Hn. cbn [mbind mret result_bind result_ret].
  eexists. split; [reflexivity|].
  destruct ((gs + 1) mod ada_interval c =? 0).
  - apply heuristic_update_bounds. left. exact Hp.
  - exact Hp.
Qed.

(** C8. With the controller as the spec describes it: an update in
    adaptive mode leaves the augmentation probability within [0, 1]
    whatever the probability was and whatever the accumulated sign
    statistic is; and in every run that starts with a probability within
    [0, 1], the probability is within [0, 1] after every iteration (the
    run does not fail when the cadence length is not zero). *)
Theorem augmentation_probability_in_unit_interval
  (c : config) (batches : list (list Z)) (gs : Z) (a : Ada.augment_pipe acc) :
  ada_interval c ≠ 0 →
  (0 <= Ada.p a)%Q →
  (Ada.p a <= 1)%Q →
  (∀ b : Ada.augment_pipe acc, Ada.ada_fixed b = false →
     (0 <= Ada.p (Ada.heuristic_update estimate b))%Q
     ∧ (Ada.p (Ada.heuristic_update estimate b) <= 1)%Q)
  ∧ ∃ a', Ada.run accumulate estimate c batches gs a = Ok a'
          ∧ (0 <= Ada.p a')%Q ∧ (Ada.p a' <= 1)%Q.
Proof.
  intros Hn H0 H1. split.
  - intros b Hb. apply heuristic_update_bounds. right. exact Hb.
  - assert (Hp : (0 <= Ada.p a)%Q ∧ (Ada.p a <= 1)%Q) by (split; assumption).
    clear H0 H1. revert gs a Hp.
    induction batches as [|signs rest IH]; intros gs a Hp.
    + exists a. split; [reflexivity|exact Hp].
    + destruct (iteration_bounds c signs gs a Hn Hp) as (a1 & Hit & Hp1).
      destruct (IH (gs + 1) a1 Hp1) as (a' & Hrun & Hp').
      exists a'. split; [|exact Hp'].
      cbn [Ada.run]. rewrite Hit. exact Hrun.
Qed.

End AdaFacts.

Lemma augmentation_probability_in_unit_interval_witness :
  ∃ a', Ada.run accumulate_ex estimate_ex config_4 [[1; 1]; [1]; [-1]; [1]; [1]] 0 pipe_ex
        = Ok a'
        ∧ (0 <= Ada.p a')%Q ∧ (Ada.p a' <= 1)%Q.
Proof.
  apply (augmentation_probability_in_unit_interval accumulate_ex estimate_ex
           config_4 [[1; 1]; [1]; [-1]; [1]; [1]] 0 pipe_ex).
  - discriminate.
  - discriminate.
  - discriminate.
Defined.

(** ** The patch sampler *)

Section PatchFacts.
Context {R : Type} (gt0 : R → bool).
Implicit Types (m : Patch.tensor2 R) (img : Patch.tensor3 R) (s : Z).
Implicit Types (yx : Z * Z) (rnd : list nat).

Lemma tensor_min_spec (l : list Z) (a : Z) :
  Patch.tensor_min l = Ok a → In a l ∧ ∀ x, In x l → a ≤ x.
Proof.
  destruct l as [|b l]; [discriminate|]. cbn. intros [= <-].
  induction l as [|c l IH]; cbn.
  - split; [by left|]. intros x [Hx|[]]. lia.
  - destruct IH as [Hin Hle]. remember (foldr Z.min b l) as M eqn:HM. clear HM.
    split.
    + destruct (Z.min_spec c M) as [[_ Hm]|[_ Hm]]; rewrite Hm.
      * right. by left.
      * destruct Hin as [Hin|Hin]; [by left|]. right. by right.
    + intros x [Hx|[Hx|Hx]].
      * specialize (Hle x (or_introl Hx)). lia.
      * lia.
      * specialize (Hle x (or_intror Hx)). lia.
Qed.

Lemma tensor_max_spec (l : list Z) (a : Z) :
  Patch.tensor_max l = Ok a → In a l ∧ ∀ x, In x l → x ≤ a.
Proof.
  destruct l as [|b l]; [discriminate|]. cbn. intros [= <-].
  induction l as [|c l IH]; cbn.
  - split; [by left|]. intros x [Hx|[]]. lia.
  - destruct IH as [Hin Hle]. remember (foldr Z.max b l) as M eqn:HM. clear HM.
    split.
    + destruct (Z.max_spec c M) as [[_ Hm]|[_ Hm]]; rewrite Hm.
      * destruct Hin as [Hin|Hin]; [by left|]. right. by right.
      * right. by left.
    + intros x [Hx|[Hx|Hx]].
      * specialize (Hle x (or_introl Hx)). lia.
      * lia.
      * specialize (Hle x (or_intror Hx)). lia.
Qed.

(** The coordinates [nonzero] lists are those of the positive entries. *)
Lemma in_nonzero m yx :
  In yx (Patch.nonzero gt0 m) ↔
  ∃ i j, yx = (Z.of_nat i, Z.of_nat j)
         ∧ (i < Patch.t2_h m)%nat ∧ (j < Patch.t2_w m)%nat
         ∧ gt0 (Patch.t2_at m i j) = true.
Proof.
  unfold Patch.nonzero. rewrite in_map_iff. split.
  - intros ([i j] & <- & Hin). apply filter_In in Hin as [Hin Hgt].
    apply in_prod_iff in Hin as [Hi Hj]. apply in_seq in Hi, Hj.
    exists i, j. cbn in *. repeat split; [lia | lia | exact Hgt].
  - intros (i & j & -> & Hi & Hj & Hgt). exists (i, j). split; [reflexivity|].
    apply filter_In. split; [|exact Hgt].
    apply in_prod_iff. split; apply in_seq; lia.
Qed.

(** What [valid_centers] returns: the bounding box exists and the
    centers are the positive entries that pass the four comparisons. *)
Lemma valid_centers_spec m s kept :
  Patch.valid_centers gt0 m s = Ok kept →
  ∃ y_min y_max x_min x_max,
    Patch.is_bbox gt0 m y_min y_max x_min x_max
    ∧ kept = List.filter (Patch.nz_mask s y_min y_max x_min x_max) (Patch.nonzero gt0 m).
Proof.
  unfold Patch.valid_centers.
  destruct (Patch.tensor_min (map fst (Patch.nonzero gt0 m))) as [y_min|] eqn:H1;
    [|discriminate].
  destruct (Patch.tensor_max (map fst (Patch.nonzero gt0 m))) as [y_max|] eqn:H2;
    [|discriminate].
  destruct (Patch.tensor_min (map snd (Patch.nonzero gt0 m))) as [x_min|] eqn:H3;
    [|discriminate].
  destruct (Patch.tensor_max (map snd (Patch.nonzero gt0 m))) as [x_max|] eqn:H4;
    [|discriminate].
  cbn. intros [= <-]. exists y_min, y_max, x_min, x_max. split; [|reflexivity].
  apply tensor_min_spec in H1 as [I1 L1]. apply tensor_max_spec in H2 as [I2 L2].
  apply tensor_min_spec in H3 as [I3 L3]. apply tensor_max_spec in H4 as [I4 L4].
  unfold Patch.is_bbox. repeat split; try assumption.
  - apply L1, in_map, H.
  - apply L2, in_map, H.
  - apply L3, in_map, H.
  - apply L4, in_map, H.
Qed.

(** An empty mask is the one case in which [valid_centers] fails. *)
Lemma valid_centers_raise m s e :
  Patch.valid_centers gt0 m s = Raise e → e = RuntimeError_min_empty.
Proof.
  unfold Patch.valid_centers.
  destruct (Patch.nonzero gt0 m) as [|[y x] nz]; cbn; [congruence|].
  discriminate.
Qed.

(** Drawing without replacement. *)
Lemma draw_length {A} (pop : list A) (k : nat) rnd :
  (k ≤ length pop)%nat → length (Patch.draw pop k rnd) = k.
Proof.
  revert pop rnd. induction k as [|k IH]; intros pop rnd Hk; [reflexivity|].
  cbn [Patch.draw].
  assert (Hj : (hd O rnd mod length pop < length pop)%nat)
    by (apply Nat.mod_upper_bound; lia).
  destruct (lookup_lt_is_Some_2 pop _ Hj) as [a Ha]. rewrite Ha. cbn.
  rewrite IH; [reflexivity|].
  rewrite length_delete by eauto. lia.
Qed.

Lemma draw_elem_of {A} (pop : list A) (k : nat) rnd (a : A) :
  a ∈ Patch.draw pop k rnd → a ∈ pop.
Proof.
  revert pop rnd. induction k as [|k IH]; intros pop rnd; cbn [Patch.draw].
  - intros H. by apply not_elem_of_nil in H.
  - destruct (pop !! (hd O rnd mod length pop)%nat) as [b|] eqn:Hb.
    + rewrite elem_of_cons. intros [->|H].
      * apply list_elem_of_lookup. eauto.
      * eapply list_elem_of_delete_inv, IH, H.
    + intros H. by apply not_elem_of_nil in H.
Qed.

Lemma not_elem_of_delete_NoDup {A} (l : list A) (j : nat) (a : A) :
  NoDup l → l !! j = Some a → a ∉ delete j l.
Proof.
  intros Hnd Hj. rewrite delete_take_drop.
  rewrite <- (take_drop_middle l j a Hj) in Hnd.
  apply NoDup_app in Hnd as (_ & Hdisj & Hnd2).
  apply NoDup_cons in Hnd2 as [Hnotin _].
  rewrite elem_of_app. intros [H|H].
  - apply (Hdisj a H). apply list_elem_of_here.
  - exact (Hnotin H).
Qed.

Lemma draw_NoDup {A} (pop : list A) (k : nat) rnd :
  NoDup pop → NoDup (Patch.draw pop k rnd).
Proof.
  revert pop rnd. induction k as [|k IH]; intros pop rnd Hnd; cbn [Patch.draw].
  - apply NoDup_nil_2.
  - destruct (pop !! (hd O rnd mod length pop)%nat) as [b|] eqn:Hb;
      [|apply NoDup_nil_2].
    apply NoDup_cons. split.
    + intros Hin. apply draw_elem_of in Hin.
      exact (not_elem_of_delete_NoDup pop _ b Hnd Hb Hin).
    + apply IH. eapply sublist_NoDup; [exact Hnd|]. apply sublist_delete.
Qed.

(** [random.sample]: [ValueError] exactly when the sample is larger than
    the population; otherwise as many pairwise distinct elements of the
    population as asked for. *)
Lemma random_sample_spec {A} (pop : list A) (k : nat) rnd :
  ((length pop < k)%nat ∧ Patch.random_sample pop k rnd = Raise ValueError_sample)
  ∨ ((k ≤ length pop)%nat
     ∧ ∃ l rnd', Patch.random_sample pop k rnd = Ok (l, rnd')
                 ∧ length l = k ∧ (∀ a, a ∈ l → a ∈ pop) ∧ (NoDup pop → NoDup l)).
Proof.
  unfold Patch.random_sample.
  destruct (Nat.ltb_spec (length pop) k) as [Hlt|Hle].
  - left. by split.
  - right. split; [exact Hle|]. do 2 eexists. split; [reflexivity|].
    split; [by apply draw_length|]. split.
    + intros a. apply draw_elem_of.
    + apply draw_NoDup.
Qed.

(** Indexing by a list of positions that are all in range. *)
Lemma index_all_spec {A} (l : list A) (idx : list nat) :
  (∀ i, i ∈ idx → (i < length l)%nat) →
  ∃ cs, Patch.index_all l idx = Ok cs
        ∧ Forall2 (fun i c => l !! i = Some c) idx cs.
Proof.
  induction idx as [|i idx IH]; intros Hin.
  - exists []. split; [reflexivity|constructor].
  - destruct IH as (cs & Hcs & HF).
    { intros j Hj. apply Hin. by apply list_elem_of_further. }
    destruct (lookup_lt_is_Some_2 l i) as [c Hc].
    { apply Hin. apply list_elem_of_here. }
    exists (c :: cs). cbn. rewrite Hc, Hcs. split; [reflexivity|].
    by constructor.
Qed.

Lemma slice_bound_in_range (n : nat) (i : Z) :
  0 ≤ i ≤ Z.of_nat n → Patch.slice_bound n i = Z.to_nat i.
Proof.
  intros Hi. unfold Patch.slice_bound.
  destruct (Z.ltb_spec i 0); [lia|]. f_equal. lia.
Qed.

(** The coordinates of the bounding box are coordinates of the mask. *)
Lemma is_bbox_range m (y_min y_max x_min x_max : Z) :
  Patch.is_bbox gt0 m y_min y_max x_min x_max →
  0 ≤ y_min ∧ y_max < Z.of_nat (Patch.t2_h m)
  ∧ 0 ≤ x_min ∧ x_max < Z.of_nat (Patch.t2_w m).
Proof.
  intros (_ & H1 & H2 & H3 & H4).
  apply in_map_iff in H1 as (yx1 & <- & H1). apply in_nonzero in H1.
  apply in_map_iff in H2 as (yx2 & <- & H2). apply in_nonzero in H2.
  apply in_map_iff in H3 as (yx3 & <- & H3). apply in_nonzero in H3.
  apply in_map_iff in H4 as (yx4 & <- & H4). apply in_nonzero in H4.
  destruct H1 as (? & ? & -> & ? & ? & _), H2 as (? & ? & -> & ? & ? & _),
    H3 as (? & ? & -> & ? & ? & _), H4 as (? & ? & -> & ? & ? & _).
  cbn. lia.
Qed.

(** Every center [valid_centers] keeps has its crops inside the bounding
    box. *)
Lemma valid_center_crop_inside img m s kept yx :
  0 ≤ s →
  Patch.valid_centers gt0 m s = Ok kept →
  In yx kept →
  Patch.crop_inside gt0 img m s yx.
Proof.
  intros Hs Hv Hin.
  apply valid_centers_spec in Hv as (y_min & y_max & x_min & x_max & Hbox & ->).
  apply filter_In in Hin as [Hnz Hmask].
  unfold Patch.nz_mask in Hmask.
  apply andb_true_iff in Hmask as [Hy Hx].
  apply andb_true_iff in Hy as [Hy1 Hy2]. apply andb_true_iff in Hx as [Hx1 Hx2].
  apply Z.gtb_gt in Hy1, Hx1. apply Z.ltb_lt in Hy2, Hx2.
  pose proof (is_bbox_range m _ _ _ _ Hbox) as (Hr1 & Hr2 & Hr3 & Hr4).
  assert (Hhalf : 0 ≤ s / 2) by (apply Z.div_pos; lia).
  exists y_min, y_max, x_min, x_max. cbv zeta.
  refine (conj Hbox (conj Hnz (conj _ (conj _ (conj _ (conj _ (conj _ _))))))).
  - lia.
  - lia.
  - lia.
  - lia.
  - unfold Patch.crop_mask, Patch.slice2, Patch.window2.
    rewrite !slice_bound_in_range by lia.
    f_equal; lia.
  - intros Hh Hw.
    unfold Patch.crop_image, Patch.slice3, Patch.window3.
    rewrite Hh, Hw. rewrite !slice_bound_in_range by lia.
    f_equal; lia.
Qed.

(** The three outcomes of sampling the centers of one image. *)
Lemma sample_centers_cases m (ppv : nat) s rnd :
  match Patch.valid_centers gt0 m s with
  | Raise _ => Patch.sample_centers gt0 m ppv s rnd = Raise RuntimeError_min_empty
  | Ok kept =>
      if (length kept <? ppv)%nat
      then Patch.sample_centers gt0 m ppv s rnd = Raise ValueError_sample
      else ∃ cs idxs,
          Patch.sample_centers gt0 m ppv s rnd = Ok (cs, drop ppv rnd)
          ∧ length cs = ppv ∧ NoDup idxs
          ∧ Forall2 (fun i c => kept !! i = Some c) idxs cs
  end.
Proof.
  unfold Patch.sample_centers.
  destruct (Patch.valid_centers gt0 m s) as [kept|e] eqn:Hv.
  - cbn [mbind result_bind].
    destruct (random_sample_spec (seq 0 (length kept)) ppv rnd)
      as [[Hlt Hr]|(Hle & idxs & rnd' & Hr & Hlen & Hsub & Hnd)].
    + rewrite length_seq in Hlt. apply Nat.ltb_lt in Hlt. rewrite Hlt.
      unfold Patch.random_sample in *. by rewrite Hr.
    + rewrite length_seq in Hle.
      destruct (Nat.ltb_spec (length kept) ppv) as [?|_]; [lia|].
      assert (Hrnd : rnd' = drop ppv rnd).
      { unfold Patch.random_sample in Hr.
        destruct (length (seq 0 (length kept)) <? ppv)%nat; [discriminate|].
        by injection Hr as _ <-. }
      subst rnd'. rewrite Hr. cbn [mbind result_bind fst snd].
      destruct (index_all_spec kept idxs) as (cs & Hcs & HF).
      { intros i Hi. apply Hsub in Hi. apply list_elem_of_In, in_seq in Hi. lia. }
      rewrite Hcs. cbn. exists cs, idxs. split; [reflexivity|].
      split; [|split; [apply Hnd, NoDup_seq|exact HF]].
      apply Forall2_length in HF. lia.
  - apply valid_centers_raise in Hv as ->. reflexivity.
Qed.

Lemma sample_centers_raise m (ppv : nat) s rnd e :
  Patch.sample_centers gt0 m ppv s rnd = Raise e →
  e = ValueError_sample ∨ e = RuntimeError_min_empty.
Proof.
  pose proof (sample_centers_cases m ppv s rnd) as H.
  destruct (Patch.valid_centers gt0 m s) as [kept|e'].
  - destruct (length kept <? ppv)%nat.
    + rewrite H. intros [= <-]. by left.
    + destruct H as (cs & idxs & -> & _). discriminate.
  - rewrite H. intros [= <-]. by right.
Qed.

Lemma sample_centers_ok m (ppv : nat) s rnd cs rnd' img :
  0 ≤ s →
  Patch.sample_centers gt0 m ppv s rnd = Ok (cs, rnd') →
  rnd' = drop ppv rnd ∧ Patch.sampled_inside gt0 img m ppv s cs.
Proof.
  intros Hs Hok. pose proof (sample_centers_cases m ppv s rnd) as H.
  destruct (Patch.valid_centers gt0 m s) as [kept|e'] eqn:Hv;
    [|rewrite H in Hok; discriminate].
  destruct (length kept <? ppv)%nat; [rewrite H in Hok; discriminate|].
  destruct H as (cs' & idxs & H & Hlen & Hnd & HF).
  rewrite H in Hok. injection Hok as <- <-. split; [reflexivity|].
  split; [exact Hlen|]. split; [by exists kept, idxs|].
  apply Forall_forall. intros yx Hyx.
  eapply valid_center_crop_inside; [exact Hs|exact Hv|].
  apply list_elem_of_lookup in Hyx as [k Hk].
  destruct (Forall2_lookup_r _ _ _ _ _ HF Hk) as (i & _ & Hi).
  apply list_elem_of_In, list_elem_of_lookup. eauto.
Qed.

Lemma crops_of_cons img m (ims : list (Patch.tensor3 R)) (ms : list (Patch.tensor2 R))
  s (cs : list (Z * Z)) (css : list (list (Z * Z))) :
  Patch.crops_of (img :: ims) (m :: ms) s (cs :: css)
  = map (fun yx => (Patch.crop_image img s yx, Patch.crop_mask m s yx)) cs
    ++ Patch.crops_of ims ms s css.
Proof. reflexivity. Qed.

(** When the loop over the images returns, it returns the crops at
    centers sampled inside the bounding boxes, image after image. *)
Lemma patch_loop_ok (images : list (Patch.tensor3 R)) (idx : nat)
  (mask : list (Patch.tensor2 R)) (ppv : nat) s rnd crops :
  0 ≤ s →
  Patch.patch_loop gt0 images idx mask ppv s rnd = Ok crops →
  ∃ css,
    Forall2 (fun im cs => Patch.sampled_inside gt0 (fst im) (snd im) ppv s cs)
            (zip images (drop idx mask)) css
    ∧ length css = length images
    ∧ crops = Patch.crops_of images (drop idx mask) s css.
Proof.
  intros Hs. revert idx rnd crops.
  induction images as [|img images IH]; intros idx rnd crops Hok.
  - injection Hok as <-. exists []. repeat split. constructor.
  - cbn [Patch.patch_loop] in Hok. unfold Patch.lookup_or_raise in Hok.
    destruct (mask !! idx) as [m|] eqn:Hm; [|discriminate].
    cbn [mbind result_bind] in Hok.
    destruct (Patch.sample_centers gt0 m ppv s rnd) as [[cs rnd']|e] eqn:Hsc;
      [|discriminate].
    cbn [mbind result_bind fst snd] in Hok.
    destruct (Patch.patch_loop gt0 images (S idx) mask ppv s rnd') as [rest|e] eqn:Hrest;
      [|discriminate].
    injection Hok as <-.
    destruct (IH _ _ _ Hrest) as (css & HF & Hlen & ->).
    destruct (sample_centers_ok m ppv s rnd cs rnd' img Hs Hsc) as [_ Hin].
    exists (cs :: css). rewrite (drop_S mask m idx Hm).
    split; [|split].
    + cbn. constructor; [exact Hin|exact HF].
    + cbn. by rewrite Hlen.
    + by rewrite crops_of_cons.
Qed.

(** An image with fewer valid centers than asked for makes the loop
    fail, with the error of [random.sample] or, for a mask without
    positive entries, of [min]. *)
Lemma patch_loop_too_few (images : list (Patch.tensor3 R)) (idx k : nat)
  (mask : list (Patch.tensor2 R)) (ppv : nat) s rnd img m :
  images !! k = Some img →
  mask !! (idx + k)%nat = Some m →
  (Patch.num_valid_centers gt0 m s < ppv)%nat →
  ∃ e, Patch.patch_loop gt0 images idx mask ppv s rnd = Raise e
       ∧ (e = ValueError_sample ∨ e = RuntimeError_min_empty).
Proof.
  revert idx k rnd. induction images as [|img0 images IH]; intros idx k rnd Hi Hm Hfew.
  - discriminate.
  - cbn [Patch.patch_loop]. unfold Patch.lookup_or_raise.
    destruct (mask !! idx) as [m0|] eqn:Hm0.
    2:{ apply lookup_ge_None in Hm0. apply lookup_lt_Some in Hm. lia. }
    cbn [mbind result_bind].
    destruct (Patch.sample_centers gt0 m0 ppv s rnd) as [[cs rnd']|e] eqn:Hsc.
    + cbn [mbind result_bind fst snd].
      destruct k as [|k].
      * exfalso. injection Hi as ->. rewrite Nat.add_0_r, Hm0 in Hm. injection Hm as ->.
        pose proof (sample_centers_cases m ppv s rnd) as H.
        unfold Patch.num_valid_centers in Hfew.
        destruct (Patch.valid_centers gt0 m s) as [kept|e'];
          [|rewrite H in Hsc; discriminate].
        apply Nat.ltb_lt in Hfew. rewrite Hfew in H. rewrite H in Hsc. discriminate.
      * cbn in Hi. replace (idx + S k)%nat with (S idx + k)%nat in Hm by lia.
        destruct (IH (S idx) k rnd' Hi Hm Hfew) as (e & -> & He).
        exists e. by split.
    + exists e. split; [reflexivity|]. eapply sample_centers_raise, Hsc.
Qed.

Lemma torch_cat_ok (ts : list (Patch.tensor R)) (t : Patch.tensor R) :
  Patch.torch_cat ts = Ok t →
  ∃ t0 rest, ts = t0 :: rest
    ∧ Patch.shape t
      = foldr Z.add 0 (map (fun u => hd 0 (Patch.shape u)) ts) :: tail (Patch.shape t0)
    ∧ Patch.data t = flat_map Patch.data ts
    ∧ Forall (fun u => tail (Patch.shape u) = tail (Patch.shape t0)) ts.
Proof.
  unfold Patch.torch_cat. destruct ts as [|t0 rest]; [discriminate|].
  destruct (forallb _ (t0 :: rest)) eqn:Hall; [|discriminate].
  intros [= <-]. exists t0, rest. repeat split.
  apply Forall_forall. intros u Hu.
  rewrite forallb_forall in Hall. apply list_elem_of_In in Hu.
  specialize (Hall u Hu). by apply bool_decide_eq_true in Hall.
Qed.

Lemma reshape_ok (new : list Z) (t t' : Patch.tensor R) :
  Patch.reshape new t = Ok t' →
  Patch.shape t' = new ∧ Patch.data t' = Patch.data t
  ∧ (∀ d, In d new → 0 ≤ d) ∧ Patch.numel new = Patch.numel (Patch.shape t).
Proof.
  unfold Patch.reshape.
  destruct (forallb (fun d => 0 <=? d) new) eqn:Hpos; [|discriminate]. cbn.
  destruct (Z.eqb_spec (Patch.numel new) (Patch.numel (Patch.shape t))) as [Heq|];
    [|discriminate].
  intros [= <-]. repeat split; [|exact Heq].
  intros d Hd. rewrite forallb_forall in Hpos. apply Z.leb_le, Hpos, Hd.
Qed.

Lemma flat_map_map {A B C} (f : A → B) (g : B → list C) (l : list A) :
  flat_map g (map f l) = flat_map (fun a => g (f a)) l.
Proof. induction l as [|a l IH]; cbn; [reflexivity|]. by rewrite IH. Qed.

(** Unfolding a successful run of [extract_patches_from_tensor]. *)
Lemma extract_ok_inv (t_image : list (Patch.tensor3 R)) (mask : list (Patch.tensor2 R))
  (ppv : nat) s rnd (P M : Patch.tensor R) :
  Patch.extract_patches_from_tensor gt0 t_image mask ppv s rnd = Ok (P, M) →
  ∃ crops cp cm,
    Patch.patch_loop gt0 t_image 0 mask ppv s rnd = Ok crops
    ∧ Patch.torch_cat (map (fun c => Patch.patch_unsqueeze (fst c)) crops) = Ok cp
    ∧ Patch.reshape [Z.of_nat (length t_image); Z.of_nat ppv; 3; s; s] cp = Ok P
    ∧ Patch.torch_cat (map (fun c => Patch.msk_unsqueeze (snd c)) crops) = Ok cm
    ∧ Patch.reshape [Z.of_nat (length t_image); Z.of_nat ppv; 1; s; s] cm = Ok M.
Proof.
  unfold Patch.extract_patches_from_tensor. intros H.
  destruct (Patch.patch_loop gt0 t_image 0 mask ppv s rnd) as [crops|] eqn:H1;
    [|discriminate].
  cbn [mbind result_bind] in H.
  destruct (Patch.torch_cat (map (fun c => Patch.patch_unsqueeze (fst c)) crops))
    as [cp|] eqn:H2; [|discriminate].
  cbn [mbind result_bind] in H.
  destruct (Patch.reshape _ cp) as [P'|] eqn:H3; [|discriminate].
  cbn [mbind result_bind] in H.
  destruct (Patch.torch_cat (map (fun c => Patch.msk_unsqueeze (snd c)) crops))
    as [cm|] eqn:H4; [|discriminate].
  cbn [mbind result_bind] in H.
  destruct (Patch.reshape _ cm) as [M'|] eqn:H5; [|discriminate].
  injection H as <- <-. by exists crops, cp, cm.
Qed.

(** C3. Whenever the patch extractor returns, the patches it returns are
    the crops at sampled centers, image after image, and for every image
    the centers are as many as asked for, taken at pairwise distinct
    positions of the list of candidates that are left after discarding
    those at [patch_size / 2 + 1] or less from a side of the bounding box
    of the mask's positive entries; every crop is the window of side
    [2 * (patch_size / 2)] around its center and all its rows and columns
    lie within the bounding box. *)
Theorem patches_inside_bounding_box
  (t_image : list (Patch.tensor3 R)) (mask : list (Patch.tensor2 R))
  (ppv : nat) s rnd (P M : Patch.tensor R) :
  Patch.extract_patches_from_tensor gt0 t_image mask ppv s rnd = Ok (P, M) →
  ∃ css,
    Forall2 (fun im cs => Patch.sampled_inside gt0 (fst im) (snd im) ppv s cs)
            (zip t_image mask) css
    ∧ length css = length t_image
    ∧ Patch.data P = flat_map (fun c => Patch.flat3 (fst c))
                              (Patch.crops_of t_image mask s css)
    ∧ Patch.data M = flat_map (fun c => Patch.flat2 (snd c))
                              (Patch.crops_of t_image mask s css).
Proof.
  intros H. apply extract_ok_inv in H as (crops & cp & cm & H1 & H2 & H3 & H4 & H5).
  apply reshape_ok in H3 as (_ & HdP & Hpos & _).
  apply reshape_ok in H5 as (_ & HdM & _ & _).
  assert (Hs : 0 ≤ s) by (apply Hpos; cbn; tauto).
  apply patch_loop_ok in H1 as (css & HF & Hlen & ->); [|exact Hs].
  rewrite drop_0 in HF. exists css. split; [exact HF|]. split; [exact Hlen|].
  apply torch_cat_ok in H2 as (_ & _ & _ & _ & Hd2 & _).
  apply torch_cat_ok in H4 as (_ & _ & _ & _ & Hd4 & _).
  rewrite HdP, Hd2, HdM, Hd4, !flat_map_map. split; reflexivity.
Qed.

(** [min] fails on the coordinates of a mask without positive entry
    only. *)
Lemma valid_centers_raise_empty m s e :
  Patch.valid_centers gt0 m s = Raise e → Patch.nonzero gt0 m = [].
Proof.
  unfold Patch.valid_centers.
  destruct (Patch.nonzero gt0 m) as [|[y x] nz]; cbn; [reflexivity|discriminate].
Qed.

Lemma patch_loop_min_empty (images : list (Patch.tensor3 R)) (idx : nat)
  (mask : list (Patch.tensor2 R)) (ppv : nat) s rnd :
  Patch.patch_loop gt0 images idx mask ppv s rnd = Raise RuntimeError_min_empty →
  ∃ m, m ∈ mask ∧ Patch.nonzero gt0 m = [].
Proof.
  revert idx rnd. induction images as [|img images IH]; intros idx rnd; [discriminate|].
  cbn [Patch.patch_loop]. unfold Patch.lookup_or_raise.
  destruct (mask !! idx) as [m|] eqn:Hm; [|discriminate].
  cbn [mbind result_bind].
  pose proof (sample_centers_cases m ppv s rnd) as Hc.
  destruct (Patch.valid_centers gt0 m s) as [kept|e] eqn:Hv.
  - destruct (length kept <? ppv)%nat.
    + rewrite Hc. discriminate.
    + destruct Hc as (cs & idxs & -> & _). cbn [mbind result_bind fst snd].
      destruct (Patch.patch_loop gt0 images (S idx) mask ppv s (drop ppv rnd))
        as [rest|e] eqn:Hrest; [discriminate|].
      cbn [mbind result_bind]. intros [= ->]. exact (IH _ _ Hrest).
  - intros _. exists m. split; [by eapply list_elem_of_lookup_2|].
    exact (valid_centers_raise_empty m s e Hv).
Qed.

(** C7 (as the code has it). When an image of the batch has fewer valid
    centers than the requested count, the patch extractor returns
    nothing and raises: there is no check and no error of its own, the
    exception is the [ValueError] of [random.sample], or the
    [RuntimeError] of [min] on an empty tensor when a mask has no
    positive entry, which is raised before any center is counted. When
    every mask of the batch has a positive entry it is the
    [ValueError]. *)
Theorem too_few_centers_is_an_error
  (t_image : list (Patch.tensor3 R)) (mask : list (Patch.tensor2 R))
  (ppv : nat) s rnd (idx : nat) (img : Patch.tensor3 R) (m : Patch.tensor2 R) :
  t_image !! idx = Some img →
  mask !! idx = Some m →
  (Patch.num_valid_centers gt0 m s < ppv)%nat →
  (∃ e, Patch.extract_patches_from_tensor gt0 t_image mask ppv s rnd = Raise e
        ∧ (e = ValueError_sample ∨ e = RuntimeError_min_empty))
  ∧ ((∀ m', m' ∈ mask → Patch.nonzero gt0 m' ≠ []) →
     Patch.extract_patches_from_tensor gt0 t_image mask ppv s rnd
     = Raise ValueError_sample)
  ∧ (Patch.extract_patches_from_tensor gt0 t_image mask ppv s rnd
     = Raise RuntimeError_min_empty →
     ∃ m', m' ∈ mask ∧ Patch.nonzero gt0 m' = []).
Proof.
  intros Hi Hm Hfew.
  destruct (patch_loop_too_few t_image 0 idx mask ppv s rnd img m Hi Hm Hfew)
    as (e & He & Hkind).
  assert (Hraise : Patch.extract_patches_from_tensor gt0 t_image mask ppv s rnd = Raise e)
    by (unfold Patch.extract_patches_from_tensor; by rewrite He).
  assert (Hempty : e = RuntimeError_min_empty →
                   ∃ m', m' ∈ mask ∧ Patch.nonzero gt0 m' = [])
    by (intros ->; exact (patch_loop_min_empty _ _ _ _ _ _ He)).
  refine (conj _ (conj _ _)).
  - exists e. by split.
  - intros Hall. rewrite Hraise. destruct Hkind as [->| ->]; [reflexivity|].
    destruct (Hempty eq_refl) as (m' & Hin & Hnz). destruct (Hall m' Hin Hnz).
  - rewrite Hraise. intros [= ->]. exact (Hempty eq_refl).
Qed.

Lemma crops_of_nil_l (ms : list (Patch.tensor2 R)) s (css : list (list (Z * Z))) :
  Patch.crops_of [] ms s css = [].
Proof. reflexivity. Qed.

(** The shape of the mask crops, from the centers being inside. *)
Lemma crops_of_mask_shapes (ims : list (Patch.tensor3 R)) (ms : list (Patch.tensor2 R))
  (ppv : nat) s (css : list (list (Z * Z))) :
  Forall2 (fun im cs => Patch.sampled_inside gt0 (fst im) (snd im) ppv s cs)
          (zip ims ms) css →
  Forall (fun c => Patch.t2_h (snd c) = Z.to_nat (2 * (s / 2))
                   ∧ Patch.t2_w (snd c) = Z.to_nat (2 * (s / 2)))
         (Patch.crops_of ims ms s css)
  ∧ length (Patch.crops_of ims ms s css) = (length css * ppv)%nat.
Proof.
  revert ms css. induction ims as [|img ims IH]; intros ms css HF.
  - cbn in HF. inversion HF; subst. split; [constructor|reflexivity].
  - destruct ms as [|m ms].
    + cbn in HF. inversion HF; subst. split; [constructor|reflexivity].
    + cbn in HF. inversion HF as [|? cs ? css' Hhd Htl]; subst.
      destruct (IH ms css' Htl) as [IH1 IH2].
      rewrite crops_of_cons. cbn [fst snd] in Hhd.
      destruct Hhd as (Hlen & _ & Hin). split.
      * apply Forall_app. split; [|exact IH1].
        apply Forall_forall. intros c Hc.
        apply list_elem_of_In, in_map_iff in Hc as (yx & <- & Hyx).
        rewrite Forall_forall in Hin. apply list_elem_of_In in Hyx.
        destruct (Hin yx Hyx) as (? & ? & ? & ? & _ & _ & _ & _ & _ & _ & Hcrop & _).
        cbn [snd]. rewrite Hcrop. by split.
      * rewrite length_app, length_map, IH2, Hlen. cbn. lia.
Qed.

(** The shape of the image crops, for images of the masks' size. *)
Lemma crops_of_image_shapes (ims : list (Patch.tensor3 R)) (ms : list (Patch.tensor2 R))
  (ppv : nat) s (css : list (list (Z * Z))) :
  Forall2 (Patch.samplable gt0 ppv s) ims ms →
  Forall2 (fun im cs => Patch.sampled_inside gt0 (fst im) (snd im) ppv s cs)
          (zip ims ms) css →
  Forall (fun c => Patch.t3_c (fst c) = 3%nat
                   ∧ Patch.t3_h (fst c) = Z.to_nat (2 * (s / 2))
                   ∧ Patch.t3_w (fst c) = Z.to_nat (2 * (s / 2)))
         (Patch.crops_of ims ms s css).
Proof.
  intros Hwf. revert css. induction Hwf as [|img m ims ms Hhd Htl IH]; intros css HF.
  - cbn in HF. inversion HF; subst. constructor.
  - cbn in HF. inversion HF as [|? cs ? css' Hcs Hcss]; subst.
    rewrite crops_of_cons. apply Forall_app. split; [|by apply IH].
    cbn [fst snd] in Hcs.
    destruct Hcs as (_ & _ & Hin). destruct Hhd as (Hc & Hh & Hw & _).
    apply Forall_forall. intros c Hcr.
    apply list_elem_of_In, in_map_iff in Hcr as (yx & <- & Hyx).
    rewrite Forall_forall in Hin. apply list_elem_of_In in Hyx.
    destruct (Hin yx Hyx) as (? & ? & ? & ? & _ & _ & _ & _ & _ & _ & _ & Hcrop).
    cbn [fst]. rewrite (Hcrop Hh Hw). cbn. by rewrite Hc.
Qed.

Lemma sum_heads (ts : list (Patch.tensor R)) :
  Forall (fun u => hd 0 (Patch.shape u) = 1) ts →
  foldr Z.add 0 (map (fun u => hd 0 (Patch.shape u)) ts) = Z.of_nat (length ts).
Proof.
  induction 1 as [|u ts Hu _ IH]; [reflexivity|].
  cbn [map foldr length]. rewrite Hu, IH. lia.
Qed.

(** [torch.cat] of a non-empty list of tensors of one shape, each with a
    first dimension of 1. *)
Lemma torch_cat_same (ts : list (Patch.tensor R)) (sh : list Z) :
  ts ≠ [] →
  Forall (fun u => Patch.shape u = 1 :: sh) ts →
  Patch.torch_cat ts
  = Ok (Patch.mk_tensor (Z.of_nat (length ts) :: sh) (flat_map Patch.data ts)).
Proof.
  intros Hne Hall. unfold Patch.torch_cat. destruct ts as [|t0 rest]; [done|].
  assert (H0 : Patch.shape t0 = 1 :: sh) by (by inversion Hall).
  assert (Hb : forallb (fun u => bool_decide (tail (Patch.shape u) = tail (Patch.shape t0)))
                 (t0 :: rest) = true).
  { apply forallb_forall. intros u Hu. apply bool_decide_eq_true.
    rewrite Forall_forall in Hall. apply list_elem_of_In in Hu.
    by rewrite (Hall u Hu), H0. }
  rewrite Hb. rewrite sum_heads.
  - by rewrite H0.
  - eapply Forall_impl; [exact Hall|]. intros u Hu. by rewrite Hu.
Qed.

(** With at least one patch asked for and enough valid centers in every
    mask, the loop over the images returns. *)
Lemma patch_loop_total (images : list (Patch.tensor3 R)) (idx : nat)
  (mask : list (Patch.tensor2 R)) (ppv : nat) s rnd :
  (1 ≤ ppv)%nat →
  Forall2 (Patch.samplable gt0 ppv s) images (drop idx mask) →
  ∃ crops, Patch.patch_loop gt0 images idx mask ppv s rnd = Ok crops.
Proof.
  intros Hppv. revert idx rnd.
  induction images as [|img images IH]; intros idx rnd HF.
  - by exists [].
  - inversion HF as [|? m ? ms Hhd Htl Himg Hdrop]; subst.
    assert (Hm : mask !! idx = Some m).
    { rewrite <- (Nat.add_0_r idx), <- lookup_drop, <- Hdrop. reflexivity. }
    rewrite (drop_S mask m idx Hm) in Hdrop. injection Hdrop as ->.
    cbn [Patch.patch_loop]. unfold Patch.lookup_or_raise. rewrite Hm.
    cbn [mbind result_bind].
    pose proof (sample_centers_cases m ppv s rnd) as Hc.
    destruct Hhd as (_ & _ & _ & Hnum). unfold Patch.num_valid_centers in Hnum.
    destruct (Patch.valid_centers gt0 m s) as [kept|]; [|lia].
    destruct (Nat.ltb_spec (length kept) ppv) as [?|_]; [lia|].
    destruct Hc as (cs & idxs & -> & _). cbn [mbind result_bind fst snd].
    destruct (IH (S idx) (drop ppv rnd) Htl) as (rest & ->).
    cbn. eauto.
Qed.

(** C10. A crop around a valid center spans [2 * (patch_size / 2)] rows
    and columns. For an odd patch size the extractor never returns, for
    any input. On a batch it can work on (at least one image, at least
    one patch per view, every image with three channels, the size of its
    mask and enough valid centers) it fails at the reshape of the patches
    when the patch size is odd, and returns tensors of shape
    [(batch, count, 3, size, size)] and [(batch, count, 1, size, size)]
    when the patch size is even. *)
Theorem crops_span_twice_half_size
  (t_image : list (Patch.tensor3 R)) (mask : list (Patch.tensor2 R))
  (ppv : nat) s rnd :
  0 ≤ s →
  t_image ≠ [] →
  (1 ≤ ppv)%nat →
  Forall2 (Patch.samplable gt0 ppv s) t_image mask →
  (∀ img m kept yx,
     Patch.valid_centers gt0 m s = Ok kept → In yx kept →
     Patch.t2_h (Patch.crop_mask m s yx) = Z.to_nat (2 * (s / 2))
     ∧ Patch.t2_w (Patch.crop_mask m s yx) = Z.to_nat (2 * (s / 2))
     ∧ (Patch.t3_h img = Patch.t2_h m → Patch.t3_w img = Patch.t2_w m →
        Patch.t3_h (Patch.crop_image img s yx) = Z.to_nat (2 * (s / 2))
        ∧ Patch.t3_w (Patch.crop_image img s yx) = Z.to_nat (2 * (s / 2))))
  ∧ (Z.odd s = true →
     (∀ t_image' mask' ppv' rnd',
        ∃ e, Patch.extract_patches_from_tensor gt0 t_image' mask' ppv' s rnd' = Raise e)
     ∧ Patch.extract_patches_from_tensor gt0 t_image mask ppv s rnd
       = Raise RuntimeError_reshape)
  ∧ (Z.even s = true →
     ∃ P M, Patch.extract_patches_from_tensor gt0 t_image mask ppv s rnd = Ok (P, M)
            ∧ Patch.shape P = [Z.of_nat (length t_image); Z.of_nat ppv; 3; s; s]
            ∧ Patch.shape M = [Z.of_nat (length t_image); Z.of_nat ppv; 1; s; s]).
Proof.
  intros Hs Hne Hppv Hwf.
  assert (Hhalf : 0 ≤ s / 2) by (apply Z.div_pos; lia).
  (* the run on the given batch, up to the two reshapes *)
  destruct (patch_loop_total t_image 0 mask ppv s rnd Hppv) as (crops & Hloop).
  { by rewrite drop_0. }
  destruct (patch_loop_ok _ _ _ _ _ _ _ Hs Hloop) as (css & HF & Hlen & Hcrops).
  rewrite drop_0 in HF, Hcrops.
  destruct (crops_of_mask_shapes _ _ _ _ _ HF) as [Hmsk Hcount].
  pose proof (crops_of_image_shapes _ _ _ _ _ Hwf HF) as Himg.
  rewrite <- Hcrops in Hmsk, Hcount, Himg. rewrite Hlen in Hcount.
  assert (Hcnt : (1 ≤ length crops)%nat).
  { rewrite Hcount. destruct t_image; [done|]. cbn. lia. }
  assert (Hcp : Patch.torch_cat (map (fun c => Patch.patch_unsqueeze (fst c)) crops)
                = Ok (Patch.mk_tensor
                        [Z.of_nat (length crops); 3; 2 * (s / 2); 2 * (s / 2)]
                        (flat_map Patch.data
                           (map (fun c => Patch.patch_unsqueeze (fst c)) crops)))).
  { rewrite (torch_cat_same _ [3; 2 * (s / 2); 2 * (s / 2)]).
    - by rewrite length_map.
    - destruct crops; [cbn in Hcnt; lia|done].
    - apply Forall_forall. intros u Hu.
      apply list_elem_of_In, in_map_iff in Hu as (c & <- & Hc).
      rewrite Forall_forall in Himg. apply list_elem_of_In in Hc.
      destruct (Himg c Hc) as (H1 & H2 & H3).
      unfold Patch.patch_unsqueeze. cbn [Patch.shape]. rewrite H1, H2, H3.
      rewrite Z2Nat.id by lia. reflexivity. }
  assert (Hcm : Patch.torch_cat (map (fun c => Patch.msk_unsqueeze (snd c)) crops)
                = Ok (Patch.mk_tensor
                        [Z.of_nat (length crops); 1; 2 * (s / 2); 2 * (s / 2)]
                        (flat_map Patch.data
                           (map (fun c => Patch.msk_unsqueeze (snd c)) crops)))).
  { rewrite (torch_cat_same _ [1; 2 * (s / 2); 2 * (s / 2)]).
    - by rewrite length_map.
    - destruct crops; [cbn in Hcnt; lia|done].
    - apply Forall_forall. intros u Hu.
      apply list_elem_of_In, in_map_iff in Hu as (c & <- & Hc).
      rewrite Forall_forall in Hmsk. apply list_elem_of_In in Hc.
      destruct (Hmsk c Hc) as (H2 & H3).
      unfold Patch.msk_unsqueeze. cbn [Patch.shape]. rewrite H2, H3.
      rewrite Z2Nat.id by lia. reflexivity. }
  assert (HN : Z.of_nat (length crops) = Z.of_nat (length t_image) * Z.of_nat ppv)
    by (rewrite Hcount; lia).
  refine (conj _ (conj _ _)).
  - intros img m kept yx Hv Hin.
    destruct (valid_center_crop_inside img m s kept yx Hs Hv Hin)
      as (? & ? & ? & ? & _ & _ & _ & _ & _ & _ & Hcm' & Hci').
    rewrite Hcm'. split; [reflexivity|]. split; [reflexivity|].
    intros Hh Hw. rewrite (Hci' Hh Hw). by split.
  - intros Hodd.
    assert (Hs2 : s = 2 * (s / 2) + 1).
    { rewrite (Zodd_div2 s) at 1 by (by apply Zodd_bool_iff || by apply Zodd_equiv).
      rewrite Z.div2_div. lia. }
    split.
    + intros t_image' mask' ppv' rnd'.
      destruct (Patch.extract_patches_from_tensor gt0 t_image' mask' ppv' s rnd')
        as [[P M]|e] eqn:Hex; [exfalso|by exists e].
      apply extract_ok_inv in Hex as (crops' & cp & cm & H1 & _ & _ & H4 & H5).
      apply patch_loop_ok in H1 as (css' & HF' & Hlen' & ->); [|exact Hs].
      rewrite drop_0 in HF', H4.
      destruct (crops_of_mask_shapes _ _ _ _ _ HF') as [Hmsk' Hcount'].
      apply reshape_ok in H5 as (_ & _ & _ & Hnum).
      apply torch_cat_ok in H4 as (t0 & rest & Hts & Hsh & _ & _).
      remember (Patch.crops_of t_image' mask' s css') as crops' eqn:Hcr.
      destruct crops' as [|c0 crops']; [discriminate|].
      cbn [map] in Hts. injection Hts as <- <-.
      inversion Hmsk' as [|? ? [Hh0 Hw0] Hrest]; subst.
      rewrite sum_heads in Hsh.
      2:{ apply Forall_forall. intros u Hu.
          change (u ∈ map (fun c => Patch.msk_unsqueeze (snd c)) (c0 :: crops')) in Hu.
          apply list_elem_of_In, in_map_iff in Hu as (c & <- & _). reflexivity. }
      rewrite Hsh in Hnum. unfold Patch.msk_unsqueeze in Hnum.
      cbn [Patch.shape tail Patch.numel foldr length map] in Hnum.
      rewrite Hh0, Hw0, Z2Nat.id in Hnum by lia.
      change (length (c0 :: crops')) with (S (length crops')) in Hcount'.
      rewrite length_map in Hnum.
      assert (HN' : Z.of_nat (S (length crops'))
                    = Z.of_nat (length t_image') * Z.of_nat ppv') by (rewrite Hcount'; lia).
      rewrite <- Hlen' in Hnum. nia.
    + unfold Patch.extract_patches_from_tensor.
      rewrite Hloop. cbn [mbind result_bind]. rewrite Hcp. cbn [mbind result_bind].
      unfold Patch.reshape. cbn [Patch.shape Patch.numel foldr].
      destruct (forallb _ _); [|reflexivity]. cbn [andb].
      destruct (Z.eqb_spec (Z.of_nat (length t_image) * (Z.of_nat ppv * (3 * (s * (s * 1)))))
                  (Z.of_nat (length crops) * (3 * (2 * (s / 2) * (2 * (s / 2) * 1)))))
        as [Heq|_]; [exfalso|reflexivity].
      nia.
  - intros Heven.
    assert (Hs2 : s = 2 * (s / 2)).
    { rewrite (Zeven_div2 s) at 1 by (by apply Zeven_bool_iff).
      rewrite Z.div2_div. lia. }
    unfold Patch.extract_patches_from_tensor.
    rewrite Hloop. cbn [mbind result_bind]. rewrite Hcp. cbn [mbind result_bind].
    rewrite <- Hs2, HN.
    assert (Hre : ∀ ch (d : list R), 0 ≤ ch →
              Patch.reshape [Z.of_nat (length t_image); Z.of_nat ppv; ch; s; s]
                (Patch.mk_tensor [Z.of_nat (length t_image) * Z.of_nat ppv; ch; s; s] d)
              = Ok (Patch.mk_tensor [Z.of_nat (length t_image); Z.of_nat ppv; ch; s; s] d)).
    { intros ch d Hch. unfold Patch.reshape. cbn [Patch.shape Patch.numel foldr forallb].
      repeat match goal with
             | |- context [0 <=? ?x] =>
                 rewrite (proj2 (Z.leb_le 0 x)) by lia
             end.
      cbn [andb].
      destruct (Z.eqb_spec (Z.of_nat (length t_image) * (Z.of_nat ppv * (ch * (s * (s * 1)))))
                  (Z.of_nat (length t_image) * Z.of_nat ppv * (ch * (s * (s * 1)))))
        as [_|Hneq]; [reflexivity|]. exfalso. apply Hneq. ring. }
    rewrite Hre by lia. cbn [mbind result_bind]. rewrite Hcm. cbn [mbind result_bind].
    rewrite <- Hs2, HN, Hre by lia. cbn.
    do 2 eexists. split; [reflexivity|]. by split.
Qed.

End PatchFacts.

Lemma patches_inside_bounding_box_witness :
  ∃ P M css,
    Patch.extract_patches_from_tensor gtz [img_ex] [mask_ex] 2 4 [5; 7]%nat = Ok (P, M)
    ∧ Forall2 (fun im cs => Patch.sampled_inside gtz (fst im) (snd im) 2 4 cs)
              (zip [img_ex] [mask_ex]) css
    ∧ Patch.data M = flat_map (fun c => Patch.flat2 (snd c))
                              (Patch.crops_of [img_ex] [mask_ex] 4 css).
Proof.
  destruct (Patch.extract_patches_from_tensor gtz [img_ex] [mask_ex] 2 4 [5; 7]%nat)
    as [[P M]|e] eqn:H; [|vm_compute in H; discriminate].
  destruct (patches_inside_bounding_box gtz _ _ _ _ _ P M H) as (css & HF & _ & _ & HM).
  exists P, M, css. split; [reflexivity|]. split; [exact HF|exact HM].
Defined.

Lemma too_few_centers_is_an_error_witness :
  Patch.num_valid_centers gtz mask_ex 4 = 4%nat
  ∧ Patch.extract_patches_from_tensor gtz [img_ex] [mask_ex] 5 4 [5; 7]%nat
    = Raise ValueError_sample.
Proof.
  split; [vm_compute; reflexivity|].
  apply (too_few_centers_is_an_error gtz [img_ex] [mask_ex] 5 4 [5; 7]%nat
           0%nat img_ex mask_ex).
  - reflexivity.
  - reflexivity.
  - apply Nat.ltb_lt. vm_compute. reflexivity.
  - intros m' Hin. apply list_elem_of_singleton in Hin as ->.
    vm_compute. discriminate.
Defined.

(** Two batches with too few valid centers: four centers where five are
    asked for, and a mask without positive entry. The first fails in
    [random.sample], the second in [min]; neither error is raised by a
    check of the extractor. *)
Lemma too_few_centers_raise_library_errors :
  (Patch.num_valid_centers gtz mask_ex 4 < 5)%nat
  ∧ Patch.extract_patches_from_tensor gtz [img_ex] [mask_ex] 5 4 [5; 7]%nat
    = Raise ValueError_sample
  ∧ (Patch.num_valid_centers gtz mask_zero 4 < 1)%nat
  ∧ Patch.extract_patches_from_tensor gtz [img_ex] [mask_zero] 1 4 [5; 7]%nat
    = Raise RuntimeError_min_empty.
Proof.
  refine (conj _ (conj _ (conj _ _))).
  - apply Nat.ltb_lt. vm_compute. reflexivity.
  - vm_compute. reflexivity.
  - apply Nat.ltb_lt. vm_compute. reflexivity.
  - vm_compute. reflexivity.
Qed.

Lemma crops_span_twice_half_size_witness :
  (∃ P M,
     Patch.extract_patches_from_tensor gtz [img_ex] [mask_ex] 2 4 [5; 7]%nat = Ok (P, M)
     ∧ Patch.shape P = [1; 2; 3; 4; 4] ∧ Patch.shape M = [1; 2; 1; 4; 4])
  ∧ Patch.extract_patches_from_tensor gtz [img_ex] [mask_ex] 2 3 [5; 7]%nat
    = Raise RuntimeError_reshape.
Proof.
  split.
  - apply (crops_span_twice_half_size gtz [img_ex] [mask_ex] 2 4 [5; 7]%nat).
    + discriminate.
    + discriminate.
    + apply Nat.leb_le. reflexivity.
    + constructor; [|constructor].
      repeat split. apply Nat.leb_le. vm_compute. reflexivity.
    + reflexivity.
  - apply (crops_span_twice_half_size gtz [img_ex] [mask_ex] 2 3 [5; 7]%nat).
    + discriminate.
    + discriminate.
    + apply Nat.leb_le. reflexivity.
    + constructor; [|constructor].
      repeat split. apply Nat.leb_le. vm_compute. reflexivity.
    + reflexivity.
Defined.

(** * Further properties of the trainers *)

(** ** The order of the sub-steps *)

Ltac entered_of :=
  unfold_substeps; split_ifs; trace_norm; cbn [entered omap]; cbn; reflexivity.

(** X1. The sub-steps of an iteration are entered in one fixed order:
    generator step, generator regularization when its cadence holds
    after the warm-up, EMA update, critic step(s), critic
    regularization(s) when their cadence holds, augmentation update when
    its cadence holds. An iteration of the patch trainer that raises in
    a patch extraction has entered a prefix of that sequence. *)
Theorem training_step_order {R : Type} (gt0 : R → bool)
  (c : config) (ev : env) (pe : TrainPatch.patches R) (gs : Z) (g0 : grads)
  (lights shininess : bool) :
  lazy_path_penalty_interval c ≠ 0 →
  lazy_gradient_penalty_interval c ≠ 0 →
  ada_interval c ≠ 0 →
  let plp_now := cadence_holds_after (lazy_path_penalty_after c)
                   (lazy_path_penalty_interval c) gs in
  let gp_now := cadence_holds (lazy_gradient_penalty_interval c) gs in
  let ada_now := cadence_holds (ada_interval c) gs in
  let patch_order :=
    [s_g_step] ++ (if plp_now then [s_g_regularizer] else [])
    ++ [s_ema_update; s_d_step; s_patch_d_step]
    ++ (if gp_now then [s_d_regularizer; s_patch_d_regularizer] else [])
    ++ (if ada_now then [s_heuristic_update] else []) in
  (∀ st res, TrainPatch.training_step gt0 c ev pe gs (fresh g0) = (st, res) →
     (TrainPatch.patches_extracted gt0 c pe gs → res = Ok tt)
     ∧ (res = Ok tt → entered (st_trace st) = patch_order)
     ∧ entered (st_trace st) `prefix_of` patch_order
     ∧ (¬ TrainPatch.extracts gt0 pe (TrainPatch.g_fake pe)
            (TrainPatch.num_patch_per_view pe) →
        entered (st_trace st) = [s_g_step]))
  ∧ (∃ st, TrainStylegan.training_step c ev gs (fresh g0) = Ok st
           ∧ entered (st_trace st)
             = [s_g_step] ++ (if plp_now then [s_g_regularizer] else [])
               ++ [s_ema_update; s_d_step]
               ++ (if gp_now then [s_d_regularizer] else [])
               ++ (if ada_now then [s_heuristic_update] else []))
  ∧ (∃ st, TrainLight.training_step lights shininess c ev gs (fresh g0) = Ok st
           ∧ entered (st_trace st)
             = [s_g_step] ++ (if plp_now then [s_g_regularizer] else [])
               ++ [s_ema_update; s_d_step]
               ++ (if gp_now then [s_d_regularizer] else [])
               ++ (if ada_now then [s_heuristic_update] else []))
  ∧ (∃ st, TrainSdfGrid.training_step c ev gs (fresh g0) = Ok st
           ∧ entered (st_trace st)
             = [s_g_step; s_ema_update; s_d_step]
               ++ (if gp_now then [s_d_regularizer] else [])
               ++ (if ada_now then [s_heuristic_update] else [])).
Proof.
  intros Hp Hg Ha. cbv zeta. unfold cadence_holds, cadence_holds_after.
  rewrite (after_and_every_ok gs _ _ Hp), (every_ok gs _ Hg), (every_ok gs _ Ha).
  refine (conj _ (conj _ (conj _ _))).
  - intros st res Hrun. refine (conj _ (conj _ (conj _ _))).
    + revert Hrun. unfold TrainPatch.patches_extracted.
      rewrite <- (Z.eqb_eq ((gs + 1) mod lazy_gradient_penalty_interval c)).
      patch_paths; intros [= <- <-]; intuition congruence.
    + revert Hrun. patch_paths; intros [= <- <-]; try discriminate; intros _;
        entered_of.
    + revert Hrun. patch_paths; intros [= <- <-]; eexists; entered_of.
    + revert Hrun. patch_paths; intros [= <- <-]; intros Hno;
        try (exfalso; apply Hno; reflexivity); entered_of.
  - unfold TrainStylegan.training_step, TrainStylegan.execute_ada_heuristics.
    run_training_step. eexists; split; [reflexivity|]. entered_of.
  - unfold TrainLight.training_step, TrainLight.execute_ada_heuristics.
    run_training_step. eexists; split; [reflexivity|]. entered_of.
  - unfold TrainSdfGrid.training_step, TrainSdfGrid.execute_ada_heuristics.
    run_training_step. eexists; split; [reflexivity|]. entered_of.
Qed.

Lemma training_step_order_witness :
  ∃ st, TrainPatch.training_step gtz config_4 ev_nan patches_ex 3 (fresh g_one) = (st, Ok tt)
        ∧ entered (st_trace st)
          = [s_g_step; s_g_regularizer; s_ema_update; s_d_step; s_patch_d_step;
             s_heuristic_update].
Proof.
  destruct (TrainPatch.training_step gtz config_4 ev_nan patches_ex 3 (fresh g_one))
    as [st res] eqn:Hrun.
  destruct (training_step_order gtz config_4 ev_nan patches_ex 3 g_one false false)
    as (Hpatch & _); [discriminate ..|].
  destruct (Hpatch st res Hrun) as (Hret & Hord & _).
  assert (Hres : res = Ok tt) by (apply Hret; repeat split; reflexivity).
  subst res. exists st. split; [reflexivity|]. exact (Hord eq_refl).
Defined.

(** X2. The sdfgrid trainer never runs the generator regularization (its
    call is commented out): no iteration enters it, and the path-length
    settings of the configuration have no effect on the iteration. *)
Theorem sdfgrid_never_regularizes_generator
  (c : config) (ev : env) (gs : Z) (g0 : grads) (after' interval' : Z) :
  lazy_gradient_penalty_interval c ≠ 0 →
  ada_interval c ≠ 0 →
  (∃ st, TrainSdfGrid.training_step c ev gs (fresh g0) = Ok st
         ∧ ¬ ran s_g_regularizer st)
  ∧ TrainSdfGrid.training_step
      (mk_config after' interval' (lazy_gradient_penalty_interval c) (ada_interval c))
      ev gs (fresh g0)
    = TrainSdfGrid.training_step c ev gs (fresh g0).
Proof.
  intros Hg Ha. split; [|reflexivity].
  unfold TrainSdfGrid.training_step, TrainSdfGrid.execute_ada_heuristics.
  run_training_step. eexists; split; [reflexivity|].
  unfold ran; unfold_substeps; split_ifs; trace_norm; cbn [entered omap]; cbn;
    rewrite list_elem_of_In; cbn; intuition congruence.
Qed.

Lemma sdfgrid_never_regularizes_generator_witness :
  ∃ st, TrainSdfGrid.training_step config_4 ev_nan 3 (fresh g_one) = Ok st
        ∧ ¬ ran s_g_regularizer st.
Proof.
  apply (sdfgrid_never_regularizes_generator config_4 ev_nan 3 g_one 0 4); discriminate.
Defined.

(** ** How often a cadence holds *)

Lemma cadence_holds_eq (n gs : Z) :
  n ≠ 0 → cadence_holds n gs = ((gs + 1) mod n =? 0).
Proof. intros Hn. unfold cadence_holds. by rewrite every_ok. Qed.

Lemma cadence_holds_after_eq (w n gs : Z) :
  n ≠ 0 → cadence_holds_after w n gs = (gs >? w) && ((gs + 1) mod n =? 0).
Proof. intros Hn. unfold cadence_holds_after. by rewrite after_and_every_ok. Qed.

Lemma firings_S (holds : Z → bool) (n : nat) :
  firings holds (S n)
  = (firings holds n + if holds (Z.of_nat n) then 1 else 0)%nat.
Proof.
  unfold firings, steps_upto. rewrite seq_S, map_app, List.filter_app, length_app.
  cbn. by destruct (holds (Z.of_nat n)).
Qed.

(** The quotient goes up by one exactly at the multiples. *)
Lemma div_succ (n k : Z) :
  0 < n → 0 ≤ k →
  (k + 1) / n = k / n + (if (k + 1) mod n =? 0 then 1 else 0).
Proof.
  intros Hn Hk.
  pose proof (Z.div_mod k n ltac:(lia)) as Hk1.
  pose proof (Z.mod_pos_bound k n Hn) as Hk2.
  destruct (Z.eq_dec (k mod n + 1) n) as [Heq|Hne].
  - assert (Hd : (k + 1) / n = k / n + 1)
      by (symmetry; apply (Z.div_unique (k + 1) n (k / n + 1) 0); lia).
    assert (Hm : (k + 1) mod n = 0)
      by (symmetry; apply (Z.mod_unique (k + 1) n (k / n + 1) 0); lia).
    rewrite Hd, Hm. reflexivity.
  - assert (Hd : (k + 1) / n = k / n)
      by (symmetry; apply (Z.div_unique (k + 1) n (k / n) (k mod n + 1)); lia).
    assert (Hm : (k + 1) mod n = k mod n + 1)
      by (symmetry; apply (Z.mod_unique (k + 1) n (k / n) (k mod n + 1)); lia).
    rewrite Hd, Hm. destruct (Z.eqb_spec (k mod n + 1) 0); lia.
Qed.

(** X3. Over the first [n] iterations ([global_step] from 0 to [n - 1]) a
    cadence of interval [N > 0] holds [n // N] times, and behind a
    warm-up threshold [W] it holds [max 0 (n // N - max 0 (W + 1) // N)]
    times. *)
Theorem firings_count (N W : Z) (n : nat) :
  0 < N →
  Z.of_nat (firings (cadence_holds N) n) = Z.of_nat n / N
  ∧ Z.of_nat (firings (cadence_holds_after W N) n)
    = Z.max 0 (Z.of_nat n / N - Z.max 0 (W + 1) / N).
Proof.
  intros HN. split.
  - induction n as [|n IH]; [by rewrite Z.div_0_l by lia|].
    rewrite firings_S, Nat2Z.inj_add, IH, cadence_holds_eq by lia.
    rewrite Nat2Z.inj_succ, <- Z.add_1_r, (div_succ N (Z.of_nat n)) by lia.
    by destruct (_ =? 0).
  - induction n as [|n IH].
    + cbn. rewrite Z.div_0_l by lia.
      assert (0 ≤ Z.max 0 (W + 1) / N) by (apply Z.div_pos; lia). lia.
    + rewrite firings_S, Nat2Z.inj_add, IH, cadence_holds_after_eq by lia.
      rewrite Nat2Z.inj_succ, <- Z.add_1_r, (div_succ N (Z.of_nat n)) by lia.
      set (k := Z.of_nat n) in *. set (c := Z.max 0 (W + 1)).
      assert (Hk : 0 ≤ k) by lia. assert (Hc : 0 ≤ c) by lia.
      pose proof (Z.div_mod c N ltac:(lia)) as Hc1.
      pose proof (Z.mod_pos_bound c N HN) as Hc2.
      pose proof (Z.div_mod (k + 1) N ltac:(lia)) as Hs1.
      pose proof (Z.div_mod k N ltac:(lia)) as Hk1.
      pose proof (Z.mod_pos_bound k N HN) as Hk2.
      assert (Hq : 0 ≤ k / N) by (apply Z.div_pos; lia).
      assert (Hqc : 0 ≤ c / N) by (apply Z.div_pos; lia).
      destruct (Z.eqb_spec ((k + 1) mod N) 0) as [H0|H0].
      * rewrite andb_true_r.
        rewrite H0, Z.add_0_r in Hs1.
        assert (Hdiv : (k + 1) / N = k / N + 1).
        { rewrite (div_succ N k) by lia. destruct (Z.eqb_spec ((k + 1) mod N) 0); lia. }
        rewrite Hdiv in Hs1.
        destruct (Z.gtb_spec k W) as [Hgt|Hle].
        -- assert (c / N < k / N + 1); [|lia].
           apply Z.div_lt_upper_bound; [lia|]. unfold c. nia.
        -- assert (k / N + 1 ≤ c / N); [|lia].
           apply Z.div_le_lower_bound; [lia|]. unfold c. nia.
      * rewrite andb_false_r. lia.
Qed.

Lemma firings_count_witness :
  firings (cadence_holds 4) 10 = 2%nat
  ∧ firings (cadence_holds_after 0 4) 10 = 2%nat
  ∧ firings (cadence_holds_after 7 4) 10 = 0%nat.
Proof.
  assert (H4 : 0 < 4) by reflexivity.
  split; [|split]; apply Nat2Z.inj.
  - rewrite (proj1 (firings_count 4 0 10 H4)). reflexivity.
  - rewrite (proj2 (firings_count 4 0 10 H4)). reflexivity.
  - rewrite (proj2 (firings_count 4 7 10 H4)). reflexivity.
Defined.

(** ** The optimizer discipline of the sub-steps *)

Ltac prepared_of :=
  unfold_substeps; split_ifs; trace_norm; cbn; repeat split; reflexivity.

(** X4. In every trainer, every optimizer step of an iteration is taken
    on the optimizer whose gradients were set to [None] at the start of
    the same sub-step, after a backward pass of that sub-step: no
    sub-step updates from gradients left by an earlier one. In the patch
    trainer this holds of the iterations that raise in a patch
    extraction as well. *)
Theorem optimizer_steps_prepared {R : Type} (gt0 : R → bool)
  (c : config) (ev : env) (pe : TrainPatch.patches R) (gs : Z) (g0 : grads)
  (lights shininess : bool) :
  lazy_path_penalty_interval c ≠ 0 →
  lazy_gradient_penalty_interval c ≠ 0 →
  ada_interval c ≠ 0 →
  (steps_prepared None false
     (st_trace (fst (TrainPatch.training_step gt0 c ev pe gs (fresh g0))))
   ∧ (TrainPatch.patches_extracted gt0 c pe gs →
      snd (TrainPatch.training_step gt0 c ev pe gs (fresh g0)) = Ok tt))
  ∧ (∃ st, TrainStylegan.training_step c ev gs (fresh g0) = Ok st
           ∧ steps_prepared None false (st_trace st))
  ∧ (∃ st, TrainLight.training_step lights shininess c ev gs (fresh g0) = Ok st
           ∧ steps_prepared None false (st_trace st))
  ∧ (∃ st, TrainSdfGrid.training_step c ev gs (fresh g0) = Ok st
           ∧ steps_prepared None false (st_trace st)).
Proof.
  intros Hp Hg Ha. refine (conj _ (conj _ (conj _ _))).
  - split.
    + patch_paths; prepared_of.
    + unfold TrainPatch.patches_extracted.
      rewrite <- (Z.eqb_eq ((gs + 1) mod lazy_gradient_penalty_interval c)).
      patch_paths; intuition congruence.
  - unfold TrainStylegan.training_step, TrainStylegan.execute_ada_heuristics.
    run_training_step. eexists; split; [reflexivity|]. prepared_of.
  - unfold TrainLight.training_step, TrainLight.execute_ada_heuristics.
    run_training_step. eexists; split; [reflexivity|]. prepared_of.
  - unfold TrainSdfGrid.training_step, TrainSdfGrid.execute_ada_heuristics.
    run_training_step. eexists; split; [reflexivity|]. prepared_of.
Qed.

Lemma optimizer_steps_prepared_witness :
  steps_prepared None false
    (st_trace (fst (TrainPatch.training_step gtz config_4 ev_nan patches_ex 15
                      (fresh g_one))))
  ∧ snd (TrainPatch.training_step gtz config_4 ev_nan patches_ex 15 (fresh g_one)) = Ok tt.
Proof.
  destruct (optimizer_steps_prepared gtz config_4 ev_nan patches_ex 15 g_one false false)
    as ((Hprep & Hret) & _); [discriminate ..|].
  split; [exact Hprep|]. apply Hret. repeat split; reflexivity.
Defined.

(** ** Gradients around the helper [step] *)

Lemma grads_emit (e : event) (st : tstate) : st_grads (emit e st) = st_grads st.
Proof. reflexivity. Qed.

(** [zero_grad] drops the gradients of the optimizer's modules and of no
    other module. *)
Lemma grads_zero_grad (o : optimizer) (st : tstate) (m : module_id) :
  st_grads (zero_grad o st) m
  = if decide (m ∈ o) then map (fun _ => None) (st_grads st m) else st_grads st m.
Proof.
  unfold zero_grad. rewrite grads_emit. cbn [st_grads].
  induction o as [|m0 o IH]; cbn [fold_right].
  - by rewrite decide_False by apply not_elem_of_nil.
  - unfold set_grads at 1. destruct (decide (m = m0)) as [->|Hne].
    + rewrite decide_True by apply list_elem_of_here.
      rewrite IH. clear IH. destruct (decide _) as [Hin|Hnin].
      * rewrite map_map. reflexivity.
      * reflexivity.
    + rewrite IH. clear IH.
      assert (Hiff : m ∈ m0 :: o ↔ m ∈ o)
        by (rewrite elem_of_cons; intuition congruence).
      repeat case_decide; try reflexivity; exfalso; tauto.
Qed.

(** X5. A generator regularization aborted on a NaN penalty leaves no
    gradient on any parameter of the generator optimizer's modules (the
    gradients of the generator step before it are gone), leaves the
    gradients of the other modules as they were, and issues neither a
    backward pass nor an optimizer step. *)
Theorem aborted_regularizer_leaves_no_gradient
  (ev : env) (st : tstate) (m : module_id) :
  is_nan (plp ev) = true →
  st_grads (TrainPatch.g_regularizer ev st) m
  = (if decide (m ∈ TrainPatch.g_opt)
     then map (fun _ => None) (st_grads st m) else st_grads st m)
  ∧ Forall (fun g => g = None) (st_grads (TrainPatch.g_regularizer ev st) G)
  ∧ Forall (fun g => g = None) (st_grads (TrainPatch.g_regularizer ev st) E)
  ∧ length (st_grads (TrainPatch.g_regularizer ev st) m) = length (st_grads st m)
  ∧ st_trace (TrainPatch.g_regularizer ev st)
    = st_trace st ++ [Enter s_g_regularizer; ZeroGrad TrainPatch.g_opt].
Proof.
  intros Hnan. unfold TrainPatch.g_regularizer. rewrite Hnan. cbn [negb]. cbv zeta.
  assert (Hnone : ∀ l : list (option grad),
            Forall (fun g => g = None) (map (fun _ : option grad => @None grad) l)).
  { intros l. apply Forall_forall. intros g Hg.
    apply list_elem_of_In, in_map_iff in Hg as (? & <- & _). reflexivity. }
  rewrite !grads_zero_grad, grads_emit.
  refine (conj eq_refl (conj _ (conj _ (conj _ _)))).
  - rewrite decide_True; [apply Hnone|]. apply list_elem_of_here.
  - rewrite decide_True; [apply Hnone|].
    apply list_elem_of_further, list_elem_of_here.
  - destruct (decide (m ∈ TrainPatch.g_opt)); [apply length_map|reflexivity].
  - rewrite trace_zero_grad, trace_emit, <- app_assoc. reflexivity.
Qed.

Lemma aborted_regularizer_leaves_no_gradient_witness :
  st_grads (TrainPatch.g_regularizer ev_nan
              (fst (TrainPatch.g_step gtz ev_nan patches_ex (fresh g_one)))) G
  = [None]
  ∧ st_grads (fst (TrainPatch.g_step gtz ev_nan patches_ex (fresh g_one))) G
    = [Some [f_zero; f_1e5]].
Proof.
  split; [|reflexivity].
  rewrite (proj1 (aborted_regularizer_leaves_no_gradient ev_nan
                    (fst (TrainPatch.g_step gtz ev_nan patches_ex (fresh g_one)))
                    G eq_refl)).
  reflexivity.
Defined.

(** X6. In the light trainer the generator optimizer holds the encoder
    always, the light directions exactly when [optimize_lights] is set
    and the shininess exactly when [optimize_shininess] is set; the
    helper [step(g_opt, self.G)] sanitizes the generator's gradients
    only, and its optimizer step reads the gradients of every other
    module it holds as they are. *)
Theorem light_trainer_step_reads_unsanitized
  (lights shininess : bool) (st : tstate) (m : module_id) :
  m ∈ TrainLight.g_opt lights shininess →
  m ≠ G →
  (E ∈ TrainLight.g_opt lights shininess
   ∧ (light_mean ∈ TrainLight.g_opt lights shininess ↔ lights = true)
   ∧ (global_shininess ∈ TrainLight.g_opt lights shininess ↔ shininess = true))
  ∧ reads (st_trace (step (TrainLight.g_opt lights shininess) G st))
          (TrainLight.g_opt lights shininess) m (st_grads st m)
  ∧ st_grads (step (TrainLight.g_opt lights shininess) G st) m = st_grads st m
  ∧ reads (st_trace (step (TrainLight.g_opt lights shininess) G st))
          (TrainLight.g_opt lights shininess) G
          (map (option_map nan_to_num) (st_grads st G)).
Proof.
  intros Hm HG. split; [|split; [|split]].
  - unfold TrainLight.g_opt. destruct lights, shininess; cbn;
      rewrite !list_elem_of_In; cbn; intuition congruence.
  - unfold reads. rewrite trace_step. eexists. split.
    + apply elem_of_app. right. apply list_elem_of_further, list_elem_of_here.
    + apply list_elem_of_In, in_map_iff. exists m.
      split; [by rewrite decide_False|by apply list_elem_of_In].
  - unfold step, opt_step. rewrite grads_emit, grads_sanitize. by rewrite decide_False.
  - unfold reads. rewrite trace_step. eexists. split.
    + apply elem_of_app. right. apply list_elem_of_further, list_elem_of_here.
    + apply list_elem_of_In, in_map_iff. exists G.
      split; [by rewrite decide_True|].
      unfold TrainLight.g_opt. cbn. by left.
Qed.

Lemma light_trainer_step_reads_unsanitized_witness :
  reads (st_trace (step (TrainLight.g_opt true false) G
                     (mk_tstate (set_grads light_mean [Some [S754_nan]] g_one) [])))
        (TrainLight.g_opt true false) light_mean [Some [S754_nan]].
Proof.
  apply (light_trainer_step_reads_unsanitized true false
           (mk_tstate (set_grads light_mean [Some [S754_nan]] g_one) []) light_mean).
  - unfold TrainLight.g_opt. cbn. do 2 apply list_elem_of_further. apply list_elem_of_here.
  - discriminate.
Defined.

(** * Further properties of the patch sampler *)

Section PatchMore.
Context {R : Type} (gt0 : R → bool).
Implicit Types (m : Patch.tensor2 R) (img : Patch.tensor3 R) (s : Z).
Implicit Types (yx : Z * Z) (rnd : list nat).

Lemma slice_bound_le (n : nat) (i : Z) : (Patch.slice_bound n i ≤ n)%nat.
Proof. unfold Patch.slice_bound. destruct (Z.ltb_spec i 0); lia. Qed.

Lemma slice_bound_width (n : nat) (lo hi : Z) :
  lo ≤ hi → (0 ≤ lo ∨ hi < 0 ∨ 0 ≤ hi) →
  Z.of_nat (Patch.slice_bound n hi - Patch.slice_bound n lo) ≤ hi - lo.
Proof.
  intros Hle _. unfold Patch.slice_bound.
  destruct (Z.ltb_spec lo 0), (Z.ltb_spec hi 0); lia.
Qed.

(** X7. Whatever the center and the patch size, a crop never reads
    outside the mask or the image: every entry of a crop is the entry of
    the source at an index within its height and width, and the crop has
    all the channels of the image. A window that sticks out is cut (for a
    non-negative size the crop has at most [2 * (patch_size / 2)] rows
    and columns), it is never an error. *)
Theorem crop_reads_inside m img s yx :
  (∀ i j, (i < Patch.t2_h (Patch.crop_mask m s yx))%nat →
          (j < Patch.t2_w (Patch.crop_mask m s yx))%nat →
          ∃ y x, (y < Patch.t2_h m)%nat ∧ (x < Patch.t2_w m)%nat
                 ∧ Patch.t2_at (Patch.crop_mask m s yx) i j = Patch.t2_at m y x)
  ∧ (∀ ch i j, (i < Patch.t3_h (Patch.crop_image img s yx))%nat →
               (j < Patch.t3_w (Patch.crop_image img s yx))%nat →
               ∃ y x, (y < Patch.t3_h img)%nat ∧ (x < Patch.t3_w img)%nat
                      ∧ Patch.t3_at (Patch.crop_image img s yx) ch i j
                        = Patch.t3_at img ch y x)
  ∧ Patch.t3_c (Patch.crop_image img s yx) = Patch.t3_c img
  ∧ (0 ≤ s →
     Z.of_nat (Patch.t2_h (Patch.crop_mask m s yx)) ≤ 2 * (s / 2)
     ∧ Z.of_nat (Patch.t2_w (Patch.crop_mask m s yx)) ≤ 2 * (s / 2)
     ∧ Z.of_nat (Patch.t3_h (Patch.crop_image img s yx)) ≤ 2 * (s / 2)
     ∧ Z.of_nat (Patch.t3_w (Patch.crop_image img s yx)) ≤ 2 * (s / 2)).
Proof.
  unfold Patch.crop_mask, Patch.crop_image, Patch.slice2, Patch.slice3.
  cbn [Patch.t2_h Patch.t2_w Patch.t2_at Patch.t3_c Patch.t3_h Patch.t3_w Patch.t3_at].
  refine (conj _ (conj _ (conj eq_refl _))).
  - intros i j Hi Hj. do 2 eexists. split; [|split; [|reflexivity]].
    + pose proof (slice_bound_le (Patch.t2_h m) (fst yx + s / 2)). lia.
    + pose proof (slice_bound_le (Patch.t2_w m) (snd yx + s / 2)). lia.
  - intros ch i j Hi Hj. do 2 eexists. split; [|split; [|reflexivity]].
    + pose proof (slice_bound_le (Patch.t3_h img) (fst yx + s / 2)). lia.
    + pose proof (slice_bound_le (Patch.t3_w img) (snd yx + s / 2)). lia.
  - intros Hs. assert (Hhalf : 0 ≤ s / 2) by (apply Z.div_pos; lia).
    repeat split.
    + pose proof (slice_bound_width (Patch.t2_h m) (fst yx - s / 2) (fst yx + s / 2)). lia.
    + pose proof (slice_bound_width (Patch.t2_w m) (snd yx - s / 2) (snd yx + s / 2)). lia.
    + pose proof (slice_bound_width (Patch.t3_h img) (fst yx - s / 2) (fst yx + s / 2)). lia.
    + pose proof (slice_bound_width (Patch.t3_w img) (snd yx - s / 2) (snd yx + s / 2)). lia.
Qed.

Lemma is_bbox_unique m (a b c d a' b' c' d' : Z) :
  Patch.is_bbox gt0 m a b c d → Patch.is_bbox gt0 m a' b' c' d' →
  a = a' ∧ b = b' ∧ c = c' ∧ d = d'.
Proof.
  intros (H & H1 & H2 & H3 & H4) (H' & H1' & H2' & H3' & H4').
  apply in_map_iff in H1 as (p1 & <- & H1), H2 as (p2 & <- & H2),
    H3 as (p3 & <- & H3), H4 as (p4 & <- & H4).
  apply in_map_iff in H1' as (q1 & <- & H1'), H2' as (q2 & <- & H2'),
    H3' as (q3 & <- & H3'), H4' as (q4 & <- & H4').
  pose proof (H _ H1'). pose proof (H _ H2'). pose proof (H _ H3'). pose proof (H _ H4').
  pose proof (H' _ H1). pose proof (H' _ H2). pose proof (H' _ H3). pose proof (H' _ H4).
  lia.
Qed.

(** X8. No center is valid in a mask whose bounding box spans fewer than
    [2 * (patch_size / 2) + 5] rows or columns
    ([y_max - y_min < 2 * (patch_size / 2) + 4], or the same for the
    columns): the list of valid centers is empty, and the extractor fails
    on every batch that holds such a mask when at least one patch per
    view is asked for. *)
Theorem narrow_bounding_box_has_no_center m s (y_min y_max x_min x_max : Z)
  (t_image : list (Patch.tensor3 R)) (mask : list (Patch.tensor2 R))
  (ppv : nat) rnd (idx : nat) img :
  Patch.is_bbox gt0 m y_min y_max x_min x_max →
  y_max - y_min < 2 * (s / 2) + 4 ∨ x_max - x_min < 2 * (s / 2) + 4 →
  t_image !! idx = Some img →
  mask !! idx = Some m →
  (1 ≤ ppv)%nat →
  Patch.valid_centers gt0 m s = Ok []
  ∧ ∃ e, Patch.extract_patches_from_tensor gt0 t_image mask ppv s rnd = Raise e
         ∧ (e = ValueError_sample ∨ e = RuntimeError_min_empty).
Proof.
  intros Hbox Hnarrow Hi Hm Hppv.
  assert (Hv : Patch.valid_centers gt0 m s = Ok []).
  { destruct (Patch.valid_centers gt0 m s) as [kept|e] eqn:Hv.
    - f_equal.
      destruct (valid_centers_spec gt0 m s kept Hv) as (a & b & c & d & Hbox' & ->).
      destruct (is_bbox_unique m _ _ _ _ _ _ _ _ Hbox Hbox') as (<- & <- & <- & <-).
      destruct (List.filter _ _) as [|yx l] eqn:Hf; [reflexivity|exfalso].
      assert (Hin : In yx (List.filter (Patch.nz_mask s y_min y_max x_min x_max)
                             (Patch.nonzero gt0 m))) by (rewrite Hf; by left).
      apply filter_In in Hin as [_ Hmask]. unfold Patch.nz_mask in Hmask.
      apply andb_true_iff in Hmask as [Hy Hx].
      apply andb_true_iff in Hy as [Hy1 Hy2]. apply andb_true_iff in Hx as [Hx1 Hx2].
      apply Z.gtb_gt in Hy1, Hx1. apply Z.ltb_lt in Hy2, Hx2. lia.
    - exfalso. unfold Patch.valid_centers in Hv.
      destruct Hbox as (_ & Hy & _). destruct (Patch.nonzero gt0 m); [destruct Hy|].
      cbn in Hv. unfold mret, result_ret in Hv. discriminate. }
  split; [exact Hv|].
  destruct (patch_loop_too_few gt0 t_image 0 idx mask ppv s rnd img m Hi Hm)
    as (e & He & Hkind).
  { unfold Patch.num_valid_centers. rewrite Hv. cbn. lia. }
  exists e. split; [|exact Hkind].
  unfold Patch.extract_patches_from_tensor. by rewrite He.
Qed.

End PatchMore.

Lemma narrow_bounding_box_has_no_center_witness :
  Patch.valid_centers gtz mask_ex 6 = Ok []
  ∧ ∃ e, Patch.extract_patches_from_tensor gtz [img_ex] [mask_ex] 1 6 [] = Raise e
         ∧ (e = ValueError_sample ∨ e = RuntimeError_min_empty).
Proof.
  apply (narrow_bounding_box_has_no_center gtz mask_ex 6 1 10 1 10
           [img_ex] [mask_ex] 1 [] 0%nat img_ex).
  - unfold Patch.is_bbox. split; [|vm_compute; tauto].
    intros yx Hyx. apply in_nonzero in Hyx as (i & j & -> & Hi & Hj & Hgt).
    change (gtz (if ((1 <=? i)%nat && (i <=? 10)%nat && (1 <=? j)%nat && (j <=? 10)%nat)
                 then 1 else 0) = true) in Hgt.
    destruct ((1 <=? i)%nat && (i <=? 10)%nat && (1 <=? j)%nat && (j <=? 10)%nat) eqn:Hb;
      [|vm_compute in Hgt; discriminate].
    repeat (apply andb_true_iff in Hb as [Hb ?]).
    apply Nat.leb_le in Hb. repeat match goal with H : (_ <=? _)%nat = true |- _ =>
                                     apply Nat.leb_le in H end.
    cbn. lia.
  - left. reflexivity.
  - reflexivity.
  - reflexivity.
  - apply Nat.leb_le. reflexivity.
Defined.

Section PatchEdges.
Context {R : Type} (gt0 : R → bool).
Implicit Types (m : Patch.tensor2 R) (img : Patch.tensor3 R) (s : Z).
Implicit Types (yx : Z * Z) (rnd : list nat).

(** With no patch asked for, the loop over the images yields no crop. *)
Lemma patch_loop_zero (images : list (Patch.tensor3 R)) (idx : nat)
  (mask : list (Patch.tensor2 R)) s rnd :
  match Patch.patch_loop gt0 images idx mask 0 s rnd with
  | Ok crops => crops = []
  | Raise e => e = RuntimeError_min_empty ∨ e = IndexError
  end.
Proof.
  revert idx rnd. induction images as [|img images IH]; intros idx rnd.
  - reflexivity.
  - cbn [Patch.patch_loop]. unfold Patch.lookup_or_raise.
    destruct (mask !! idx) as [m|]; [|by right].
    cbn [mbind result_bind].
    pose proof (sample_centers_cases gt0 m 0 s rnd) as Hc.
    destruct (Patch.valid_centers gt0 m s) as [kept|e].
    + change (length kept <? 0)%nat with false in Hc.
      destruct Hc as (cs & idxs & -> & Hlen & _).
      destruct cs; [|discriminate]. cbn [mbind result_bind fst snd].
      specialize (IH (S idx) (drop 0 rnd)).
      destruct (Patch.patch_loop gt0 images (S idx) mask 0 s (drop 0 rnd)) as [rest|e].
      * subst rest. reflexivity.
      * destruct IH as [->| ->]; cbn; tauto.
    + rewrite Hc. by left.
Qed.

(** X9. On an empty batch the extractor fails at [torch.cat] (there is
    nothing to concatenate), and with [patches_per_view = 0] it never
    returns either: it fails at [torch.cat], or earlier at [min] for a
    mask without positive entries or at a missing mask. *)
Theorem degenerate_batch_never_returns
  (t_image : list (Patch.tensor3 R)) (mask : list (Patch.tensor2 R))
  (ppv : nat) s rnd :
  t_image = [] ∨ ppv = 0%nat →
  (t_image = [] →
   Patch.extract_patches_from_tensor gt0 t_image mask ppv s rnd
   = Raise RuntimeError_cat_empty)
  ∧ ∃ e, Patch.extract_patches_from_tensor gt0 t_image mask ppv s rnd = Raise e
         ∧ (e = RuntimeError_cat_empty ∨ e = RuntimeError_min_empty ∨ e = IndexError).
Proof.
  intros Hdeg.
  assert (Hnil : t_image = [] →
            Patch.extract_patches_from_tensor gt0 t_image mask ppv s rnd
            = Raise RuntimeError_cat_empty) by (intros ->; reflexivity).
  split; [exact Hnil|].
  destruct Hdeg as [Hempty| ->].
  - exists RuntimeError_cat_empty. split; [by apply Hnil|by left].
  - unfold Patch.extract_patches_from_tensor.
    pose proof (patch_loop_zero t_image 0 mask s rnd) as Hz.
    destruct (Patch.patch_loop gt0 t_image 0 mask 0 s rnd) as [crops|e].
    + subst crops. exists RuntimeError_cat_empty. split; [reflexivity|by left].
    + exists e. split; [reflexivity|]. tauto.
Qed.

(** Lists without duplicates. *)
Lemma NoDup_map_inj {A B} (f : A → B) (l : list A) :
  (∀ x y, f x = f y → x = y) → NoDup l → NoDup (map f l).
Proof.
  intros Hinj. induction 1 as [|a l Hnotin _ IH]; cbn.
  - apply NoDup_nil_2.
  - apply NoDup_cons. split; [|exact IH].
    intros Hin. apply list_elem_of_In, in_map_iff in Hin as (b & Hb & Hbl).
    apply Hinj in Hb as ->. apply Hnotin. by apply list_elem_of_In.
Qed.

Lemma NoDup_List_filter {A} (f : A → bool) (l : list A) :
  NoDup l → NoDup (List.filter f l).
Proof.
  induction 1 as [|a l Hnotin _ IH]; cbn.
  - apply NoDup_nil_2.
  - destruct (f a); [|exact IH]. apply NoDup_cons. split; [|exact IH].
    intros Hin. apply list_elem_of_In, filter_In in Hin as [Hin _].
    apply Hnotin. by apply list_elem_of_In.
Qed.

Lemma NoDup_list_prod {A B} (l : list A) (k : list B) :
  NoDup l → NoDup k → NoDup (list_prod l k).
Proof.
  intros Hl Hk. induction Hl as [|a l Hnotin _ IH]; cbn.
  - apply NoDup_nil_2.
  - apply NoDup_app. split; [|split; [|exact IH]].
    + apply NoDup_map_inj; [|exact Hk]. by intros x y [= ->].
    + intros [a' b] Hin1 Hin2.
      apply list_elem_of_In, in_map_iff in Hin1 as (b' & [= <- <-] & _).
      apply list_elem_of_In, in_prod_iff in Hin2 as [Hin2 _].
      apply Hnotin. by apply list_elem_of_In.
Qed.

Lemma NoDup_nonzero m : NoDup (Patch.nonzero gt0 m).
Proof.
  unfold Patch.nonzero. apply NoDup_map_inj.
  - intros [i j] [i' j'] [= Hi Hj]. f_equal; lia.
  - apply NoDup_List_filter, NoDup_list_prod; apply NoDup_seq.
Qed.

Lemma NoDup_at_positions {A} (kept : list A) (idxs : list nat) (cs : list A) :
  NoDup kept → NoDup idxs →
  Forall2 (fun i c => kept !! i = Some c) idxs cs →
  NoDup cs.
Proof.
  intros Hkept Hidxs HF. induction HF as [|i c idxs cs Hic HF IH].
  - apply NoDup_nil_2.
  - apply NoDup_cons in Hidxs as [Hnotin Hidxs].
    apply NoDup_cons. split; [|by apply IH].
    intros Hin. apply list_elem_of_lookup in Hin as [k Hk].
    destruct (Forall2_lookup_r _ _ _ _ _ HF Hk) as (i' & Hi' & Hkept').
    assert (i = i') by exact (NoDup_lookup kept i i' c Hkept Hic Hkept'). subst i'.
    apply Hnotin. apply list_elem_of_lookup. eauto.
Qed.

(** X10. The centers sampled for an image are pairwise distinct positive
    entries of its mask, as many as asked for: no two patches of a view
    are taken at the same center. *)
Theorem sampled_centers_distinct m (ppv : nat) s rnd (cs : list (Z * Z)) rnd' :
  Patch.sample_centers gt0 m ppv s rnd = Ok (cs, rnd') →
  NoDup cs ∧ length cs = ppv ∧ ∀ yx, yx ∈ cs → In yx (Patch.nonzero gt0 m).
Proof.
  intros Hok. pose proof (sample_centers_cases gt0 m ppv s rnd) as Hc.
  destruct (Patch.valid_centers gt0 m s) as [kept|e] eqn:Hv;
    [|rewrite Hc in Hok; discriminate].
  destruct (length kept <? ppv)%nat; [rewrite Hc in Hok; discriminate|].
  destruct Hc as (cs' & idxs & Hsc & Hlen & Hnd & HF).
  rewrite Hsc in Hok. injection Hok as <- <-.
  destruct (valid_centers_spec gt0 m s kept Hv) as (a & b & c & d & _ & Hkept).
  assert (Hnk : NoDup kept) by (rewrite Hkept; apply NoDup_List_filter, NoDup_nonzero).
  split; [exact (NoDup_at_positions kept idxs cs' Hnk Hnd HF)|].
  split; [exact Hlen|].
  intros yx Hyx. apply list_elem_of_lookup in Hyx as [k Hk].
  destruct (Forall2_lookup_r _ _ _ _ _ HF Hk) as (i & _ & Hi).
  assert (Hin : In yx kept) by (apply list_elem_of_In, list_elem_of_lookup; eauto).
  rewrite Hkept in Hin. by apply filter_In in Hin as [Hin _].
Qed.

End PatchEdges.

Lemma degenerate_batch_never_returns_witness :
  ∃ e, Patch.extract_patches_from_tensor gtz [img_ex] [mask_ex] 0 4 [5; 7]%nat = Raise e
       ∧ (e = RuntimeError_cat_empty ∨ e = RuntimeError_min_empty ∨ e = IndexError).
Proof.
  apply (degenerate_batch_never_returns gtz [img_ex] [mask_ex] 0 4 [5; 7]%nat).
  right. reflexivity.
Defined.

Lemma sampled_centers_distinct_witness :
  ∃ cs rnd', Patch.sample_centers gtz mask_ex 3 4 [5; 7; 9]%nat = Ok (cs, rnd')
             ∧ NoDup cs ∧ length cs = 3%nat.
Proof.
  destruct (Patch.sample_centers gtz mask_ex 3 4 [5; 7; 9]%nat) as [[cs rnd']|e] eqn:H;
    [|vm_compute in H; discriminate].
  exists cs, rnd'. split; [reflexivity|].
  destruct (sampled_centers_distinct gtz mask_ex 3 4 _ cs rnd' H) as (Hnd & Hlen & _).
  by split.
Defined.

Section PatchPost.
Context {R : Type} (gt0 : R → bool).

Lemma length_flat_map_const {A B} (f : A → list B) (l : list A) (n : nat) :
  (∀ x, length (f x) = n) → length (flat_map f l) = (length l * n)%nat.
Proof.
  intros Hf. induction l as [|a l IH]; cbn; [reflexivity|].
  rewrite length_app, Hf, IH. reflexivity.
Qed.

Lemma length_flat2 (t : Patch.tensor2 R) :
  length (Patch.flat2 t) = (Patch.t2_h t * Patch.t2_w t)%nat.
Proof.
  unfold Patch.flat2. rewrite (length_flat_map_const _ _ (Patch.t2_w t)).
  - by rewrite length_seq.
  - intros i. by rewrite length_map, length_seq.
Qed.

Lemma length_flat3 (t : Patch.tensor3 R) :
  length (Patch.flat3 t) = (Patch.t3_c t * (Patch.t3_h t * Patch.t3_w t))%nat.
Proof.
  unfold Patch.flat3.
  rewrite (length_flat_map_const _ _ (Patch.t3_h t * Patch.t3_w t)).
  - by rewrite length_seq.
  - intros ch. rewrite (length_flat_map_const _ _ (Patch.t3_w t)).
    + by rewrite length_seq.
    + intros i. by rewrite length_map, length_seq.
Qed.

Lemma length_flat_map_data (ts : list (Patch.tensor R)) (n : Z) :
  Forall (fun u => Z.of_nat (length (Patch.data u)) = n) ts →
  Z.of_nat (length (flat_map Patch.data ts)) = Z.of_nat (length ts) * n.
Proof.
  induction 1 as [|u ts Hu _ IH]; cbn [flat_map length]; [lia|].
  rewrite length_app, Nat2Z.inj_add, Hu, IH. lia.
Qed.

(** The tensor [torch.cat] returns holds as many entries as its shape
    says, when each of its inputs does and has a first dimension of 1. *)
Lemma torch_cat_numel (ts : list (Patch.tensor R)) (t : Patch.tensor R) :
  Patch.torch_cat ts = Ok t →
  Forall (fun u => hd 0 (Patch.shape u) = 1
                   ∧ Z.of_nat (length (Patch.data u)) = Patch.numel (tail (Patch.shape u)))
         ts →
  Z.of_nat (length (Patch.data t)) = Patch.numel (Patch.shape t)
  ∧ hd 0 (Patch.shape t) = Z.of_nat (length ts)
  ∧ (1 ≤ length ts)%nat.
Proof.
  intros Hcat Hall.
  apply torch_cat_ok in Hcat as (t0 & rest & Hts & Hsh & Hdata & Htails).
  assert (Hheads : foldr Z.add 0 (map (fun u => hd 0 (Patch.shape u)) ts)
                   = Z.of_nat (length ts)).
  { apply sum_heads. eapply Forall_impl; [exact Hall|]. by intros u [Hu _]. }
  rewrite Hsh, Hdata, Hheads. cbn [hd Patch.numel foldr].
  split; [|split; [reflexivity|subst ts; cbn; lia]].
  apply length_flat_map_data. apply Forall_forall. intros u Hu.
  rewrite Forall_forall in Hall, Htails.
  destruct (Hall u Hu) as [_ Hlen]. by rewrite Hlen, (Htails u Hu).
Qed.

(** X11. Whenever the extractor returns, the patches have the shape
    [(batch, count, 3, size, size)] and hold exactly
    [batch * count * 3 * size * size] entries, the patch masks have the
    shape [(batch, count, 1, size, size)] and hold
    [batch * count * size * size] entries; the patch size is then even
    and not negative, the batch is not empty and at least one patch per
    view was asked for. *)
Theorem extract_postcondition
  (t_image : list (Patch.tensor3 R)) (mask : list (Patch.tensor2 R))
  (ppv : nat) (s : Z) (rnd : list nat) (P M : Patch.tensor R) :
  Patch.extract_patches_from_tensor gt0 t_image mask ppv s rnd = Ok (P, M) →
  Patch.shape P = [Z.of_nat (length t_image); Z.of_nat ppv; 3; s; s]
  ∧ Patch.shape M = [Z.of_nat (length t_image); Z.of_nat ppv; 1; s; s]
  ∧ Z.of_nat (length (Patch.data P))
    = Z.of_nat (length t_image) * Z.of_nat ppv * 3 * s * s
  ∧ Z.of_nat (length (Patch.data M)) = Z.of_nat (length t_image) * Z.of_nat ppv * s * s
  ∧ Z.even s = true ∧ 0 ≤ s
  ∧ (1 ≤ length t_image)%nat ∧ (1 ≤ ppv)%nat.
Proof.
  intros H. apply extract_ok_inv in H as (crops & cp & cm & H1 & H2 & H3 & H4 & H5).
  apply reshape_ok in H3 as (HsP & HdP & Hpos & HnP).
  apply reshape_ok in H5 as (HsM & HdM & _ & HnM).
  assert (Hs : 0 ≤ s) by (apply Hpos; cbn; tauto).
  assert (Hhalf : 0 ≤ s / 2) by (apply Z.div_pos; lia).
  apply patch_loop_ok in H1 as (css & HF & Hlen & Hcrops); [|exact Hs].
  rewrite drop_0 in HF, Hcrops.
  destruct (crops_of_mask_shapes gt0 _ _ _ _ _ HF) as [Hmsk Hcount].
  rewrite <- Hcrops in Hmsk, Hcount. rewrite Hlen in Hcount.
  destruct (torch_cat_numel _ _ H2) as (HlP & _ & _).
  { apply Forall_forall. intros u Hu.
    apply list_elem_of_In, in_map_iff in Hu as (c & <- & _).
    split; [reflexivity|]. unfold Patch.patch_unsqueeze.
    cbn [Patch.shape Patch.data tail Patch.numel foldr]. rewrite length_flat3. lia. }
  destruct (torch_cat_numel _ _ H4) as (HlM & HhM & HN).
  { apply Forall_forall. intros u Hu.
    apply list_elem_of_In, in_map_iff in Hu as (c & <- & _).
    split; [reflexivity|]. unfold Patch.msk_unsqueeze.
    cbn [Patch.shape Patch.data tail Patch.numel foldr]. rewrite length_flat2. lia. }
  rewrite length_map in HhM, HN.
  (* the shape of the concatenated masks *)
  apply torch_cat_ok in H4 as (t0 & rest & Hts & Hsh & _ & _).
  destruct crops as [|c0 crops]; [discriminate|].
  cbn [map] in Hts. injection Hts as <- <-.
  apply Forall_cons in Hmsk as [[Hh0 Hw0] _].
  rewrite Hsh in HhM, HnM. cbn [hd] in HhM. rewrite HhM in HnM.
  unfold Patch.msk_unsqueeze in HnM.
  cbn [Patch.shape tail Patch.numel foldr] in HnM.
  rewrite Hh0, Hw0, Z2Nat.id in HnM by lia.
  assert (HNZ : Z.of_nat (length (c0 :: crops))
                = Z.of_nat (length t_image) * Z.of_nat ppv) by (rewrite Hcount; lia).
  rewrite HNZ in HnM.
  assert (Hprod : 1 ≤ Z.of_nat (length t_image) * Z.of_nat ppv)
    by (rewrite <- HNZ; cbn [length]; lia).
  pose proof (Z.mul_div_le s 2 ltac:(lia)) as Hle.
  assert (Hsq : Z.of_nat (length t_image) * Z.of_nat ppv * (s * s)
                = Z.of_nat (length t_image) * Z.of_nat ppv * (2 * (s / 2) * (2 * (s / 2))))
    by lia.
  apply Z.mul_reg_l in Hsq; [|lia].
  assert (Hfac : (s - 2 * (s / 2)) * (s + 2 * (s / 2)) = 0) by lia.
  assert (Heven : s = 2 * (s / 2))
    by (apply Z.mul_eq_0 in Hfac as [?|?]; lia).
  refine (conj HsP (conj HsM (conj _ (conj _ (conj _ (conj Hs (conj _ _))))))).
  - rewrite HdP, HlP, <- HnP. cbn [Patch.numel foldr]. ring.
  - rewrite HdM, HlM, Hsh, HhM, HNZ. unfold Patch.msk_unsqueeze.
    cbn [Patch.shape tail Patch.numel foldr].
    rewrite Hh0, Hw0, Z2Nat.id by lia. rewrite <- Heven. ring.
  - rewrite Heven, Z.even_mul. reflexivity.
  - nia.
  - nia.
Qed.

End PatchPost.

Lemma extract_postcondition_witness :
  ∃ P M,
    Patch.extract_patches_from_tensor gtz [img_ex] [mask_ex] 2 4 [5; 7]%nat = Ok (P, M)
    ∧ Z.of_nat (length (Patch.data P)) = 1 * 2 * 3 * 4 * 4
    ∧ Z.of_nat (length (Patch.data M)) = 1 * 2 * 4 * 4.
Proof.
  destruct (Patch.extract_patches_from_tensor gtz [img_ex] [mask_ex] 2 4 [5; 7]%nat)
    as [[P M]|e] eqn:H; [|vm_compute in H; discriminate].
  exists P, M. split; [reflexivity|].
  destruct (extract_postcondition gtz _ _ _ _ _ P M H) as (_ & _ & HP & HM & _).
  split; [exact HP|exact HM].
Defined.

(** * The exports of the validation epoch *)

Lemma floordiv_ok (a b : Z) : b ≠ 0 → Validation.floordiv a b = Ok (a / b).
Proof.
  intros Hb. unfold Validation.floordiv.
  destruct (Z.eqb_spec b 0); [contradiction|reflexivity].
Qed.

Section GridFacts.
Context {L B I : Type} (fake_of : B → L → list I).
Variables num_vis_images batch_size : Z.

(** The loop of [export_grid] with a batch size other than zero. *)
Lemma grid_loop_spec (fid : bool) (chunks : list L) :
  batch_size ≠ 0 →
  ∀ (iter_idx : nat) (grid_loader : list B) (vis : list (list I)) (files : list (nat * nat)),
    Validation.grid_loop fake_of num_vis_images batch_size fid iter_idx chunks grid_loader vis files
    = if decide (length chunks ≤ length grid_loader)%nat
      then Validation.Return
             (vis ++ take (Z.to_nat (num_vis_images / batch_size) - iter_idx) (zip_with fake_of grid_loader chunks),
              files ++ (if fid
                        then Validation.fid_files iter_idx (zip_with fake_of grid_loader chunks)
                        else []))
      else Validation.Abort Validation.StopIteration.
Proof.
  intros Hbs.
  induction chunks as [|z chunks IH]; intros i loader vis files.
  - cbn [Validation.grid_loop length]. rewrite decide_True by lia.
    destruct loader; cbn [zip_with Validation.fid_files]; rewrite take_nil, !app_nil_r;
      destruct fid; rewrite ?app_nil_r; reflexivity.
  - cbn [Validation.grid_loop]. destruct loader as [|b loader].
    + cbn [Validation.next mbind Validation.outcome_bind length].
      rewrite decide_False by lia. reflexivity.
    + cbn [Validation.next mbind Validation.outcome_bind fst snd].
      rewrite floordiv_ok by exact Hbs.
      cbn [Validation.lift mbind Validation.outcome_bind].
      rewrite IH. cbn [length zip_with Validation.fid_files].
      destruct (decide (length chunks ≤ length loader)%nat) as [Hle|Hgt].
      * rewrite decide_True by lia. f_equal. f_equal.
        -- destruct (Z.ltb_spec (Z.of_nat i) (num_vis_images / batch_size)) as [Hlt|Hge].
           ++ replace (Z.to_nat (num_vis_images / batch_size) - i)%nat with (S (Z.to_nat (num_vis_images / batch_size) - S i)) by lia.
              cbn [take]. rewrite <- app_assoc. reflexivity.
           ++ replace (Z.to_nat (num_vis_images / batch_size) - i)%nat with 0%nat by lia.
              replace (Z.to_nat (num_vis_images / batch_size) - S i)%nat with 0%nat by lia. reflexivity.
        -- destruct fid; [|reflexivity]. rewrite <- app_assoc. reflexivity.
      * rewrite decide_False by lia. reflexivity.
Qed.

(** X12. The outcome of [export_grid] for a positive batch size (the
    loader and the chunks of [grid_z] exist for no other). It ends in
    [StopIteration] when the loader has fewer batches than there are
    chunks. Otherwise it fails at [torch.cat], on an empty list, when
    there is no chunk or [num_vis_images] is below the batch size; and
    else it returns: the grid holds the images of the first
    [num_vis_images // batch_size] chunks, and every chunk is written
    for the FID when a directory is given. *)
Theorem export_grid_outcome (fid : bool) (chunks : list L) (grid_loader : list B) :
  0 < batch_size →
  let fakes := zip_with fake_of grid_loader chunks in
  let outcome :=
    Validation.export_grid fake_of num_vis_images batch_size fid chunks grid_loader in
  ((length grid_loader < length chunks)%nat →
   outcome = Validation.Abort Validation.StopIteration)
  ∧ ((length chunks ≤ length grid_loader)%nat →
     chunks = [] ∨ num_vis_images < batch_size →
     outcome = Validation.Abort (Validation.Error RuntimeError_cat_empty))
  ∧ ((length chunks ≤ length grid_loader)%nat →
     chunks ≠ [] → batch_size ≤ num_vis_images →
     outcome
     = Validation.Return
         (concat (take (Z.to_nat (num_vis_images / batch_size)) fakes),
          if fid then Validation.fid_files 0 fakes else [])).
Proof.
  intros Hpos fakes outcome. subst outcome. unfold Validation.export_grid.
  assert (Hbs : batch_size ≠ 0) by lia.
  rewrite grid_loop_spec by exact Hbs. rewrite Nat.sub_0_r. fold fakes.
  refine (conj _ (conj _ _)).
  - intros Hlt. rewrite decide_False by lia. reflexivity.
  - intros Hle Hnone. rewrite decide_True by lia.
    cbn [mbind Validation.outcome_bind fst snd app].
    replace (take (Z.to_nat (num_vis_images / batch_size)) fakes)
      with (@nil (list I)); [reflexivity|].
    destruct Hnone as [->|Hlt].
    + subst fakes. destruct grid_loader; cbn [zip_with]; by rewrite take_nil.
    + assert (num_vis_images / batch_size < 1)
        by (apply Z.div_lt_upper_bound; lia).
      replace (Z.to_nat (num_vis_images / batch_size)) with 0%nat by lia.
      reflexivity.
  - intros Hle Hc Hq. rewrite decide_True by lia.
    cbn [mbind Validation.outcome_bind fst snd app].
    assert (1 ≤ num_vis_images / batch_size)
      by (apply Z.div_le_lower_bound; lia).
    destruct (take (Z.to_nat (num_vis_images / batch_size)) fakes) as [|f fs] eqn:Htake.
    + exfalso. apply (f_equal length) in Htake.
      rewrite length_take in Htake. subst fakes.
      rewrite length_zip_with in Htake.
      destruct chunks; [contradiction|]. destruct grid_loader; [cbn in Hle; lia|].
      cbn [length] in Htake. lia.
    + reflexivity.
Qed.

End GridFacts.

Lemma export_grid_outcome_witness :
  Validation.export_grid (fun (b z : nat) => [b + z; b * z]%nat) 5 2 true
    [10; 20; 30]%nat [1; 2; 3; 4]%nat
  = Validation.Return ([11; 10; 22; 40]%nat, [(0, 0); (0, 1); (1, 0); (1, 1); (2, 0); (2, 1)]%nat).
Proof.
  apply (export_grid_outcome (fun (b z : nat) => [b + z; b * z]%nat) 5 2 true
           [10; 20; 30]%nat [1; 2; 3; 4]%nat).
  - lia.
  - cbn. lia.
  - discriminate.
  - lia.
Defined.

Section MeshFacts.
Context {L B C N : Type} (colors_of : B → L → list C) (names_of : B → list N).
Variables num_vis_meshes batch_size num_faces : Z.

(** A slice of [num_faces] rows that lies within the sequence. *)
Lemma py_slice_block (l : list C) (k : nat) :
  0 < num_faces →
  (Z.of_nat k + 1) * num_faces ≤ Z.of_nat (length l) →
  Validation.py_slice l (num_faces * Z.of_nat k) (num_faces * (Z.of_nat k + 1))
  = take (Z.to_nat num_faces) (drop (k * Z.to_nat num_faces) l).
Proof.
  intros Hnf Hle. unfold Validation.py_slice.
  rewrite !slice_bound_in_range by nia.
  f_equal; [nia|f_equal; nia].
Qed.

(** The exports of the shapes [a, a + 1, ..., a + k - 1] of a batch. *)
Lemma mesh_rows_ok (colors : list C) (names : list N) (k : nat) :
  0 < num_faces →
  ∀ a : nat,
    (a + k ≤ length names)%nat →
    Z.of_nat (a + k) * num_faces ≤ Z.of_nat (length colors) →
    ∃ out, Validation.mesh_rows num_faces colors names (seq a k) = Ok out
           ∧ map fst out = take k (drop a names)
           ∧ Forall (fun p => Z.of_nat (length (snd p)) = num_faces) out
           ∧ concat (map snd out)
             = take (k * Z.to_nat num_faces) (drop (a * Z.to_nat num_faces) colors).
Proof.
  intros Hnf. induction k as [|k IH]; intros a Hn Hc.
  - exists []. repeat split. apply Forall_nil_2.
  - cbn [seq Validation.mesh_rows]. unfold Patch.lookup_or_raise.
    destruct (names !! a) as [x|] eqn:Hx;
      [|apply lookup_ge_None in Hx; lia].
    cbn [mbind result_bind].
    destruct (IH (S a)) as (out & -> & Hfst & Hlen & Hcat); [lia|lia|].
    cbn [mbind result_bind]. eexists. split; [reflexivity|].
    rewrite py_slice_block by (try exact Hnf; nia).
    cbn [map fst snd concat]. refine (conj _ (conj _ _)).
    + rewrite Hfst. rewrite (drop_S names x a Hx). reflexivity.
    + constructor; [|exact Hlen]. cbn [snd].
      rewrite length_take, length_drop. nia.
    + rewrite Hcat.
      replace (S k * Z.to_nat num_faces)%nat
        with (Z.to_nat num_faces + k * Z.to_nat num_faces)%nat by lia.
      rewrite <- take_take_drop, drop_drop. do 3 f_equal. lia.
Qed.

Lemma mesh_rows_index_error (colors : list C) (names : list N) (k : nat) :
  ∀ a : nat, (a ≤ length names < a + k)%nat →
    Validation.mesh_rows num_faces colors names (seq a k) = Raise IndexError.
Proof.
  induction k as [|k IH]; intros a Hn; [lia|].
  cbn [seq Validation.mesh_rows]. unfold Patch.lookup_or_raise.
  destruct (names !! a) as [x|] eqn:Hx; [|reflexivity].
  apply lookup_lt_Some in Hx.
  cbn [mbind result_bind]. rewrite IH by lia. reflexivity.
Qed.

(** X13. The meshes of one batch. With a positive face count [nf] the
    rows of [generated_colors] are cut into [len // nf] consecutive
    blocks of exactly [nf] rows, one per shape and in the order of the
    names: together they are the first [(len // nf) * nf] rows, the
    remaining [len % nf] rows are not exported, and the call fails with
    [IndexError] when the batch has fewer names than blocks. A face
    count of zero is a [ZeroDivisionError]; a negative one exports
    nothing. *)
Theorem batch_meshes_partition (generated_colors : list C) (names : list N) :
  let len := Z.of_nat (length generated_colors) in
  let blocks := Z.to_nat (len / num_faces) in
  let meshes := Validation.batch_meshes num_faces generated_colors names in
  (num_faces = 0 → meshes = Raise ZeroDivisionError)
  ∧ (num_faces < 0 → meshes = Ok [])
  ∧ (0 < num_faces → (length names < blocks)%nat → meshes = Raise IndexError)
  ∧ (0 < num_faces → (blocks ≤ length names)%nat →
     ∃ out, meshes = Ok out
            ∧ map fst out = take blocks names
            ∧ Forall (fun p => Z.of_nat (length (snd p)) = num_faces) out
            ∧ concat (map snd out)
              = take (Z.to_nat (len - len mod num_faces)) generated_colors).
Proof.
  intros len blocks meshes. subst meshes. unfold Validation.batch_meshes.
  refine (conj _ (conj _ (conj _ _))).
  - intros ->. reflexivity.
  - intros Hnf. rewrite floordiv_ok by lia. cbn [mbind result_bind].
    assert (Hq : len / num_faces ≤ 0).
    { pose proof (Z.div_mod len num_faces ltac:(lia)).
      pose proof (Z.mod_neg_bound len num_faces Hnf). subst len. nia. }
    fold len. replace (Z.to_nat (len / num_faces)) with 0%nat by lia. reflexivity.
  - intros Hnf Hlt. rewrite floordiv_ok by lia. cbn [mbind result_bind].
    apply mesh_rows_index_error. fold len. fold blocks. lia.
  - intros Hnf Hle. rewrite floordiv_ok by lia. cbn [mbind result_bind].
    fold len. fold blocks.
    pose proof (Z.mul_div_le len num_faces Hnf) as Hmul.
    assert (Hpos : 0 ≤ len / num_faces) by (apply Z.div_pos; lia).
    destruct (mesh_rows_ok generated_colors names blocks Hnf 0%nat)
      as (out & Hout & Hfst & Hlen & Hcat); [lia|subst blocks; fold len; nia|].
    exists out. rewrite drop_0 in Hfst. cbn [Nat.mul drop] in Hcat.
    refine (conj Hout (conj Hfst (conj Hlen _))).
    rewrite Hcat. f_equal. subst blocks.
    pose proof (Z.div_mod len num_faces ltac:(lia)). nia.
Qed.

(** The loop of [export_mesh] renders the chunks below
    [num_vis_meshes // batch_size] only. *)
Lemma mesh_loop_take (chunks : list L) :
  batch_size ≠ 0 →
  ∀ (iter_idx : nat) (grid_loader : list B),
    Validation.mesh_loop colors_of names_of num_vis_meshes batch_size num_faces
      iter_idx chunks grid_loader
    = Validation.mesh_loop colors_of names_of num_vis_meshes batch_size num_faces
        iter_idx (take (Z.to_nat (num_vis_meshes / batch_size) - iter_idx) chunks)
        grid_loader.
Proof.
  intros Hbs. induction chunks as [|z chunks IH]; intros i loader.
  - by rewrite take_nil.
  - destruct (Z.ltb_spec (Z.of_nat i) (num_vis_meshes / batch_size)) as [Hlt|Hge].
    + replace (Z.to_nat (num_vis_meshes / batch_size) - i)%nat
        with (S (Z.to_nat (num_vis_meshes / batch_size) - S i)) by lia.
      cbn [take Validation.mesh_loop]. rewrite floordiv_ok by exact Hbs.
      cbn [Validation.lift mbind Validation.outcome_bind].
      destruct (Z.ltb_spec (Z.of_nat i) (num_vis_meshes / batch_size)); [|lia].
      destruct loader as [|b loader]; [reflexivity|].
      cbn [Validation.next mbind Validation.outcome_bind fst snd].
      destruct (Validation.lift _); [|reflexivity].
      cbn [mbind Validation.outcome_bind]. rewrite IH. reflexivity.
    + replace (Z.to_nat (num_vis_meshes / batch_size) - i)%nat with 0%nat by lia.
      cbn [take Validation.mesh_loop]. rewrite floordiv_ok by exact Hbs.
      cbn [Validation.lift mbind Validation.outcome_bind].
      destruct (Z.ltb_spec (Z.of_nat i) (num_vis_meshes / batch_size)); [lia|].
      rewrite IH.
      replace (Z.to_nat (num_vis_meshes / batch_size) - S i)%nat with 0%nat by lia.
      reflexivity.
Qed.

Lemma mesh_loop_no_stop (chunks : list L) :
  batch_size ≠ 0 →
  ∀ (iter_idx : nat) (grid_loader : list B),
    (length chunks `min` (Z.to_nat (num_vis_meshes / batch_size) - iter_idx)
     ≤ length grid_loader)%nat →
    Validation.mesh_loop colors_of names_of num_vis_meshes batch_size num_faces
      iter_idx chunks grid_loader
    ≠ Validation.Abort Validation.StopIteration.
Proof.
  intros Hbs. induction chunks as [|z chunks IH]; intros i loader Hlen.
  - discriminate.
  - cbn [Validation.mesh_loop]. rewrite floordiv_ok by exact Hbs.
    cbn [Validation.lift mbind Validation.outcome_bind].
    destruct (Z.ltb_spec (Z.of_nat i) (num_vis_meshes / batch_size)) as [Hlt|Hge].
    + destruct loader as [|b loader]; [cbn [length] in Hlen; lia|].
      cbn [Validation.next mbind Validation.outcome_bind fst snd].
      destruct (Validation.batch_meshes _ _ _) as [out|e];
        cbn [Validation.lift mbind Validation.outcome_bind]; [|discriminate].
      specialize (IH (S i) loader ltac:(cbn [length] in Hlen; lia)).
      destruct (Validation.mesh_loop _ _ _ _ _ _ _ _) as [rest|e]; [discriminate|].
      cbn [mbind Validation.outcome_bind]. congruence.
    + apply IH. cbn [length] in Hlen. lia.
Qed.

(** X14. [export_mesh] with a positive batch size treats the first
    [num_vis_meshes // batch_size] chunks only: later chunks draw no
    batch and write nothing. So no mesh is written when
    [num_vis_meshes] is below the batch size, and the loader is never
    exhausted when it holds as many batches as the smaller of that
    quotient and the number of chunks. *)
Theorem export_mesh_reads_first_chunks (chunks : list L) (grid_loader : list B) :
  0 < batch_size →
  let export_mesh :=
    Validation.export_mesh colors_of names_of num_vis_meshes batch_size num_faces in
  let first := Z.to_nat (num_vis_meshes / batch_size) in
  export_mesh chunks grid_loader = export_mesh (take first chunks) grid_loader
  ∧ (num_vis_meshes < batch_size →
     export_mesh chunks grid_loader = Validation.Return [])
  ∧ ((length chunks `min` first ≤ length grid_loader)%nat →
     export_mesh chunks grid_loader ≠ Validation.Abort Validation.StopIteration).
Proof.
  intros Hpos export_mesh first. subst export_mesh. unfold Validation.export_mesh.
  assert (Hbs : batch_size ≠ 0) by lia.
  assert (Htake := mesh_loop_take chunks Hbs 0%nat grid_loader).
  rewrite Nat.sub_0_r in Htake. fold first in Htake.
  refine (conj Htake (conj _ _)).
  - intros Hlt. rewrite Htake.
    assert (num_vis_meshes / batch_size < 1)
      by (apply Z.div_lt_upper_bound; lia).
    replace first with 0%nat by (subst first; lia).
    reflexivity.
  - intros Hlen. apply mesh_loop_no_stop; [exact Hbs|].
    rewrite Nat.sub_0_r. exact Hlen.
Qed.

End MeshFacts.

Lemma batch_meshes_partition_witness :
  ∃ out, Validation.batch_meshes 3 [1; 2; 3; 4; 5; 6; 7; 8]%nat [10; 20; 30]%nat = Ok out
         ∧ map fst out = [10; 20]%nat
         ∧ concat (map snd out) = [1; 2; 3; 4; 5; 6]%nat.
Proof.
  destruct (batch_meshes_partition 3 [1; 2; 3; 4; 5; 6; 7; 8]%nat [10; 20; 30]%nat)
    as (_ & _ & _ & H).
  destruct H as (out & Hout & Hfst & _ & Hcat); [lia|vm_compute; lia|].
  exists out. split; [exact Hout|]. split; [exact Hfst|exact Hcat].
Defined.

Lemma export_mesh_reads_first_chunks_witness :
  Validation.export_mesh (fun (b z : nat) => [b; z; b + z; b * z]%nat)
    (fun b : nat => [b; S b]) 5 2 2 [10; 20; 30]%nat [1; 2]%nat
  ≠ Validation.Abort Validation.StopIteration.
Proof.
  apply (export_mesh_reads_first_chunks (fun (b z : nat) => [b; z; b + z; b * z]%nat)
           (fun b : nat => [b; S b]) 5 2 2 [10; 20; 30]%nat [1; 2]%nat).
  - lia.
  - vm_compute. lia.
Defined.

Section SamplesFacts.
Context {L B : Type}.
Implicit Types (latents : list L) (batches : list B).

Lemma samples_loop_patch_ok latents batches :
  latents ≠ [] →
  ∀ iter_idx : nat,
    ∃ out, Validation.samples_loop_patch latents iter_idx batches = Ok out
           ∧ length out = length batches
           ∧ ∀ (i : nat) (b : B), batches !! i = Some b →
               ∃ z, latents !! ((iter_idx + i) mod length latents)%nat = Some z
                    ∧ out !! i = Some ((iter_idx + i)%nat, b, z).
Proof.
  intros Hne. assert (Hlen : (0 < length latents)%nat)
    by (destruct latents; [contradiction|cbn; lia]).
  induction batches as [|b batches IH]; intros k.
  - exists []. split; [reflexivity|]. split; [reflexivity|]. intros i b [=].
  - cbn [Validation.samples_loop_patch]. unfold py_mod.
    destruct (Z.eqb_spec (Z.of_nat (length latents)) 0) as [H0|_]; [lia|].
    cbn [mbind result_bind].
    rewrite <- Nat2Z.inj_mod, Nat2Z.id. unfold Patch.lookup_or_raise.
    destruct (lookup_lt_is_Some_2 latents (k mod length latents)) as [z Hz];
      [apply Nat.mod_upper_bound; lia|].
    rewrite Hz. cbn [mbind result_bind].
    destruct (IH (S k)) as (out & -> & Hout & Hall).
    cbn [mbind result_bind]. eexists. split; [reflexivity|].
    split; [cbn; by rewrite Hout|].
    intros [|i] b' Hb'.
    + injection Hb' as <-. exists z. rewrite Nat.add_0_r. by split.
    + destruct (Hall i b' Hb') as (z' & Hz' & Hi).
      exists z'. replace (k + S i)%nat with (S k + i)%nat by lia. by split.
Qed.

Lemma samples_loop_base_ok latents batches :
  ∀ iter_idx : nat,
    (iter_idx + length batches ≤ length latents)%nat →
    Validation.samples_loop_base latents iter_idx batches
    = Validation.samples_loop_patch latents iter_idx batches.
Proof.
  induction batches as [|b batches IH]; intros k Hk; [reflexivity|].
  cbn [length] in Hk.
  cbn [Validation.samples_loop_base Validation.samples_loop_patch]. unfold py_mod.
  destruct (Z.eqb_spec (Z.of_nat (length latents)) 0) as [H0|_]; [lia|].
  cbn [mbind result_bind].
  rewrite <- Nat2Z.inj_mod, Nat2Z.id, Nat.mod_small by lia.
  rewrite IH by lia. reflexivity.
Qed.

Lemma samples_loop_base_index_error latents batches :
  ∀ iter_idx : nat,
    (iter_idx ≤ length latents < iter_idx + length batches)%nat →
    Validation.samples_loop_base latents iter_idx batches = Raise IndexError.
Proof.
  induction batches as [|b batches IH]; intros k Hk; cbn [length] in Hk; [lia|].
  cbn [Validation.samples_loop_base]. unfold Patch.lookup_or_raise.
  destruct (latents !! k) as [z|] eqn:Hz; [|reflexivity].
  apply lookup_lt_Some in Hz. cbn [mbind result_bind].
  rewrite IH by lia. reflexivity.
Qed.

(** X15. The latent chunk of a validation batch. With at least one
    chunk the loop of the patch, light and sdfgrid trainers serves every
    batch, batch [i] with chunk [i % len(latents)]. The loop of the base
    trainer does the same as long as there are no more batches than
    chunks, and fails with [IndexError] as soon as there are more. *)
Theorem samples_latent_of_batch latents batches :
  (latents ≠ [] →
   ∃ out, Validation.export_samples_patch latents batches = Ok out
          ∧ length out = length batches
          ∧ ∀ (i : nat) (b : B), batches !! i = Some b →
              ∃ z, latents !! (i mod length latents)%nat = Some z
                   ∧ out !! i = Some (i, b, z))
  ∧ ((length batches ≤ length latents)%nat →
     Validation.export_samples_base latents batches
     = Validation.export_samples_patch latents batches)
  ∧ ((length latents < length batches)%nat →
     Validation.export_samples_base latents batches = Raise IndexError).
Proof.
  unfold Validation.export_samples_patch, Validation.export_samples_base.
  refine (conj _ (conj _ _)).
  - intros Hne. exact (samples_loop_patch_ok latents batches Hne 0%nat).
  - intros Hle. apply samples_loop_base_ok. lia.
  - intros Hlt. apply samples_loop_base_index_error. lia.
Qed.

End SamplesFacts.

Lemma samples_latent_of_batch_witness :
  Validation.export_samples_base [7; 8]%nat [1; 2; 3]%nat = Raise IndexError
  ∧ ∃ out, Validation.export_samples_patch [7; 8]%nat [1; 2; 3]%nat = Ok out
           ∧ length out = 3%nat.
Proof.
  destruct (samples_latent_of_batch [7; 8]%nat [1; 2; 3]%nat) as (Hp & _ & Hb).
  split; [apply Hb; cbn; lia|].
  destruct Hp as (out & Hout & Hlen & _); [discriminate|].
  exists out. by split.
Defined.

(** * The name of the experiment *)

Lemma generated_name_nonempty (now rest : string) : now +:+ "_" +:+ rest ≠ "".
Proof. destruct now; discriminate. Qed.

(** X16. Without a checkpoint to resume from, the first call fixes the
    name of the experiment: it returns a non-empty name and leaves it in
    the environment, and every later call returns that name whatever
    the clock, the trainer name and the configured experiment are then.
    A non-empty environment variable is returned as it is; an unset or
    empty one is replaced by the generated name. With a checkpoint the
    name is read from its path alone and overwrites the variable. *)
Theorem experiment_name_fixed_by_first_call
  (resume_dir : string → result string) (now name config_experiment : string)
  (environ : option string) :
  (∃ experiment,
     Experiment.generate_experiment_name resume_dir now name None config_experiment environ
     = Ok (experiment, Some experiment)
     ∧ experiment ≠ ""
     ∧ (∀ now' name' config_experiment',
          Experiment.generate_experiment_name resume_dir now' name' None
            config_experiment' (Some experiment)
          = Ok (experiment, Some experiment))
     ∧ (∀ e, environ = Some e → e ≠ "" → experiment = e)
     ∧ (environ = None ∨ environ = Some "" →
        experiment = now +:+ "_" +:+ name +:+ "_" +:+ config_experiment))
  ∧ (∀ path experiment environ',
       Experiment.generate_experiment_name resume_dir now name (Some path)
         config_experiment environ = Ok (experiment, environ') →
       resume_dir path = Ok experiment ∧ environ' = Some experiment).
Proof.
  split.
  - unfold Experiment.generate_experiment_name.
    assert (Hgen : ∀ n m c : string, n +:+ "_" +:+ m +:+ "_" +:+ c ≠ "")
      by (intros; apply generated_name_nonempty).
    destruct environ as [e|]; [destruct (decide (e = "")) as [->|Hne]|].
    + exists (now +:+ "_" +:+ name +:+ "_" +:+ config_experiment).
      rewrite bool_decide_eq_true_2 by reflexivity.
      refine (conj eq_refl (conj (Hgen _ _ _) (conj _ (conj _ _)))).
      * intros. rewrite bool_decide_eq_false_2 by apply Hgen. reflexivity.
      * intros e [= <-] He. contradiction.
      * reflexivity.
    + exists e. rewrite bool_decide_eq_false_2 by exact Hne.
      refine (conj eq_refl (conj Hne (conj _ (conj _ _)))).
      * intros. reflexivity.
      * by intros e' [= <-] _.
      * intros [[=]|[= ->]]. contradiction.
    + exists (now +:+ "_" +:+ name +:+ "_" +:+ config_experiment).
      refine (conj eq_refl (conj (Hgen _ _ _) (conj _ (conj _ _)))).
      * intros. rewrite bool_decide_eq_false_2 by apply Hgen. reflexivity.
      * intros e [=].
      * reflexivity.
  - intros path experiment environ'. unfold Experiment.generate_experiment_name.
    destruct (resume_dir path) as [e|err]; cbn; [|discriminate].
    intros [= <- <-]. by split.
Qed.
